(** * Verification model of [scripts/migrate_markdown.py]

    The script turns markdown notes into Jekyll posts: it derives a title,
    tags and a date, copies the referenced local images into a
    content-addressed store, rewrites the references and writes the post
    behind a front-matter block.

    Modelling choices, kept throughout:
    - a Python [str] is a list of characters; the character repertoire is
      ASCII, where the Unicode-aware classes of [re] ([\w], [\s], [\b]) and
      [str.lower], [str.title], [str.strip] coincide with the tables below;
      documents and titles with other characters are outside the model,
      except for the slug, which is also given over any alphabet;
    - the [re] module is embedded as a backtracking matcher with the priority
      order of CPython's engine (leftmost match, greedy before shorter, lazy
      before longer); every pattern of the script is transcribed as a term;
    - the file system, the working directory and the console are an explicit
      [world] threaded through the effectful methods; an exception is a value
      and effects done before it was raised remain;
    - console output succeeds, and no write fails once its file is open;
      files are read with universal newlines, on a POSIX file system;
    - [hashlib.md5] is implemented (RFC 1321); [jieba.analyse.extract_tags]
      is an external keyword extractor and is a parameter that may raise;
      the effect of [jieba.initialize()] in the constructor is a parameter
      too ([init_with], [main_with]), [init] and [main] being the case where
      the dictionary is loaded already and the call changes nothing. *)

From Stdlib Require Import Ascii String List ZArith Lia Bool Arith PeanoNat.
From Stdlib Require Import Permutation Sorted.
Import ListNotations.
Open Scope list_scope.

(** ** Strings *)

Definition str := list ascii.

Definition txt (s : string) : str := list_ascii_of_string s.

Definition str_eqb (a b : str) : bool :=
  if list_eq_dec ascii_dec a b then true else false.

Fixpoint starts_with (p s : str) : bool :=
  match p, s with
  | [], _ => true
  | a :: p', b :: s' => Ascii.eqb a b && starts_with p' s'
  | _ :: _, [] => false
  end.

(** ** Character tables (ASCII) *)

Definition code (c : ascii) : nat := nat_of_ascii c.

Definition between (lo hi : nat) (c : ascii) : bool :=
  (lo <=? code c) && (code c <=? hi).

Definition is_upper (c : ascii) : bool := between 65 90 c.
Definition is_lower (c : ascii) : bool := between 97 122 c.
Definition is_alpha (c : ascii) : bool := is_upper c || is_lower c.
Definition is_digit (c : ascii) : bool := between 48 57 c.

(** [\s] on a [str] pattern is [Py_UNICODE_ISSPACE]: on ASCII the characters
    9..13, 28..31 and the space. *)
Definition is_space (c : ascii) : bool := between 9 13 c || between 28 32 c.

(** [\w]: alphanumeric or underscore. *)
Definition is_word (c : ascii) : bool :=
  is_alpha c || is_digit c || Ascii.eqb c "_".

Definition newline : ascii := ascii_of_nat 10.

Definition lower_char (c : ascii) : ascii :=
  if is_upper c then ascii_of_nat (code c + 32) else c.

Definition upper_char (c : ascii) : ascii :=
  if is_lower c then ascii_of_nat (code c - 32) else c.

(** [str.lower] *)
Definition lower (s : str) : str := map lower_char s.

(** [str.title]: a cased character is upper-cased when the previous character
    is not cased and lower-cased when it is. *)
Fixpoint title_from (prev_cased : bool) (s : str) : str :=
  match s with
  | [] => []
  | c :: s' =>
      (if prev_cased then lower_char c else upper_char c)
        :: title_from (is_alpha c) s'
  end.

Definition title (s : str) : str := title_from false s.

(** [str.strip] *)
Fixpoint lstrip (s : str) : str :=
  match s with
  | c :: s' => if is_space c then lstrip s' else s
  | [] => []
  end.

Definition rstrip (s : str) : str := rev (lstrip (rev s)).

Definition strip (s : str) : str := rstrip (lstrip s).

(** ** The [re] module *)

(** Patterns. Every repetition of the script's patterns is over a single
    character class, so [Many] and [Few] take the class. *)
Inductive regex : Type :=
| Eps
| Chr (p : ascii -> bool)        (* one character: literal, class or dot *)
| Seq (r1 r2 : regex)
| Many (p : ascii -> bool)       (* p*   greedy *)
| Few (p : ascii -> bool)        (* p*?  lazy *)
| Group (n : nat) (r : regex)    (* capturing group number n *)
| Bol                            (* ^ under re.MULTILINE *)
| Eol                            (* $ under re.MULTILINE *)
| WordB.                         (* \b *)

Definition Plus (p : ascii -> bool) : regex := Seq (Chr p) (Many p).

Definition is_ (c : ascii) : ascii -> bool := Ascii.eqb c.
Definition not_ (c : ascii) : ascii -> bool := fun x => negb (Ascii.eqb c x).
Definition one_of (cs : str) : ascii -> bool :=
  fun x => existsb (Ascii.eqb x) cs.
Definition none_of (cs : str) : ascii -> bool :=
  fun x => negb (existsb (Ascii.eqb x) cs).
(** [.] without re.DOTALL *)
Definition dot : ascii -> bool := not_ newline.
Definition any_char : ascii -> bool := fun _ => true.

(** A literal string, as compiled from [re.escape s]. *)
Fixpoint lit (s : str) : regex :=
  match s with
  | [] => Eps
  | c :: s' => Seq (Chr (is_ c)) (lit s')
  end.

Fixpoint seqs (rs : list regex) : regex :=
  match rs with
  | [] => Eps
  | [r] => r
  | r :: rs' => Seq r (seqs rs')
  end.

(** Captured groups, most recent binding first. *)
Definition caps := list (nat * str).

Fixpoint group (n : nat) (cs : caps) : str :=
  match cs with
  | [] => []
  | (m, s) :: cs' => if Nat.eqb n m then s else group n cs'
  end.

(** A matcher runs at a position given by the previous character (if any)
    and the remaining text, and on success returns the text left after the
    match with the captures. *)
Definition cont := option ascii -> str -> caps -> option (str * caps).

Definition at_bol (prev : option ascii) : bool :=
  match prev with None => true | Some c => Ascii.eqb c newline end.

Definition at_eol (s : str) : bool :=
  match s with [] => true | c :: _ => Ascii.eqb c newline end.

Definition word_before (prev : option ascii) : bool :=
  match prev with None => false | Some c => is_word c end.

Definition word_after (s : str) : bool :=
  match s with [] => false | c :: _ => is_word c end.

Fixpoint many (p : ascii -> bool) (k : cont)
    (prev : option ascii) (s : str) (cs : caps) {struct s} : option (str * caps) :=
  match s with
  | c :: s' =>
      if p c then
        match many p k (Some c) s' cs with
        | Some r => Some r
        | None => k prev s cs
        end
      else k prev s cs
  | [] => k prev s cs
  end.

Fixpoint few (p : ascii -> bool) (k : cont)
    (prev : option ascii) (s : str) (cs : caps) {struct s} : option (str * caps) :=
  match k prev s cs with
  | Some r => Some r
  | None =>
      match s with
      | c :: s' => if p c then few p k (Some c) s' cs else None
      | [] => None
      end
  end.

Fixpoint mtch (r : regex) (k : cont) {struct r} : cont :=
  fun prev s cs =>
  match r with
  | Eps => k prev s cs
  | Chr p =>
      match s with
      | c :: s' => if p c then k (Some c) s' cs else None
      | [] => None
      end
  | Seq r1 r2 => mtch r1 (mtch r2 k) prev s cs
  | Many p => many p k prev s cs
  | Few p => few p k prev s cs
  | Group n r1 =>
      mtch r1
        (fun prev' s' cs' =>
           k prev' s' ((n, firstn (length s - length s') s) :: cs'))
        prev s cs
  | Bol => if at_bol prev then k prev s cs else None
  | Eol => if at_eol s then k prev s cs else None
  | WordB => if xorb (word_before prev) (word_after s) then k prev s cs else None
  end.

Definition accept : cont := fun _ s cs => Some (s, cs).

(** The match of [r] starting exactly at the position, if there is one. *)
Definition match_at (r : regex) (prev : option ascii) (s : str)
  : option (str * caps) :=
  mtch r accept prev s [].

(** [re.search]: the captures of the leftmost match. *)
Fixpoint search_from (r : regex) (prev : option ascii) (s : str)
  : option caps :=
  match match_at r prev s with
  | Some (_, cs) => Some cs
  | None =>
      match s with
      | [] => None
      | c :: s' => search_from r (Some c) s'
      end
  end.

Definition re_search (r : regex) (s : str) : option caps :=
  search_from r None s.

(** A found match: the matched text and its captures. *)
Record found := Found { f_text : str; f_caps : caps }.

(** The successive non-overlapping matches, left to right. [skip] counts the
    characters of the last match that are still to be passed over. After an
    empty match the scan moves on by one character (no pattern of the script
    matches the empty string). *)
Fixpoint finditer_from (r : regex) (skip : nat)
    (prev : option ascii) (s : str) {struct s} : list found :=
  match s with
  | [] =>
      match skip, match_at r prev [] with
      | 0, Some (_, cs) => [Found [] cs]
      | _, _ => []
      end
  | c :: s' =>
      match skip with
      | S n => finditer_from r n (Some c) s'
      | 0 =>
          match match_at r prev s with
          | Some (rest, cs) =>
              let n := length s - length rest in
              Found (firstn n s) cs :: finditer_from r (pred n) (Some c) s'
          | None => finditer_from r 0 (Some c) s'
          end
      end
  end.

Fixpoint group_count (r : regex) : nat :=
  match r with
  | Seq r1 r2 => group_count r1 + group_count r2
  | Group _ r1 => S (group_count r1)
  | _ => 0
  end.

(** What [re.findall] returns per match: the whole match when the pattern has
    no group, the group when it has one, the tuple of groups otherwise. *)
Inductive fa_item : Type :=
| FStr (s : str)
| FTuple (gs : list str).

Definition fa_of (r : regex) (m : found) : fa_item :=
  match group_count r with
  | 0 => FStr (f_text m)
  | 1 => FStr (group 1 (f_caps m))
  | n => FTuple (map (fun i => group i (f_caps m)) (seq 1 n))
  end.

Definition re_findall (r : regex) (s : str) : list fa_item :=
  map (fa_of r) (finditer_from r 0 None s).

(** Replacement templates, as [re] parses them: literal text and group
    references. *)
Inductive titem : Type :=
| TLit (s : str)
| TRef (n : nat).

Definition template := list titem.

Definition expand (t : template) (cs : caps) : str :=
  concat (map (fun i => match i with TLit s => s | TRef n => group n cs end) t).

(** [re.sub] with count 0: every non-overlapping match is replaced. *)
Fixpoint sub_from (r : regex) (t : template) (skip : nat)
    (prev : option ascii) (s : str) {struct s} : str :=
  match s with
  | [] =>
      match skip, match_at r prev [] with
      | 0, Some (_, cs) => expand t cs
      | _, _ => []
      end
  | c :: s' =>
      match skip with
      | S n => sub_from r t n (Some c) s'
      | 0 =>
          match match_at r prev s with
          | Some (rest, cs) =>
              match length s - length rest with
              | 0 => expand t cs ++ c :: sub_from r t 0 (Some c) s'
              | S n => expand t cs ++ sub_from r t n (Some c) s'
              end
          | None => c :: sub_from r t 0 (Some c) s'
          end
      end
  end.

Definition re_sub (r : regex) (t : template) (s : str) : str :=
  sub_from r t 0 None s.

(** ** [hashlib.md5] (RFC 1321) *)

Definition bytes := list ascii.

Module MD5.
Local Open Scope Z_scope.

Definition w32 (x : Z) : Z := Z.land x 0xffffffff.

Definition rotl (x n : Z) : Z :=
  w32 (Z.lor (Z.shiftl x n) (Z.shiftr x (32 - n))).

Definition K : list Z :=
  [0xd76aa478; 0xe8c7b756; 0x242070db; 0xc1bdceee;
   0xf57c0faf; 0x4787c62a; 0xa8304613; 0xfd469501;
   0x698098d8; 0x8b44f7af; 0xffff5bb1; 0x895cd7be;
   0x6b901122; 0xfd987193; 0xa679438e; 0x49b40821;
   0xf61e2562; 0xc040b340; 0x265e5a51; 0xe9b6c7aa;
   0xd62f105d; 0x02441453; 0xd8a1e681; 0xe7d3fbc8;
   0x21e1cde6; 0xc33707d6; 0xf4d50d87; 0x455a14ed;
   0xa9e3e905; 0xfcefa3f8; 0x676f02d9; 0x8d2a4c8a;
   0xfffa3942; 0x8771f681; 0x6d9d6122; 0xfde5380c;
   0xa4beea44; 0x4bdecfa9; 0xf6bb4b60; 0xbebfbc70;
   0x289b7ec6; 0xeaa127fa; 0xd4ef3085; 0x04881d05;
   0xd9d4d039; 0xe6db99e5; 0x1fa27cf8; 0xc4ac5665;
   0xf4292244; 0x432aff97; 0xab9423a7; 0xfc93a039;
   0x655b59c3; 0x8f0ccc92; 0xffeff47d; 0x85845dd1;
   0x6fa87e4f; 0xfe2ce6e0; 0xa3014314; 0x4e0811a1;
   0xf7537e82; 0xbd3af235; 0x2ad7d2bb; 0xeb86d391].

Definition R : list Z :=
  [7; 12; 17; 22; 7; 12; 17; 22; 7; 12; 17; 22; 7; 12; 17; 22;
   5; 9; 14; 20; 5; 9; 14; 20; 5; 9; 14; 20; 5; 9; 14; 20;
   4; 11; 16; 23; 4; 11; 16; 23; 4; 11; 16; 23; 4; 11; 16; 23;
   6; 10; 15; 21; 6; 10; 15; 21; 6; 10; 15; 21; 6; 10; 15; 21].

Definition lnot32 (x : Z) : Z := Z.lxor x 0xffffffff.

Record state := St { sa : Z; sb : Z; sc : Z; sd : Z }.

Definition init : state := St 0x67452301 0xefcdab89 0x98badcfe 0x10325476.

(** One of the 64 operations on the block [m] of sixteen words. *)
Definition step (m : list Z) (st : state) (i : nat) : state :=
  let '(St a b c d) := st in
  let zi := Z.of_nat i in
  let '(f, g) :=
    if (i <? 16)%nat then
      (Z.lor (Z.land b c) (Z.land (lnot32 b) d), zi)
    else if (i <? 32)%nat then
      (Z.lor (Z.land d b) (Z.land (lnot32 d) c), (5 * zi + 1) mod 16)
    else if (i <? 48)%nat then
      (Z.lxor (Z.lxor b c) d, (3 * zi + 5) mod 16)
    else
      (Z.lxor c (Z.lor b (lnot32 d)), (7 * zi) mod 16) in
  let f' := w32 (f + a + nth i K 0 + nth (Z.to_nat g) m 0) in
  St d (w32 (b + rotl f' (nth i R 0))) b c.

Definition word_le (b0 b1 b2 b3 : Z) : Z :=
  b0 + 256 * b1 + 65536 * b2 + 16777216 * b3.

Fixpoint words (bs : list Z) : list Z :=
  match bs with
  | b0 :: b1 :: b2 :: b3 :: rest => word_le b0 b1 b2 b3 :: words rest
  | _ => []
  end.

Definition block (st : state) (bs : list Z) : state :=
  let m := words bs in
  let '(St a b c d) := fold_left (step m) (seq 0 64) st in
  St (w32 (sa st + a)) (w32 (sb st + b)) (w32 (sc st + c)) (w32 (sd st + d)).

Fixpoint blocks (n : nat) (st : state) (bs : list Z) : state :=
  match n with
  | O => st
  | S n' => blocks n' (block st (firstn 64 bs)) (skipn 64 bs)
  end.

Fixpoint le_bytes (n : nat) (x : Z) : list Z :=
  match n with
  | O => []
  | S n' => x mod 256 :: le_bytes n' (x / 256)
  end.

Definition pad (msg : list Z) : list Z :=
  let len := Z.of_nat (List.length msg) in
  msg ++ [0x80] ++ repeat 0 (Z.to_nat ((55 - len) mod 64))
      ++ le_bytes 8 ((8 * len) mod 2 ^ 64).

Definition digest (msg : bytes) : list Z :=
  let p := pad (map (fun c => Z.of_nat (nat_of_ascii c)) msg) in
  let '(St a b c d) := blocks (List.length p / 64) init p in
  le_bytes 4 a ++ le_bytes 4 b ++ le_bytes 4 c ++ le_bytes 4 d.

Definition hex_digit (x : Z) : ascii :=
  nth (Z.to_nat x) (txt "0123456789abcdef") "0"%char.

Definition hexdigest (msg : bytes) : str :=
  flat_map (fun b => [hex_digit (b / 16); hex_digit (b mod 16)]) (digest msg).

End MD5.

(** ** Replacement strings of [re.sub]

    [parse_template] follows [re]'s template parser on the forms the script
    can build: a character stands for itself; a backslash with one digit
    1..9 (not followed by a digit) is a group reference, refused when the
    pattern has fewer groups; the escapes a, b, f, n, r, t, v and the doubled
    backslash stand for their character; a backslash before any other ASCII
    letter, or at the end, is [re.error]; a backslash before another
    character is kept with it. Octal, multi-digit and named references are not
    modelled and are refused as well. *)

Definition backslash : ascii := ascii_of_nat 92.

Definition escape_char (c : ascii) : option ascii :=
  if Ascii.eqb c "a" then Some (ascii_of_nat 7)
  else if Ascii.eqb c "b" then Some (ascii_of_nat 8)
  else if Ascii.eqb c "f" then Some (ascii_of_nat 12)
  else if Ascii.eqb c "n" then Some (ascii_of_nat 10)
  else if Ascii.eqb c "r" then Some (ascii_of_nat 13)
  else if Ascii.eqb c "t" then Some (ascii_of_nat 9)
  else if Ascii.eqb c "v" then Some (ascii_of_nat 11)
  else if Ascii.eqb c backslash then Some backslash
  else None.

Definition next_is_digit (s : str) : bool :=
  match s with d :: _ => is_digit d | [] => false end.

Fixpoint parse_template (ngroups : nat) (s : str) : option template :=
  match s with
  | [] => Some []
  | c :: s' =>
      if Ascii.eqb c backslash then
        match s' with
        | [] => None
        | e :: s'' =>
            if is_digit e then
              let n := code e - 48 in
              if (n =? 0) || next_is_digit s'' || (ngroups <? n) then None
              else option_map (cons (TRef n)) (parse_template ngroups s'')
            else
              match escape_char e with
              | Some x => option_map (cons (TLit [x])) (parse_template ngroups s'')
              | None =>
                  if is_alpha e then None
                  else option_map (cons (TLit [c; e])) (parse_template ngroups s'')
              end
        end
      else option_map (cons (TLit [c])) (parse_template ngroups s')
  end.

(** [re.sub(pattern, repl, string)] with a replacement string: the template
    is parsed before the text is scanned, so a bad template raises even when
    nothing matches. [None] is [re.error]. *)
Definition re_sub_repl (r : regex) (repl : str) (s : str) : option str :=
  option_map (fun t => re_sub r t s) (parse_template (group_count r) repl).

(** ** [urllib.parse.unquote]

    A percent sign followed by two hexadecimal digits is replaced by the
    character of that code; any other percent sign is kept. An escape above
    %7F decodes outside the ASCII repertoire; the model keeps its byte. *)

Definition hex_value (c : ascii) : option nat :=
  if is_digit c then Some (code c - 48)
  else if between 65 70 c then Some (code c - 55)
  else if between 97 102 c then Some (code c - 87)
  else None.

Fixpoint unquote (s : str) : str :=
  match s with
  | [] => []
  | c :: s' =>
      match Ascii.eqb c "%", s' with
      | true, h :: l :: rest =>
          match hex_value h, hex_value l with
          | Some a, Some b => ascii_of_nat (16 * a + b) :: unquote rest
          | _, _ => c :: unquote s'
          end
      | _, _ => c :: unquote s'
      end
  end.

(** ** [pathlib] (POSIX flavour) *)

Record path := Path { p_abs : bool; p_parts : list str }.

(** The components of a path string: empty and "." components are dropped. *)
Fixpoint split_slash (cur : str) (s : str) : list str :=
  match s with
  | [] => [rev cur]
  | c :: s' =>
      if Ascii.eqb c "/" then rev cur :: split_slash [] s'
      else split_slash (c :: cur) s'
  end.

Definition keep_part (x : str) : bool :=
  negb (str_eqb x [] || str_eqb x (txt ".")).

Definition path_of (s : str) : path :=
  Path (starts_with (txt "/") s) (filter keep_part (split_slash [] s)).

(** [p / q] *)
Definition join (p q : path) : path :=
  if p_abs q then q else Path (p_abs p) (p_parts p ++ p_parts q).

Definition name (p : path) : str := last (p_parts p) [].

Definition parent (p : path) : path :=
  Path (p_abs p) (removelast (p_parts p)).

(** The index of the last dot of a name, counted from the left. *)
Fixpoint rfind_dot (i : nat) (s : str) : option nat :=
  match s with
  | [] => None
  | c :: s' =>
      match rfind_dot (S i) s' with
      | Some j => Some j
      | None => if Ascii.eqb c "." then Some i else None
      end
  end.

(** [suffix]: from the last dot of the name, unless the dot starts or ends
    the name. *)
Definition suffix (p : path) : str :=
  let n := name p in
  match rfind_dot 0 n with
  | Some i => if (0 <? i) && (i <? List.length n - 1) then skipn i n else []
  | None => []
  end.

Definition stem (p : path) : str :=
  let n := name p in
  match rfind_dot 0 n with
  | Some i => if (0 <? i) && (i <? List.length n - 1) then firstn i n else n
  | None => n
  end.

Definition path_eqb (p q : path) : bool :=
  Bool.eqb (p_abs p) (p_abs q)
  && (if list_eq_dec (list_eq_dec ascii_dec) (p_parts p) (p_parts q)
      then true else false).

(** ** Dates and [strftime] *)

Record date := Date { year : nat; month : nat; day : nat }.

Definition digit_char (n : nat) : ascii := ascii_of_nat (48 + n).

Fixpoint dec_digits (fuel n : nat) (acc : str) : str :=
  match fuel with
  | O => acc
  | S f =>
      let acc' := digit_char (n mod 10) :: acc in
      if n <? 10 then acc' else dec_digits f (n / 10) acc'
  end.

Definition str_of_nat (n : nat) : str := dec_digits (S n) n [].

Definition zfill (w : nat) (s : str) : str :=
  repeat "0"%char (w - List.length s) ++ s.

(** [date.strftime('%Y-%m-%d')] *)
Definition strftime_ymd (d : date) : str :=
  zfill 4 (str_of_nat (year d)) ++ txt "-" ++ zfill 2 (str_of_nat (month d))
    ++ txt "-" ++ zfill 2 (str_of_nat (day d)).

(** [date.strftime('%Y/%m')] *)
Definition strftime_ym (d : date) : str :=
  zfill 4 (str_of_nat (year d)) ++ txt "/" ++ zfill 2 (str_of_nat (month d)).

(** ** The world: file system, working directory, console *)

Inductive kind : Type :=
| Dir
| Reg (data : bytes).

Record node := Node { n_kind : kind; n_mtime : date; n_readable : bool }.

Inductive exn : Type :=
| FileNotFoundError (p : path)
| FileExistsError (p : path)
| IsADirectoryError (p : path)
| PermissionError (p : path)
| SameFileError (p : path)
| UnicodeDecodeError
| ReError.

(** What the script prints, line by line. *)
Inductive event : Type :=
| PrintProcessing (file : path)
| PrintCreated (out : path) (title : str) (d : date) (tags : list str)
    (images : option nat)
| PrintError (file : path) (e : exn)
| PrintNoFiles
| PrintFound (n : nat)
| PrintSummary (ok total : nat).

Definition render_summary (ok total : nat) : str :=
  txt "Processed " ++ str_of_nat ok ++ txt "/" ++ str_of_nat total
    ++ txt " files successfully.".

(** The file system maps absolute, dot-dot-free component lists to nodes, in
    enumeration order. *)
Definition fsmap := list (list str * node).

Record world := World {
  w_fs : fsmap;
  w_cwd : list str;          (* Path.cwd(), absolute *)
  w_clock : date;            (* the local date given to a file written now *)
  w_console : list event     (* printed so far, oldest first *)
}.

Definition parts_eqb (a b : list str) : bool :=
  if list_eq_dec (list_eq_dec ascii_dec) a b then true else false.

Fixpoint fs_lookup (fs : fsmap) (k : list str) : option node :=
  match fs with
  | [] => None
  | (k', n) :: fs' => if parts_eqb k' k then Some n else fs_lookup fs' k
  end.

Fixpoint fs_store (fs : fsmap) (k : list str) (n : node) : fsmap :=
  match fs with
  | [] => [(k, n)]
  | (k', n') :: fs' =>
      if parts_eqb k' k then (k, n) :: fs' else (k', n') :: fs_store fs' k n
  end.

(** Lexical resolution of ".." against the components seen so far. *)
Fixpoint normalize (acc : list str) (ps : list str) : list str :=
  match ps with
  | [] => rev acc
  | x :: ps' =>
      if str_eqb x (txt "..") then normalize (tl acc) ps'
      else normalize (x :: acc) ps'
  end.

Definition resolve (w : world) (p : path) : list str :=
  normalize [] (if p_abs p then p_parts p else w_cwd w ++ p_parts p).

Definition lookup (w : world) (p : path) : option node :=
  match resolve w p with
  | [] => Some (Node Dir (w_clock w) true)      (* the root directory *)
  | k => fs_lookup (w_fs w) k
  end.

Definition exists_ (w : world) (p : path) : bool :=
  match lookup w p with Some _ => true | None => false end.

Definition is_file (w : world) (p : path) : bool :=
  match lookup w p with
  | Some (Node (Reg _) _ _) => true
  | _ => false
  end.

Definition is_dir (w : world) (p : path) : bool :=
  match lookup w p with
  | Some (Node Dir _ _) => true
  | _ => false
  end.

(** Computations that read and change the world and may raise. *)
Inductive result (A : Type) : Type :=
| Ok (a : A)
| Raise (e : exn).
Arguments Ok {A} a.
Arguments Raise {A} e.

Definition M (A : Type) : Type := world -> result A * world.

Definition ret {A} (a : A) : M A := fun w => (Ok a, w).
Definition raise {A} (e : exn) : M A := fun w => (Raise e, w).
Definition bind {A B} (m : M A) (f : A -> M B) : M B :=
  fun w =>
    match m w with
    | (Ok a, w') => f a w'
    | (Raise e, w') => (Raise e, w')
    end.
Definition try_except {A} (m : M A) (h : exn -> M A) : M A :=
  fun w =>
    match m w with
    | (Ok a, w') => (Ok a, w')
    | (Raise e, w') => h e w'
    end.
Definition get_world : M world := fun w => (Ok w, w).
(** [print(...)]: the line is appended to the console. Writing to the
    console is taken to succeed: a standard output that is closed, or that
    cannot encode a line, is outside this model. *)
Definition print (e : event) : M unit :=
  fun w => (Ok tt, World (w_fs w) (w_cwd w) (w_clock w) (w_console w ++ [e])).

Notation "x <- m ;; k" := (bind m (fun x => k))
  (at level 61, m at next level, right associativity).
Notation "m ;;; k" := (bind m (fun _ => k))
  (at level 61, right associativity).

Definition set_fs (fs : fsmap) : M unit :=
  fun w => (Ok tt, World fs (w_cwd w) (w_clock w) (w_console w)).

(** [open(p, 'rb').read()] *)
Definition read_bytes (p : path) : M bytes :=
  w <- get_world ;;
  match lookup w p with
  | None => raise (FileNotFoundError p)
  | Some (Node Dir _ _) => raise (IsADirectoryError p)
  | Some (Node (Reg data) _ r) =>
      if r then ret data else raise (PermissionError p)
  end.

(** Decoding as UTF-8, on the ASCII repertoire. Texts are ASCII texts in
    this development, so a byte above 127 is reported as undecodable: that is
    what Python does for an ill-formed sequence, whereas a well-formed
    sequence of several bytes gives a character that these texts cannot
    hold. Documents with such characters are outside the model. *)
Definition decode_utf8 (b : bytes) : option str :=
  if forallb (fun c => code c <? 128) b then Some b else None.

Definition carriage_return : ascii := ascii_of_nat 13.

(** Universal newlines: a file opened for reading in text mode gives "\n"
    for each "\r\n" and for each "\r" that stands alone. *)
Fixpoint universal_newlines (s : str) : str :=
  match s with
  | [] => []
  | c :: s' =>
      if Ascii.eqb c carriage_return then
        match s' with
        | d :: s'' =>
            if Ascii.eqb d newline
            then newline :: universal_newlines s''
            else newline :: universal_newlines s'
        | [] => [newline]
        end
      else c :: universal_newlines s'
  end.

(** [open(p, 'r', encoding='utf-8').read()] *)
Definition read_text (p : path) : M str :=
  b <- read_bytes p ;;
  match decode_utf8 b with
  | Some s => ret (universal_newlines s)
  | None => raise UnicodeDecodeError
  end.

(** [p.stat().st_mtime] as a local date. *)
Definition stat_mtime (p : path) : M date :=
  w <- get_world ;;
  match lookup w p with
  | None => raise (FileNotFoundError p)
  | Some n => ret (n_mtime n)
  end.

(** Creating or replacing the regular file [p] with [data]. Opening the
    file for writing creates or empties it and the data is written next; no
    write fails in this model once the file is open, so the two are one
    step here. A disk that fills up, which would leave an empty or partial
    file behind, is outside the model. *)
Definition write_node (p : path) (data : bytes) (mtime : date) : M unit :=
  w <- get_world ;;
  match lookup w p with
  | Some (Node Dir _ _) => raise (IsADirectoryError p)
  | _ =>
      if is_dir w (parent p)
      then set_fs (fs_store (w_fs w) (resolve w p) (Node (Reg data) mtime true))
      else raise (FileNotFoundError p)
  end.

(** [open(p, 'w', encoding='utf-8').write(s)] *)
Definition write_text (p : path) (s : str) : M unit :=
  w <- get_world ;;
  write_node p s (w_clock w).

(** [shutil.copy2(src, dst)]: the same file is refused, a directory [dst]
    receives the file under the source's name, the modification time is
    copied with the content. *)
Definition copy2 (src dst : path) : M unit :=
  w <- get_world ;;
  let dst' := if is_dir w dst then join dst (Path false [name src]) else dst in
  if exists_ w src && parts_eqb (resolve w src) (resolve w dst')
  then raise (SameFileError src)
  else
    data <- read_bytes src ;;
    mtime <- stat_mtime src ;;
    write_node dst' data mtime.

(** [p.mkdir(exist_ok=True)] *)
Definition mkdir_exist_ok (p : path) : M unit :=
  w <- get_world ;;
  match lookup w p with
  | Some (Node Dir _ _) => ret tt
  | Some _ => raise (FileExistsError p)
  | None =>
      if is_dir w (parent p)
      then set_fs (fs_store (w_fs w) (resolve w p) (Node Dir (w_clock w) true))
      else raise (FileNotFoundError p)
  end.

(** ** The script *)

Definition nl : str := [newline].
Definition dquote : ascii := ascii_of_nat 34.
Definition squote : ascii := ascii_of_nat 39.

(** [collections.Counter]: counts in order of first occurrence. *)
Fixpoint count_add (w : str) (c : list (str * nat)) : list (str * nat) :=
  match c with
  | [] => [(w, 1)]
  | (k, n) :: c' =>
      if str_eqb k w then (k, S n) :: c' else (k, n) :: count_add w c'
  end.

Definition counter (ws : list str) : list (str * nat) :=
  fold_left (fun c w => count_add w c) ws [].

(** [Counter.most_common(n)]: the n largest counts, ties in order of first
    occurrence (a stable descending sort). *)
Fixpoint insert_desc (x : str * nat) (l : list (str * nat)) : list (str * nat) :=
  match l with
  | [] => [x]
  | y :: l' => if snd x <? snd y then y :: insert_desc x l' else x :: l
  end.

Definition sort_desc (l : list (str * nat)) : list (str * nat) :=
  fold_right insert_desc [] l.

Definition most_common (n : nat) (c : list (str * nat)) : list (str * nat) :=
  firstn n (sort_desc c).

(** A [dict] with string keys, in insertion order; [d[k] = v]. *)
Fixpoint dict_set (d : list (str * str)) (k v : str) : list (str * str) :=
  match d with
  | [] => [(k, v)]
  | (k', v') :: d' =>
      if str_eqb k' k then (k', v) :: d' else (k', v') :: dict_set d' k v
  end.

Record migrator := Migrator {
  input_path : path;
  project_root : path;
  output_dir : path;
  images_dir : path;
  supported_image_extensions : list str
}.

(** [__init__]; [script_file] is [__file__]. The last statement,
    [jieba.initialize()], loads the keyword dictionary: it may raise and may
    write its cache file, so its effect is the parameter
    [jieba_initialize]. *)
Definition init_with (jieba_initialize : M unit)
    (script_file : path) (input : str) : M migrator :=
  let root := parent (parent script_file) in
  let self :=
    Migrator (path_of input) root
      (join root (path_of (txt "_posts"))) (join root (path_of (txt "images")))
      (map txt [".jpg"; ".jpeg"; ".png"; ".gif"; ".bmp"; ".svg"; ".webp"]%string) in
  mkdir_exist_ok (output_dir self) ;;;
  mkdir_exist_ok (images_dir self) ;;;
  jieba_initialize ;;;
  ret self.

(** The constructor when [jieba.initialize()] finds its dictionary loaded:
    the call returns and leaves the world as it is. *)
Definition init (script_file : path) (input : str) : M migrator :=
  init_with (ret tt) script_file input.

(** The pattern "^#\s+(.+)$" with re.MULTILINE. *)
Definition title_re : regex :=
  seqs [Bol; Chr (is_ "#"); Plus is_space; Group 1 (Plus dot); Eol].

(** The pattern "[_-]". *)
Definition underscore_hyphen_re : regex := Chr (one_of (txt "_-")).

Definition extract_title_from_content (self : migrator) (content : str) : M str :=
  match re_search title_re content with
  | Some m => ret (strip (group 1 m))
  | None =>
      w <- get_world ;;
      if is_file w (input_path self) then
        let filename := stem (input_path self) in
        let title_ := re_sub underscore_hyphen_re [TLit (txt " ")] filename in
        ret (title title_)
      else ret (txt "Untitled Post")
  end.

(** The pattern "[#*`\[\]()]". *)
Definition markup_re : regex := Chr (one_of (txt "#*`[]()")).

(** The pattern "\[([^\]]+)\]\([^)]+\)". *)
Definition link_re : regex :=
  seqs [Chr (is_ "["); Group 1 (Plus (not_ "]")); Chr (is_ "]");
        Chr (is_ "("); Plus (not_ ")"); Chr (is_ ")")].

(** The pattern "!\[([^\]]* )\]\([^)]+\)" (the blank after the star is not part
    of it). *)
Definition image_strip_re : regex :=
  seqs [Chr (is_ "!"); Chr (is_ "["); Group 1 (Many (not_ "]")); Chr (is_ "]");
        Chr (is_ "("); Plus (not_ ")"); Chr (is_ ")")].

(** The pattern "```[\s\S]*?```". *)
Definition fence_re : regex :=
  seqs [lit (txt "```"); Few any_char; lit (txt "```")].

(** The pattern "`[^`]*`". *)
Definition code_span_re : regex :=
  seqs [Chr (is_ "`"); Many (not_ "`"); Chr (is_ "`")].

(** The pattern "\b[a-zA-Z]{3,}\b". *)
Definition word_re : regex :=
  seqs [WordB; Chr is_alpha; Chr is_alpha; Chr is_alpha; Many is_alpha; WordB].

Definition item_str (i : fa_item) : str :=
  match i with FStr s => s | FTuple _ => [] end.

(** The text the keyword extractor is run on. *)
Definition strip_markup (content : str) : str :=
  let content := re_sub markup_re [TLit (txt " ")] content in
  let content := re_sub link_re [TRef 1] content in
  let content := re_sub image_strip_re [] content in
  let content := re_sub fence_re [] content in
  re_sub code_span_re [] content.

(** The [except] branch of [extract_tags_from_content]. *)
Definition fallback_tags (content : str) (max_tags : nat) : list str :=
  let words := map item_str (re_findall word_re (lower content)) in
  let word_counts := counter words in
  map fst (most_common max_tags word_counts).

Section Script.

(** [jieba.analyse.extract_tags(content, topK=max_tags, withWeight=False)]:
    the keywords, or [None] when the call raises. *)
Variable jieba_extract_tags : str -> nat -> option (list str).

Definition extract_tags_from_content (content : str) (max_tags : nat)
  : list str :=
  let content := strip_markup content in
  match jieba_extract_tags content max_tags with
  | Some keywords =>
      let keywords := filter (fun kw => 1 <? List.length kw) keywords in
      firstn max_tags keywords
  | None => fallback_tags content max_tags
  end.

(** The pattern "!\[([^\]]* )\]\(([^)]+)\)" (the blank after the star is not
    part of it). *)
Definition md_image_re : regex :=
  seqs [Chr (is_ "!"); Chr (is_ "["); Group 1 (Many (not_ "]")); Chr (is_ "]");
        Chr (is_ "("); Group 2 (Plus (not_ ")")); Chr (is_ ")")].

Definition quotes : ascii -> bool := one_of [dquote; squote].
Definition not_quotes : ascii -> bool := none_of [dquote; squote].

(** The pattern <img[^>]+src=Q([^Q]+)Q[^>]*> where Q stands for the class of
    the double and the single quote. *)
Definition html_image_re : regex :=
  seqs [lit (txt "<img"); Plus (not_ ">"); lit (txt "src="); Chr quotes;
        Group 1 (Plus not_quotes); Chr quotes; Many (not_ ">"); Chr (is_ ">")].

Definition image_patterns : list regex := [md_image_re; html_image_re].

Definition mem (x : str) (l : list str) : bool := existsb (str_eqb x) l.

Definition find_image_file (self : migrator) (w : world)
    (image_path : str) (source_dir : path) : option path :=
  let possible_paths :=
    [ path_of image_path;
      join source_dir (path_of image_path);
      join (join source_dir (path_of (txt "images")))
           (path_of (name (path_of image_path)));
      join (Path true (w_cwd w)) (path_of image_path) ] in
  find (fun p => exists_ w p
                 && mem (lower (suffix p)) (supported_image_extensions self))
       possible_paths.

Definition generate_image_filename (source_file : path) : M str :=
  data <- read_bytes source_file ;;
  let file_hash := firstn 8 (MD5.hexdigest data) in
  let extension := lower (suffix source_file) in
  ret (file_hash ++ extension).

(** The body of the inner loop of [find_and_copy_images] for one match. *)
Definition copy_match (self : migrator) (source_dir : path)
    (copied_images : list (str * str)) (m : fa_item) : M (list (str * str)) :=
  let image_path :=
    match m with
    | FTuple gs => nth 1 gs []
    | FStr s => s
    end in
  let image_path := unquote image_path in
  if starts_with (txt "http://") image_path
     || starts_with (txt "https://") image_path
  then ret copied_images
  else
    w <- get_world ;;
    match find_image_file self w image_path source_dir with
    | Some source_file =>
        new_filename <- generate_image_filename source_file ;;
        let dest_path := join (images_dir self) (path_of new_filename) in
        copy2 source_file dest_path ;;;
        ret (dict_set copied_images image_path (txt "/images/" ++ new_filename))
    | None => ret copied_images
    end.

Fixpoint foldM {A B} (f : B -> A -> M B) (l : list A) (b : B) : M B :=
  match l with
  | [] => ret b
  | a :: l' => b' <- f b a ;; foldM f l' b'
  end.

Definition find_and_copy_images (self : migrator)
    (content : str) (source_dir : path) : M (list (str * str)) :=
  foldM (fun copied_images pattern =>
           foldM (copy_match self source_dir)
                 (re_findall pattern content) copied_images)
        image_patterns [].

(** The pattern built for the markdown form of [old_path]. *)
Definition md_ref_re (old_path : str) : regex :=
  seqs [Chr (is_ "!"); Chr (is_ "["); Group 1 (Many (not_ "]")); Chr (is_ "]");
        Chr (is_ "("); lit old_path; Chr (is_ ")")].

(** The pattern built for the img tag of [old_path]. *)
Definition html_ref_re (old_path : str) : regex :=
  seqs [lit (txt "<img"); Group 1 (Plus (not_ ">")); lit (txt "src=");
        Chr quotes; lit old_path; Chr quotes; Group 2 (Many (not_ ">"));
        Chr (is_ ">")].

(** The replacement strings, as the f-strings build them. *)
Definition md_repl (new_path : str) : str :=
  txt "![\1](" ++ new_path ++ txt ")".

Definition html_repl (new_path : str) : str :=
  txt "<img\1src=" ++ [dquote] ++ new_path ++ [dquote] ++ txt "\2>".

Fixpoint update_image_paths (content : str) (image_mapping : list (str * str))
  : option str :=
  match image_mapping with
  | [] => Some content
  | (old_path, new_path) :: rest =>
      match re_sub_repl (md_ref_re old_path) (md_repl new_path) content with
      | None => None
      | Some content =>
          match re_sub_repl (html_ref_re old_path) (html_repl new_path) content with
          | None => None
          | Some content => update_image_paths content rest
          end
      end
  end.

(** The pattern "[^\w\s-]". *)
Definition not_slug_char : ascii -> bool :=
  fun c => negb (is_word c || is_space c || Ascii.eqb c "-").

(** The class of "[-\s]+". *)
Definition hyphen_or_space : ascii -> bool :=
  fun c => Ascii.eqb c "-" || is_space c.

(** The slug of a title, computed alike for the permalink and for the output
    file name. *)
Definition title_slug (title_ : str) : str :=
  let slug := re_sub (Chr not_slug_char) [] (lower title_) in
  re_sub (Plus hyphen_or_space) [TLit (txt "-")] slug.

Definition generate_jekyll_front_matter
    (title_ : str) (d : date) (tags : list str) : str :=
  let permalink :=
    txt "/posts/" ++ strftime_ym d ++ txt "/" ++ title_slug title_ ++ txt "/" in
  let front_matter :=
    txt "---" ++ nl
      ++ txt "title: '" ++ title_ ++ txt "'" ++ nl
      ++ txt "date: " ++ strftime_ymd d ++ nl
      ++ txt "permalink: " ++ permalink ++ nl
      ++ txt "tags:" ++ nl in
  let front_matter :=
    fold_left (fun fm tag => fm ++ txt "  - " ++ tag ++ nl) tags front_matter in
  front_matter ++ txt "---" ++ nl ++ nl.

(** A raise of [re.sub] inside a method. *)
Definition lift_re {A} (o : option A) : M A :=
  match o with
  | Some a => ret a
  | None => raise ReError
  end.

(** The [try] block of [process_markdown_file]. *)
Definition process_body (self : migrator) (markdown_file : path) : M bool :=
  content <- read_text markdown_file ;;
  title_ <- extract_title_from_content self content ;;
  let tags := extract_tags_from_content content 5 in
  d <- stat_mtime markdown_file ;;
  let source_dir := parent markdown_file in
  image_mapping <- find_and_copy_images self content source_dir ;;
  content <- lift_re (update_image_paths content image_mapping) ;;
  let front_matter := generate_jekyll_front_matter title_ d tags in
  let output_filename :=
    strftime_ymd d ++ txt "-" ++ title_slug title_ ++ txt ".md" in
  let output_path := join (output_dir self) (path_of output_filename) in
  write_text output_path (front_matter ++ content) ;;;
  print (PrintCreated output_path title_ d tags
           (match image_mapping with
            | [] => None
            | _ => Some (List.length image_mapping)
            end)) ;;;
  ret true.

Definition process_markdown_file (self : migrator) (markdown_file : path)
  : M bool :=
  print (PrintProcessing markdown_file) ;;;
  try_except (process_body self markdown_file)
    (fun e => print (PrintError markdown_file e) ;;; ret false).

Fixpoint ends_with (suf s : str) : bool :=
  str_eqb suf s
  || match s with
     | [] => false
     | _ :: s' => ends_with suf s'
     end.

Fixpoint is_prefix (a b : list str) : bool :=
  match a, b with
  | [], _ => true
  | x :: a', y :: b' => str_eqb x y && is_prefix a' b'
  | _ :: _, [] => false
  end.

(** [list(dir.rglob('*' + ext))]: every entry below [dir] whose name ends
    with [ext], in the enumeration order of the file system. *)
Definition rglob (w : world) (dir : path) (ext : str) : list path :=
  let base := resolve w dir in
  flat_map
    (fun e : list str * node =>
       let k := fst e in
       if is_prefix base k && (List.length base <? List.length k)
          && ends_with ext (last k [])
       then [Path (p_abs dir) (p_parts dir ++ skipn (List.length base) k)]
       else [])
    (w_fs w).

(** The loop of [process_directory] with its counter. *)
Fixpoint process_files (self : migrator) (files : list path)
    (success_count : nat) : M nat :=
  match files with
  | [] => ret success_count
  | markdown_file :: rest =>
      ok <- process_markdown_file self markdown_file ;;
      process_files self rest (if ok then S success_count else success_count)
  end.

Definition discover (self : migrator) (w : world) : list path :=
  if is_file w (input_path self) then
    if mem (lower (suffix (input_path self))) [txt ".md"; txt ".markdown"]
    then [input_path self] else []
  else if is_dir w (input_path self) then
    rglob w (input_path self) (txt ".md")
      ++ rglob w (input_path self) (txt ".markdown")
  else [].

Definition process_directory (self : migrator) : M unit :=
  w <- get_world ;;
  let markdown_files := discover self w in
  match markdown_files with
  | [] => print PrintNoFiles
  | _ =>
      print (PrintFound (List.length markdown_files)) ;;;
      success_count <- process_files self markdown_files 0 ;;
      print (PrintSummary success_count (List.length markdown_files))
  end.

Definition main_with (jieba_initialize : M unit)
    (script_file : path) (input : str) : M unit :=
  migrator_ <- init_with jieba_initialize script_file input ;;
  process_directory migrator_.

(** The run when [jieba.initialize()] finds its dictionary loaded. *)
Definition main (script_file : path) (input : str) : M unit :=
  main_with (ret tt) script_file input.

End Script.

(** ** The slug over any alphabet

    In Python 3 the classes "\w" and "\s" and [str.lower] follow the Unicode
    tables; the definitions above give them for ASCII text. The slug is given
    here once more with the alphabet, the two classes, the hyphen and the
    lower-casing as parameters. Both substitutions of the slug use a
    one-character class: deleting its matches keeps the other characters in
    order, and replacing the matches of the class under "+" by one character
    turns every maximal run of the class into that character. [title_slug]
    is the case of the ASCII tables ([title_slug_is_slug_of]). *)
Section Alphabet.

Variable char : Type.
Variable char_eq_dec : forall a b : char, {a = b} + {a <> b}.
(** The classes "\w" and "\s", the hyphen, and [str.lower]. *)
Variables word_class space_class : char -> bool.
Variable hyphen : char.
Variable lower_case : list char -> list char.

Definition is_hyphen (c : char) : bool :=
  if char_eq_dec c hyphen then true else false.

(** [re.sub('[class]', '', s)] *)
Definition delete_class (p : char -> bool) (s : list char) : list char :=
  filter (fun c => negb (p c)) s.

(** [re.sub('[class]+', r, s)] for a replacement [r] of one character;
    [in_run] tells whether the character before belongs to the class. *)
Fixpoint replace_runs (p : char -> bool) (r : char) (in_run : bool)
    (s : list char) : list char :=
  match s with
  | [] => []
  | c :: s' =>
      if p c then
        if in_run then replace_runs p r true s'
        else r :: replace_runs p r true s'
      else c :: replace_runs p r false s'
  end.

(** The class "[^\w\s-]" and the class of "[-\s]+". *)
Definition outside_slug (c : char) : bool :=
  negb (word_class c || space_class c || is_hyphen c).

Definition hyphen_or_blank (c : char) : bool :=
  is_hyphen c || space_class c.

Definition slug_of (title_ : list char) : list char :=
  let slug := delete_class outside_slug (lower_case title_) in
  replace_runs hyphen_or_blank hyphen false slug.

(** A character that lower-casing leaves alone. *)
Definition lower_fixed (c : char) : Prop := lower_case [c] = [c].

End Alphabet.

(** ** Notions used to state the properties *)

(** The character before the position reached after reading [m]. *)
Fixpoint prev_after (prev : option ascii) (m : str) : option ascii :=
  match m with
  | [] => prev
  | c :: m' => prev_after (Some c) m'
  end.

Fixpoint take_while (p : ascii -> bool) (s : str) : str :=
  match s with
  | c :: s' => if p c then c :: take_while p s' else []
  | [] => []
  end.

Fixpoint drop_while (p : ascii -> bool) (s : str) : str :=
  match s with
  | c :: s' => if p c then drop_while p s' else s
  | [] => []
  end.

(** Replacing every run of a class by a hyphen. *)
Fixpoint squeeze (p : ascii -> bool) (in_run : bool) (s : str) : str :=
  match s with
  | [] => []
  | c :: s' =>
      if p c then
        if in_run then squeeze p true s' else "-"%char :: squeeze p true s'
      else c :: squeeze p false s'
  end.

Definition slug_char (c : ascii) : bool :=
  is_word c || is_space c || Ascii.eqb c "-".

Definition head_in (p : ascii -> bool) (s : str) : bool :=
  match s with [] => false | c :: _ => p c end.

(** Texts that [squeeze] leaves alone: a character of the class is a hyphen
    and is not followed by another one. *)
Fixpoint squeezed (p : ascii -> bool) (s : str) : bool :=
  match s with
  | [] => true
  | c :: s' =>
      (if p c then Ascii.eqb c "-" && negb (head_in p s') else true)
      && squeezed p s'
  end.

Definition is_hex_lower (c : ascii) : bool := is_digit c || between 97 102 c.

Definition sample_date : date := Date 2021 1 1.

(** A world with the same bytes stored under two extensions. *)
Definition twin_world : world :=
  World [ ([txt "notes"], Node Dir sample_date true);
          ([txt "notes"; txt "a.png"], Node (Reg (txt "same bytes")) sample_date true);
          ([txt "notes"; txt "A.PNG"], Node (Reg (txt "same bytes")) sample_date true);
          ([txt "notes"; txt "b.jpg"], Node (Reg (txt "same bytes")) sample_date true) ]
        [txt "notes"] sample_date [].

(** [prints P m]: running [m] only appends to the console, and every line it
    appends satisfies [P]. *)
Definition prints {A} (P : event -> Prop) (m : M A) : Prop :=
  forall w, exists evs,
    w_console (snd (m w)) = w_console w ++ evs /\ Forall P evs.

Definition quiet {A} (m : M A) : Prop :=
  forall w, w_console (snd (m w)) = w_console w.

Definition is_created (e : event) : Prop :=
  match e with PrintCreated _ _ _ _ _ => True | _ => False end.

(** The documents announced on the console, and the documents reported as
    failed, in order. *)
Definition attempted (c : list event) : list path :=
  flat_map (fun e => match e with PrintProcessing f => [f] | _ => [] end) c.

Definition failed (c : list event) : list path :=
  flat_map (fun e => match e with PrintError f _ => [f] | _ => [] end) c.

Definition returns {A} (P : A -> Prop) (m : M A) : Prop :=
  forall w a w', m w = (Ok a, w') -> P a.

(** A batch of one valid and one undecodable document. *)
Definition batch_world : world :=
  World [ ([txt "repo"], Node Dir sample_date true);
          ([txt "repo"; txt "scripts"], Node Dir sample_date true);
          ([txt "notes"], Node Dir sample_date true);
          ([txt "notes"; txt "good.md"],
           Node (Reg (txt "# Hello" ++ nl ++ txt "Some text.")) sample_date true);
          ([txt "notes"; txt "bad.md"],
           Node (Reg [ascii_of_nat 255; ascii_of_nat 254]) sample_date true) ]
        [txt "repo"] (Date 2024 5 6) [].

Definition script_path : path :=
  path_of (txt "/repo/scripts/migrate_markdown.py").

(** The number of times a word occurs in a list of words. *)
Definition occurrences (w : str) (ws : list str) : nat :=
  count_occ (list_eq_dec ascii_dec) ws w.

Fixpoint count_of (w : str) (c : list (str * nat)) : nat :=
  match c with
  | [] => 0
  | (k, n) :: c' => if str_eqb k w then n else count_of w c'
  end.

Definition by_count_desc (a b : str * nat) : Prop := snd b <= snd a.

Definition no_backslash (s : str) : Prop :=
  forallb (fun c => negb (Ascii.eqb c backslash)) s = true.

Definition lit1 (c : ascii) : titem := TLit [c].

(** A markdown image reference with alternative text [alt] and path [p]. *)
Definition md_ref (alt p : str) : str :=
  txt "![" ++ alt ++ txt "](" ++ p ++ txt ")".

Definition no_rbracket (alt : str) : Prop :=
  forallb (not_ "]") alt = true.

(** The text [s] with every markdown reference to [old] turned into a
    reference to [new], scanning from the left: at a reference the path is
    replaced, the alternative text is kept and the scan resumes after it; any
    other character is copied. *)
Inductive md_rewrite (old new : str) : str -> str -> Prop :=
| md_done : md_rewrite old new [] []
| md_replace alt rest rest' :
    no_rbracket alt ->
    md_rewrite old new rest rest' ->
    md_rewrite old new (md_ref alt old ++ rest) (md_ref alt new ++ rest')
| md_keep c s s' :
    (forall alt rest, no_rbracket alt -> c :: s <> md_ref alt old ++ rest) ->
    md_rewrite old new s s' ->
    md_rewrite old new (c :: s) (c :: s').

(** What follows the first group in the img pattern. *)
Definition html_tail_re (old_path : str) : regex :=
  seqs [lit (txt "src="); Chr quotes; lit old_path; Chr quotes;
        Group 2 (Many (not_ ">")); Chr (is_ ">")].

Definition html_tail (q1 : ascii) (p : str) (q2 : ascii) (b : str) : str :=
  txt "src=" ++ q1 :: p ++ q2 :: b ++ [">"%char].

Definition no_gt (s : str) : Prop := forallb (not_ ">") s = true.

(** An img tag whose [src] attribute holds [p]: [a] is the text between
    the tag name and the attribute, [b] the text after its closing quote. *)
Definition html_tag (a : str) (q1 : ascii) (p : str) (q2 : ascii) (b : str)
  : str :=
  txt "<img" ++ a ++ html_tail q1 p q2 b.

Definition html_ok (a : str) (q1 q2 : ascii) (b : str) : Prop :=
  a <> [] /\ no_gt a /\ quotes q1 = true /\ quotes q2 = true /\ no_gt b.

(** What the img substitution of [update_image_paths] does to a text [s],
    scanning from the left. An img tag is rewritten when some text of the
    form src='old' or src="old" stands in it after at least one character;
    the last such text in the tag becomes src="new" (the first group of the
    pattern is greedy), the rest of the tag is kept, and the scan resumes
    after the tag; any other character is copied. The text src= need not be
    the attribute src: it may be the end of a longer attribute name, and an
    earlier src='old' in the same tag is kept as it is. *)
Inductive html_rewrite (old new : str) : str -> str -> Prop :=
| html_done : html_rewrite old new [] []
| html_replace a q1 q2 b rest rest' :
    html_ok a q1 q2 b ->
    (forall a' q1' q2' b' r',
        html_ok a' q1' q2' b' ->
        html_tag a q1 old q2 b ++ rest = html_tag a' q1' old q2' b' ++ r' ->
        List.length a' <= List.length a) ->
    html_rewrite old new rest rest' ->
    html_rewrite old new (html_tag a q1 old q2 b ++ rest)
                         (html_tag a dquote new dquote b ++ rest')
| html_keep c s s' :
    (forall a q1 q2 b rest,
        html_ok a q1 q2 b -> c :: s <> html_tag a q1 old q2 b ++ rest) ->
    html_rewrite old new s s' ->
    html_rewrite old new (c :: s) (c :: s').

(** The passes of [update_image_paths] over a mapping, in its order: for
    each pair the markdown references, then the img tags as described by
    [html_rewrite]. *)
Inductive rewritten : list (str * str) -> str -> str -> Prop :=
| rewritten_nil c : rewritten [] c c
| rewritten_cons old new rest c c1 c2 c3 :
    md_rewrite old new c c1 ->
    html_rewrite old new c1 c2 ->
    rewritten rest c2 c3 ->
    rewritten ((old, new) :: rest) c c3.

Definition plain_targets (image_mapping : list (str * str)) : Prop :=
  Forall (fun kv => no_backslash (snd kv)) image_mapping.

(** A text with two markdown references and two img tags to one path. *)
Definition twice_text : str :=
  txt "![a](old.png) and ![b](old.png) <img src='old.png'> <img alt="
    ++ [dquote] ++ txt "x" ++ [dquote] ++ txt " src=" ++ [dquote]
    ++ txt "old.png" ++ [dquote] ++ txt " width=" ++ [dquote] ++ txt "3"
    ++ [dquote] ++ txt ">".

Definition twice_rewritten : str :=
  txt "![a](/images/abcd1234.png) and ![b](/images/abcd1234.png) <img src="
    ++ [dquote] ++ txt "/images/abcd1234.png" ++ [dquote] ++ txt "> <img alt="
    ++ [dquote] ++ txt "x" ++ [dquote] ++ txt " src=" ++ [dquote]
    ++ txt "/images/abcd1234.png" ++ [dquote] ++ txt " width=" ++ [dquote]
    ++ txt "3" ++ [dquote] ++ txt ">".

(** An img tag of a lazily loaded picture: the path stands in [src] and
    once more in [data-src]. *)
Definition lazy_img_text : str :=
  txt "<img src='old.png' data-src='old.png'>".

Definition lazy_img_rewritten : str :=
  txt "<img src='old.png' data-src=" ++ [dquote]
    ++ txt "/images/abcd1234.png" ++ [dquote] ++ txt ">".

Definition one_line (s : str) : Prop := forallb dot s = true.







Definition sample_migrator : migrator :=
  Migrator (path_of (txt "/notes")) (path_of (txt "/repo"))
    (path_of (txt "/repo/_posts")) (path_of (txt "/repo/images"))
    (map txt [".jpg"; ".jpeg"; ".png"; ".gif"; ".bmp"; ".svg"; ".webp"]%string).

(** A notes directory with one picture, and the two stores. *)
Definition image_world : world :=
  World [ ([txt "repo"], Node Dir sample_date true);
          ([txt "repo"; txt "scripts"], Node Dir sample_date true);
          ([txt "repo"; txt "_posts"], Node Dir sample_date true);
          ([txt "repo"; txt "images"], Node Dir sample_date true);
          ([txt "notes"], Node Dir sample_date true);
          ([txt "notes"; txt "pic.png"], Node (Reg (txt "PNGDATA")) sample_date true) ]
        [txt "repo"] (Date 2024 5 6) [].



(** A notes directory whose picture has a blank in its name. *)
Definition encoded_world : world :=
  World [ ([txt "repo"], Node Dir sample_date true);
          ([txt "repo"; txt "scripts"], Node Dir sample_date true);
          ([txt "repo"; txt "_posts"], Node Dir sample_date true);
          ([txt "repo"; txt "images"], Node Dir sample_date true);
          ([txt "notes"], Node Dir sample_date true);
          ([txt "notes"; txt "my pic.png"],
           Node (Reg (txt "PNGDATA")) sample_date true) ]
        [txt "repo"] (Date 2024 5 6) [].

Definition encoded_text : str := txt "![shot](my%20pic.png)".

Definition bare_hash_text : str :=
  txt "#" ++ nl ++ txt "foo" ++ nl ++ txt "# Real Title".

Definition is_remote (image_path : str) : bool :=
  starts_with (txt "http://") image_path
  || starts_with (txt "https://") image_path.

Definition match_path (m : fa_item) : str :=
  match m with
  | FTuple gs => nth 1 gs []
  | FStr s => s
  end.

Definition store_path (p : str) : Prop :=
  starts_with (txt "/images/") p = true /\ no_backslash p.

(** The name given to a document without heading: the stem of the input
    file with underscores and hyphens turned into blanks, in title case. *)
Definition stem_title (p : path) : str :=
  title (map (fun c => if one_of (txt "_-") c then " "%char else c) (stem p)).

(** A note that is the single input file. *)
Definition single_file_world : world :=
  World [ ([txt "notes"], Node Dir sample_date true);
          ([txt "notes"; txt "my_note.md"],
           Node (Reg (txt "Just some text.")) sample_date true) ]
        [txt "notes"] sample_date [].

Definition single_file_migrator : migrator :=
  Migrator (path_of (txt "my_note.md")) (path_of (txt "/repo"))
    (path_of (txt "/repo/_posts")) (path_of (txt "/repo/images"))
    (map txt [".jpg"; ".jpeg"; ".png"; ".gif"; ".bmp"; ".svg"; ".webp"]%string).

(** Patterns that read at least one character on every match. *)
Fixpoint consumes (r : regex) : bool :=
  match r with
  | Chr _ => true
  | Seq r1 r2 => consumes r1 || consumes r2
  | Group _ r1 => consumes r1
  | _ => false
  end.

(** [k] leaves at least [d] characters less than it was given. *)
Definition shrinks (d : nat) (k : cont) : Prop :=
  forall prev s cs rest cs',
    k prev s cs = Some (rest, cs') -> List.length rest + d <= List.length s.

(** The patterns the script scans a text with. *)
Definition scanned_patterns (old_path : str) : list regex :=
  [ underscore_hyphen_re; markup_re; link_re; image_strip_re; fence_re;
    code_span_re; word_re; md_image_re; html_image_re;
    md_ref_re old_path; html_ref_re old_path;
    Chr not_slug_char; Plus hyphen_or_space ].

Definition markup_char : ascii -> bool := one_of (txt "#*`[]()").

Definition blank_markup (c : ascii) : ascii :=
  if markup_char c then " "%char else c.

(** The characters of a slug: lower-case letters, digits, the underscore and
    the hyphen. *)
Definition output_filename (d : date) (title_ : str) : str :=
  strftime_ymd d ++ txt "-" ++ title_slug title_ ++ txt ".md".

Definition dotdot : str := txt "..".

(** [writes S m]: [m] keeps the working directory and the clock, and every
    file-system entry whose key is outside [S] (a set of keys that may depend
    on the working directory) is after [m] what it was before. *)
Definition writes {A} (S : list str -> list str -> Prop) (m : M A) : Prop :=
  forall w,
    w_cwd (snd (m w)) = w_cwd w
    /\ w_clock (snd (m w)) = w_clock w
    /\ forall k, ~ S (w_cwd w) k ->
                 fs_lookup (w_fs (snd (m w))) k = fs_lookup (w_fs w) k.

Definition reads_only {A} (m : M A) : Prop :=
  forall w, w_fs (snd (m w)) = w_fs w
            /\ w_cwd (snd (m w)) = w_cwd w /\ w_clock (snd (m w)) = w_clock w.

(** The key of a path for a given working directory. *)
Definition base_of (cwd : list str) (p : path) : list str :=
  normalize [] (if p_abs p then p_parts p else cwd ++ p_parts p).




(** The migrator that [init] builds. *)
Definition migrator_of (script_file : path) (input : str) : migrator :=
  let root := parent (parent script_file) in
  Migrator (path_of input) root
    (join root (path_of (txt "_posts"))) (join root (path_of (txt "images")))
    (map txt [".jpg"; ".jpeg"; ".png"; ".gif"; ".bmp"; ".svg"; ".webp"]%string).

(** A world without the stores, where the script's root exists. *)
(** File-system keys are free of dot-dot components. *)
Definition clean_keys (fs : fsmap) : Prop :=
  Forall (fun e => Forall (fun x => x <> dotdot) (fst e)) fs.

Definition markdown_name (n : str) : bool :=
  ends_with (txt ".md") n || ends_with (txt ".markdown") n.

(** Notes whose names differ in letter case. *)
Definition mixed_case_world : world :=
  World [ ([txt "notes"], Node Dir sample_date true);
          ([txt "notes"; txt "UPPER.MD"], Node (Reg (txt "# A")) sample_date true);
          ([txt "notes"; txt "sub"], Node Dir sample_date true);
          ([txt "notes"; txt "sub"; txt "lower.md"],
           Node (Reg (txt "# B")) sample_date true) ]
        [txt "notes"] sample_date [].

Definition migrator_for (input : str) : migrator :=
  migrator_of script_path input.

Definition good_note : path := path_of (txt "/notes/good.md").

(** The two stores in place, and a note whose lines end with "\r\n". *)
Definition crlf_world : world :=
  World [ ([txt "repo"], Node Dir sample_date true);
          ([txt "repo"; txt "scripts"], Node Dir sample_date true);
          ([txt "repo"; txt "_posts"], Node Dir sample_date true);
          ([txt "repo"; txt "images"], Node Dir sample_date true);
          ([txt "notes"], Node Dir sample_date true);
          ([txt "notes"; txt "good.md"],
           Node (Reg (txt "# Hello" ++ [carriage_return] ++ nl
                        ++ txt "Some text.")) sample_date true) ]
        [txt "repo"] (Date 2024 5 6) [].

(** Every reference string the two image patterns find in a text. *)
Definition references (content : str) : list str :=
  flat_map (fun pattern => map match_path (re_findall pattern content))
           image_patterns.

(** What holds of the mapping while the references of a list are visited. *)
Definition keys_from (refs : list str) (m : list (str * str)) : Prop :=
  NoDup (map fst m)
  /\ Forall (fun k => is_remote k = false
                      /\ exists r, In r refs /\ k = unquote r) (map fst m).

(** [jieba.initialize()] on a first run: the dictionary cache is written
    under the temporary directory. *)
Definition cache_path : path := path_of (txt "/tmp/jieba.cache").

Definition write_cache : M unit := write_text cache_path (txt "dict").

(** The batch world with a temporary directory. *)
Definition cache_world : world :=
  World (([txt "tmp"], Node Dir sample_date true) :: w_fs batch_world)
        (w_cwd batch_world) (w_clock batch_world) [].

(** A text whose two pictures are remote. *)
Definition remote_text : str :=
  txt "![logo](https://example.org/logo.png) and <img src='http://example.org/b.png'>".

(** * Properties *)

Example md5_empty :
  MD5.hexdigest [] = txt "d41d8cd98f00b204e9800998ecf8427e".
Proof. vm_compute. reflexivity. Qed.

Example md5_abc :
  MD5.hexdigest (txt "abc") = txt "900150983cd24fb0d6963f7d28e17f72".
Proof. vm_compute. reflexivity. Qed.

Lemma str_eqb_eq a b : str_eqb a b = true <-> a = b.
Proof. unfold str_eqb. destruct (list_eq_dec ascii_dec a b); split; congruence. Qed.

Lemma str_eqb_refl a : str_eqb a a = true.
Proof. now apply str_eqb_eq. Qed.

Lemma str_eqb_neq a b : a <> b -> str_eqb a b = false.
Proof. unfold str_eqb. destruct (list_eq_dec ascii_dec a b); congruence. Qed.

(** ** The matcher on literals and repetitions *)

Lemma take_drop_while p s : take_while p s ++ drop_while p s = s.
Proof.
  induction s as [|c s IH]; simpl; [reflexivity|].
  destruct (p c); simpl; [now rewrite IH | reflexivity].
Qed.

Lemma take_while_all p s : forallb p (take_while p s) = true.
Proof.
  induction s as [|c s IH]; simpl; [reflexivity|].
  destruct (p c) eqn:E; simpl; [now rewrite E | reflexivity].
Qed.

Lemma drop_while_head p s :
  match drop_while p s with [] => True | c :: _ => p c = false end.
Proof.
  induction s as [|c s IH]; simpl; [exact I|].
  destruct (p c) eqn:E; [exact IH | exact E].
Qed.

Lemma take_while_app p a b :
  forallb p a = true ->
  match b with [] => True | c :: _ => p c = false end ->
  take_while p (a ++ b) = a /\ drop_while p (a ++ b) = b.
Proof.
  induction a as [|c a IH]; simpl; intros Ha Hb.
  - destruct b as [|d b]; simpl; [now split|]. now rewrite Hb.
  - apply andb_prop in Ha as [Hc Ha]. rewrite Hc.
    destruct (IH Ha Hb) as [-> ->]. now split.
Qed.

Lemma starts_with_app p r : starts_with p (p ++ r) = true.
Proof.
  induction p as [|c p IH]; simpl; [reflexivity|].
  now rewrite Ascii.eqb_refl, IH.
Qed.

Lemma starts_with_inv p s :
  starts_with p s = true -> s = p ++ skipn (List.length p) s.
Proof.
  revert s; induction p as [|c p IH]; intros [|d s]; simpl; try discriminate;
    try reflexivity.
  intros H. apply andb_prop in H as [Hc Hp].
  apply Ascii.eqb_eq in Hc. subst d. f_equal. now apply IH.
Qed.

Lemma skipn_length_app (p r : str) : skipn (List.length p) (p ++ r) = r.
Proof. induction p; simpl; auto. Qed.

Lemma mtch_lit old k prev s cs :
  mtch (lit old) k prev s cs =
  if starts_with old s
  then k (prev_after prev old) (skipn (List.length old) s) cs
  else None.
Proof.
  revert prev s; induction old as [|c old IH]; intros prev s; simpl.
  - reflexivity.
  - destruct s as [|d s]; [reflexivity|]. unfold is_.
    destruct (Ascii.eqb c d) eqn:E; simpl; [|reflexivity].
    apply Ascii.eqb_eq in E. subst d. apply IH.
Qed.

(** A greedy repetition whose continuation cannot start with a character of
    the class reads the whole run, with no backtracking. *)
Lemma many_commit p (k : cont) :
  (forall prev c s cs, p c = true -> k prev (c :: s) cs = None) ->
  forall s prev cs,
    many p k prev s cs =
    k (prev_after prev (take_while p s)) (drop_while p s) cs.
Proof.
  intros Hk. induction s as [|c s IH]; intros prev cs; simpl; [reflexivity|].
  destruct (p c) eqn:E; simpl; [|reflexivity].
  rewrite IH.
  destruct (k (prev_after (Some c) (take_while p s)) (drop_while p s) cs) eqn:K;
    [reflexivity|].
  now apply Hk.
Qed.

(** A greedy repetition followed by success reads the whole run. *)
Lemma many_accept p s prev cs :
  many p accept prev s cs = Some (drop_while p s, cs).
Proof.
  revert prev; induction s as [|c s IH]; intros prev; simpl; [reflexivity|].
  destruct (p c); [now rewrite IH | reflexivity].
Qed.

(** The longest reading wins when the continuation accepts it. *)
Lemma many_longest p (k : cont) a b prev cs r :
  forallb p a = true ->
  k (prev_after prev a) b cs = Some r ->
  match b with [] => True | c :: _ => p c = false end ->
  many p k prev (a ++ b) cs = Some r.
Proof.
  revert prev; induction a as [|c a IH]; intros prev Ha Hk Hb; simpl in *.
  - destruct b as [|d b]; simpl; [exact Hk|]. now rewrite Hb.
  - apply andb_prop in Ha as [Hc Ha]. rewrite Hc.
    now rewrite (IH (Some c) Ha Hk Hb).
Qed.

(** ** Scanning for replacements *)

Lemma sub_from_skip r t m rest prev :
  sub_from r t (List.length m) prev (m ++ rest)
  = sub_from r t 0 (prev_after prev m) rest.
Proof.
  revert prev; induction m as [|c m IH]; intros prev; simpl.
  - destruct rest; reflexivity.
  - apply IH.
Qed.

Lemma sub_from_miss r t prev c s :
  match_at r prev (c :: s) = None ->
  sub_from r t 0 prev (c :: s) = c :: sub_from r t 0 (Some c) s.
Proof. intros H. simpl. now rewrite H. Qed.

Lemma sub_from_hit r t prev c m rest cs :
  match_at r prev (c :: m ++ rest) = Some (rest, cs) ->
  sub_from r t 0 prev (c :: m ++ rest)
  = expand t cs ++ sub_from r t 0 (prev_after (Some c) m) rest.
Proof.
  intros H. cbn [sub_from]. rewrite H.
  replace (List.length (c :: m ++ rest) - List.length rest)
    with (S (List.length m))
    by (change (List.length (c :: m ++ rest)) with (S (List.length (m ++ rest)));
        rewrite length_app; lia).
  now rewrite sub_from_skip.
Qed.

Lemma sub_from_hit_app r t prev m rest cs :
  match_at r prev (m ++ rest) = Some (rest, cs) ->
  m <> [] ->
  sub_from r t 0 prev (m ++ rest)
  = expand t cs ++ sub_from r t 0 (prev_after prev m) rest.
Proof.
  destruct m as [|c m]; [intros _ H; now elim H|].
  intros H _. apply (sub_from_hit r t prev c m rest cs H).
Qed.

(** Deleting the matches of a one-character pattern is a filter. *)
Lemma sub_from_chr_delete p prev s :
  sub_from (Chr p) [] 0 prev s = filter (fun c => negb (p c)) s.
Proof.
  revert prev; induction s as [|c s IH]; intros prev; [reflexivity|].
  destruct (p c) eqn:E.
  - pose proof (sub_from_hit (Chr p) [] prev c [] s []) as H.
    cbn [app prev_after] in H. rewrite H.
    + simpl. rewrite E. simpl. apply IH.
    + unfold match_at; simpl. now rewrite E.
  - rewrite sub_from_miss.
    + simpl. rewrite E. simpl. f_equal. apply IH.
    + unfold match_at; simpl. now rewrite E.
Qed.

Lemma squeeze_in_run p s :
  squeeze p true s = squeeze p false (drop_while p s).
Proof.
  induction s as [|c s IH]; simpl; [reflexivity|].
  destruct (p c) eqn:E; [exact IH | simpl; now rewrite E].
Qed.

Lemma sub_from_plus_squeeze p n :
  forall s prev, List.length s <= n ->
    sub_from (Plus p) [TLit (txt "-")] 0 prev s = squeeze p false s.
Proof.
  induction n as [|n IH]; intros s prev Hn.
  - destruct s; [reflexivity | simpl in Hn; lia].
  - destruct s as [|c s]; [reflexivity|].
    destruct (p c) eqn:E.
    + pose proof (take_drop_while p s) as Hs.
      assert (Hm : match_at (Plus p) prev (c :: take_while p s ++ drop_while p s)
                   = Some (drop_while p s, [])).
      { unfold match_at, Plus. cbn [mtch]. rewrite E, Hs. apply many_accept. }
      rewrite <- Hs at 1. rewrite (sub_from_hit _ _ _ _ _ _ _ Hm).
      cbn [squeeze]. rewrite E. cbn. f_equal.
      rewrite squeeze_in_run. apply IH.
      simpl in Hn. rewrite <- Hs in Hn. rewrite length_app in Hn. lia.
    + rewrite sub_from_miss.
      * cbn [squeeze]. rewrite E. f_equal. apply IH. simpl in Hn. lia.
      * unfold match_at, Plus. cbn [mtch]. now rewrite E.
Qed.

Lemma re_sub_plus_squeeze p s :
  re_sub (Plus p) [TLit (txt "-")] s = squeeze p false s.
Proof. unfold re_sub. now apply (sub_from_plus_squeeze p (List.length s)). Qed.

Lemma re_sub_chr_delete p s :
  re_sub (Chr p) [] s = filter (fun c => negb (p c)) s.
Proof. apply sub_from_chr_delete. Qed.

(** ** Slugs *)

Lemma title_slug_squeeze s :
  title_slug s = squeeze hyphen_or_space false (filter slug_char (lower s)).
Proof.
  unfold title_slug. rewrite re_sub_plus_squeeze, re_sub_chr_delete.
  f_equal. apply filter_ext. intros c. unfold not_slug_char, slug_char.
  apply negb_involutive.
Qed.

Lemma squeeze_squeezed p :
  p "-"%char = true ->
  forall s,
    squeezed p (squeeze p false s) = true
    /\ squeezed p (squeeze p true s) = true
    /\ head_in p (squeeze p true s) = false.
Proof.
  intros Hp. induction s as [|c s (IH1 & IH2 & IH3)]; simpl; [auto|].
  destruct (p c) eqn:E; simpl.
  - rewrite Hp, IH2, IH3. auto.
  - rewrite E, IH1. auto.
Qed.

Lemma lower_char_idem c : lower_char (lower_char c) = lower_char c.
Proof.
  destruct c as [[] [] [] [] [] [] [] []]; vm_compute; reflexivity.
Qed.

Lemma map_fixed (f : ascii -> ascii) s :
  Forall (fun c => f c = c) s -> map f s = s.
Proof. induction 1; simpl; congruence. Qed.

Lemma replace_runs_squeeze p b s :
  replace_runs ascii p "-"%char b s = squeeze p b s.
Proof.
  revert b; induction s as [|c s IH]; intros b; simpl; [reflexivity|].
  destruct (p c); [destruct b|]; now rewrite IH.
Qed.

Lemma is_hyphen_ascii c : is_hyphen ascii ascii_dec "-"%char c = Ascii.eqb c "-".
Proof.
  unfold is_hyphen. destruct (ascii_dec c "-") as [->|H]; [reflexivity|].
  symmetry. now apply Ascii.eqb_neq.
Qed.

(** The slug of the script is the slug over the ASCII tables. *)
Lemma title_slug_is_slug_of s :
  title_slug s = slug_of ascii ascii_dec is_word is_space "-"%char lower s.
Proof.
  rewrite title_slug_squeeze. unfold slug_of, delete_class.
  rewrite replace_runs_squeeze.
  assert (Hf : forall t, filter slug_char t
               = filter (fun c => negb (outside_slug ascii ascii_dec is_word
                                          is_space "-"%char c)) t).
  { intros t. apply filter_ext. intros c. unfold outside_slug, slug_char.
    now rewrite negb_involutive, is_hyphen_ascii. }
  rewrite Hf.
  assert (Hs : forall b t, squeeze hyphen_or_space b t
               = squeeze (hyphen_or_blank ascii ascii_dec is_space "-"%char) b t).
  { intros b t. revert b. induction t as [|c t IH]; intros b; [reflexivity|].
    cbn [squeeze]. unfold hyphen_or_blank at 1, hyphen_or_space at 1.
    rewrite is_hyphen_ascii. now rewrite !IH. }
  apply Hs.
Qed.

Section Slug_any_alphabet.

Context {char : Type} (char_eq_dec : forall a b : char, {a = b} + {a <> b})
        (word_class space_class : char -> bool) (hyphen : char).

Local Notation "'is_hy'" := (is_hyphen char char_eq_dec hyphen).
Local Notation "'blank'" :=
  (hyphen_or_blank char char_eq_dec space_class hyphen).
Local Notation "'outside'" :=
  (outside_slug char char_eq_dec word_class space_class hyphen).
Local Notation "'runs'" :=
  (replace_runs char (hyphen_or_blank char char_eq_dec space_class hyphen)
     hyphen).

Lemma is_hyphen_hyphen : is_hy hyphen = true.
Proof. unfold is_hyphen. now destruct (char_eq_dec hyphen hyphen). Qed.

Lemma blank_hyphen : blank hyphen = true.
Proof. unfold hyphen_or_blank. now rewrite is_hyphen_hyphen. Qed.

Lemma outside_hyphen : outside hyphen = false.
Proof.
  unfold outside_slug. rewrite is_hyphen_hyphen.
  now rewrite !orb_true_r.
Qed.

(** Every character of a text whose runs were replaced is the hyphen or a
    character of the text. *)
Lemma replace_runs_chars (P : char -> Prop) b s :
  P hyphen -> Forall P s -> Forall P (runs b s).
Proof.
  intros Hd H. revert b. induction H as [|c s Hc Hs IH]; intros b; simpl.
  - constructor.
  - destruct (blank c); [destruct b|]; auto.
Qed.

(** Inside a run the scan goes on with a character outside the class. *)
Lemma replace_runs_after_run s :
  match runs true s with
  | [] => True
  | c :: _ => blank c = false
  end.
Proof.
  induction s as [|c s IH]; [exact I|]. cbn [replace_runs].
  destruct (blank c) eqn:E; [exact IH | exact E].
Qed.

Lemma replace_runs_fresh t :
  match t with [] => True | c :: _ => blank c = false end ->
  runs true t = runs false t.
Proof.
  destruct t as [|c t]; [reflexivity|]. intros H. cbn [replace_runs].
  now rewrite H.
Qed.

(** Replacing the runs of a text whose runs were replaced changes nothing. *)
Lemma replace_runs_again s : forall b, runs false (runs b s) = runs b s.
Proof.
  induction s as [|c s IH]; intros b; [reflexivity|].
  cbn [replace_runs]. destruct (blank c) eqn:E.
  - destruct b; [apply IH|].
    cbn [replace_runs]. rewrite blank_hyphen. f_equal.
    rewrite replace_runs_fresh by apply replace_runs_after_run. apply IH.
  - cbn [replace_runs]. rewrite E. f_equal. apply IH.
Qed.

(** The characters of a slug: word characters and hyphens, none of them
    whitespace. *)
Lemma slug_of_chars lower_case s :
  Forall (fun c => c = hyphen
                   \/ (word_class c = true /\ space_class c = false))
         (slug_of char char_eq_dec word_class space_class hyphen lower_case s).
Proof.
  unfold slug_of, delete_class.
  set (u := filter _ _).
  assert (Hu : Forall (fun c => outside c = false) u).
  { apply Forall_forall. intros c Hc. apply filter_In in Hc as [_ Hc].
    now apply negb_true_iff in Hc. }
  clearbody u.
  enough (H : forall b,
             Forall (fun c => c = hyphen
                              \/ (word_class c = true /\ space_class c = false))
                    (runs b u)) by apply H.
  induction Hu as [|c u Hc Hu IH]; intros b; [constructor|].
  cbn [replace_runs]. destruct (blank c) eqn:E.
  - destruct b; [apply IH|]. constructor; [now left | apply IH].
  - constructor; [|apply IH]. unfold hyphen_or_blank in E.
    apply orb_false_iff in E as [Eh Es]. unfold outside_slug in Hc.
    apply negb_false_iff in Hc. rewrite Eh, Es, !orb_false_r in Hc.
    right. split; assumption.
Qed.

End Slug_any_alphabet.

(** C7. Slug derivation is idempotent over any alphabet: whatever the
    classes of word and whitespace characters are, when lower-casing leaves
    the hyphen alone, yields only characters it leaves alone, and leaves a
    text of such characters as it is, the slug of a slug is that slug. *)
Theorem slug_idempotent
    (char : Type) (char_eq_dec : forall a b : char, {a = b} + {a <> b})
    (word_class space_class : char -> bool) (hyphen : char)
    (lower_case : list char -> list char) :
  (forall s, Forall (lower_fixed char lower_case) (lower_case s)) ->
  (forall t, Forall (lower_fixed char lower_case) t -> lower_case t = t) ->
  lower_fixed char lower_case hyphen ->
  forall s,
    slug_of char char_eq_dec word_class space_class hyphen lower_case
      (slug_of char char_eq_dec word_class space_class hyphen lower_case s)
    = slug_of char char_eq_dec word_class space_class hyphen lower_case s.
Proof.
  intros Hlow Hfix Hhy s. unfold slug_of at 1 3. unfold delete_class.
  set (outside := outside_slug char char_eq_dec word_class space_class hyphen).
  set (blank := hyphen_or_blank char char_eq_dec space_class hyphen).
  set (u := filter (fun c => negb (outside c)) (lower_case s)).
  set (t := replace_runs char blank hyphen false u).
  assert (Hu : Forall (fun c => lower_fixed char lower_case c
                               /\ outside c = false) u).
  { apply Forall_forall. intros c Hc. apply filter_In in Hc as [Hin Hk].
    split; [|now apply negb_true_iff in Hk].
    specialize (Hlow s). rewrite Forall_forall in Hlow. now apply Hlow. }
  assert (Ht : Forall (fun c => lower_fixed char lower_case c
                               /\ outside c = false) t).
  { apply replace_runs_chars; [|exact Hu].
    split; [exact Hhy | apply outside_hyphen]. }
  assert (Hslug : slug_of char char_eq_dec word_class space_class hyphen
                    lower_case s = t) by reflexivity.
  rewrite Hslug, Hfix.
  - assert (Hf : filter (fun c => negb (outside c)) t = t).
    { clear - Ht. induction Ht as [|c t [_ Hc] _ IH]; [reflexivity|].
      cbn [filter]. rewrite Hc. cbn. now rewrite IH. }
    rewrite Hf. apply replace_runs_again.
  - eapply Forall_impl; [|exact Ht]. now intros c [H _].
Qed.

(** The ASCII tables meet the three conditions, so the slug of the script
    is idempotent on ASCII text. *)
Lemma slug_idempotent_witness :
  title_slug (title_slug (txt "Hello,  World -- 2nd_Draft!"))
  = title_slug (txt "Hello,  World -- 2nd_Draft!")
  /\ title_slug (txt "Hello,  World -- 2nd_Draft!") = txt "hello-world-2nd_draft".
Proof.
  split; [|vm_compute; reflexivity].
  rewrite !title_slug_is_slug_of.
  apply (slug_idempotent ascii ascii_dec is_word is_space "-"%char lower).
  - intros s. apply Forall_forall. intros c Hc. unfold lower in Hc.
    apply in_map_iff in Hc as (d & <- & _). unfold lower_fixed, lower.
    cbn [map]. now rewrite lower_char_idem.
  - intros t Ht. unfold lower. apply map_fixed.
    eapply Forall_impl; [|exact Ht]. intros c Hc.
    unfold lower_fixed, lower in Hc. cbn [map] in Hc. congruence.
  - reflexivity.
Defined.

(** ** Front matter *)

Lemma fold_tags_app (a b : str) (tags : list str) :
  fold_left (fun fm tag => fm ++ txt "  - " ++ tag ++ nl) tags (a ++ b)
  = a ++ fold_left (fun fm tag => fm ++ txt "  - " ++ tag ++ nl) tags b.
Proof.
  revert b; induction tags as [|t tags IH]; intros b; simpl; [reflexivity|].
  rewrite <- app_assoc. apply IH.
Qed.

(** C9. The front matter opens with its marker line and then the line
    title: '<title>', the title standing verbatim between the two quotes;
    a title holding a quote itself is written unescaped. *)
Theorem front_matter_title_verbatim (title_ : str) (d : date) (tags : list str) :
  (exists rest,
     generate_jekyll_front_matter title_ d tags
     = txt "---" ++ nl ++ txt "title: '" ++ title_ ++ txt "'" ++ nl ++ rest)
  /\ (exists rest,
        generate_jekyll_front_matter (txt "It's") d tags
        = txt "---" ++ nl ++ txt "title: 'It's'" ++ nl ++ rest).
Proof.
  assert (H : forall t, exists rest,
     generate_jekyll_front_matter t d tags
     = txt "---" ++ nl ++ txt "title: '" ++ t ++ txt "'" ++ nl ++ rest).
  { intros t. unfold generate_jekyll_front_matter.
    eexists.
    repeat rewrite fold_tags_app.
    repeat rewrite <- app_assoc. reflexivity. }
  split; [apply H|].
  destruct (H (txt "It's")) as [rest Hr]. exists rest. rewrite Hr. reflexivity.
Qed.

(** ** Store file names *)

Lemma le_bytes_length n x : List.length (MD5.le_bytes n x) = n.
Proof. revert x; induction n; intros x; simpl; auto. Qed.

Lemma le_bytes_range n x :
  Forall (fun b => (0 <= b < 256)%Z) (MD5.le_bytes n x).
Proof.
  revert x; induction n; intros x; simpl; constructor; auto.
  apply Z.mod_pos_bound. lia.
Qed.

Lemma digest_length msg : List.length (MD5.digest msg) = 16.
Proof.
  unfold MD5.digest.
  destruct (MD5.blocks _ _ _) as [a b c d].
  repeat rewrite length_app. repeat rewrite le_bytes_length. reflexivity.
Qed.

Lemma digest_range msg : Forall (fun b => (0 <= b < 256)%Z) (MD5.digest msg).
Proof.
  unfold MD5.digest.
  destruct (MD5.blocks _ _ _) as [a b c d].
  rewrite !Forall_app. repeat split; apply le_bytes_range.
Qed.

Lemma hex_digit_hex x : (0 <= x < 16)%Z -> is_hex_lower (MD5.hex_digit x) = true.
Proof.
  intros H. unfold MD5.hex_digit.
  assert (Hn : Z.to_nat x < 16) by lia.
  destruct (Z.to_nat x) as [|[|[|[|[|[|[|[|[|[|[|[|[|[|[|[|n]]]]]]]]]]]]]]]];
    try reflexivity; lia.
Qed.

Lemma hexdigest_length msg : List.length (MD5.hexdigest msg) = 32.
Proof.
  unfold MD5.hexdigest.
  assert (H : forall l : list Z,
             List.length
               (flat_map (fun b => [MD5.hex_digit (b / 16); MD5.hex_digit (b mod 16)]) l)
             = 2 * List.length l).
  { induction l; simpl; [reflexivity|]. cbn [List.length] in *. lia. }
  rewrite H, digest_length. reflexivity.
Qed.

Lemma hexdigest_hex msg : forallb is_hex_lower (MD5.hexdigest msg) = true.
Proof.
  unfold MD5.hexdigest. pose proof (digest_range msg) as H.
  induction H as [|b l Hb Hl IH]; simpl; [reflexivity|].
  rewrite IH, !hex_digit_hex; [reflexivity | |].
  - apply Z.mod_pos_bound. lia.
  - split; [apply Z.div_pos; lia | apply Z.div_lt_upper_bound; lia].
Qed.

Lemma forallb_firstn {A} (p : A -> bool) n l :
  forallb p l = true -> forallb p (firstn n l) = true.
Proof.
  revert n; induction l as [|a l IH]; intros [|n]; simpl; auto.
  intros H. apply andb_prop in H as [-> H]. simpl. now apply IH.
Qed.

Lemma generate_image_filename_ok p w data :
  fst (read_bytes p w) = Ok data ->
  generate_image_filename p w
  = (Ok (firstn 8 (MD5.hexdigest data) ++ lower (suffix p)), w).
Proof.
  unfold generate_image_filename, read_bytes, bind, get_world.
  destruct (lookup w p) as [[[|d] m [|]]|]; simpl; try discriminate.
  intros [= ->]. reflexivity.
Qed.

(** C3, as amended. The store name of a readable image is the first eight
    hexadecimal characters of the MD5 digest of its whole content followed by
    its extension in lower case; two images with the same content whose
    extensions agree up to case get the same store name. *)
Theorem store_filename_by_content_and_extension
    (w w' : world) (p q : path) (data : bytes) :
  fst (read_bytes p w) = Ok data ->
  fst (read_bytes q w') = Ok data ->
  lower (suffix p) = lower (suffix q) ->
  fst (generate_image_filename p w)
    = Ok (firstn 8 (MD5.hexdigest data) ++ lower (suffix p))
  /\ List.length (firstn 8 (MD5.hexdigest data)) = 8
  /\ forallb is_hex_lower (firstn 8 (MD5.hexdigest data)) = true
  /\ fst (generate_image_filename p w) = fst (generate_image_filename q w').
Proof.
  intros Hp Hq He.
  rewrite (generate_image_filename_ok p w data Hp).
  rewrite (generate_image_filename_ok q w' data Hq).
  cbn [fst]. repeat split.
  - rewrite firstn_length_le; [reflexivity|]. rewrite hexdigest_length. lia.
  - apply forallb_firstn, hexdigest_hex.
  - now rewrite He.
Qed.

Lemma store_filename_by_content_and_extension_witness :
  fst (generate_image_filename (path_of (txt "a.png")) twin_world)
    = Ok (firstn 8 (MD5.hexdigest (txt "same bytes")) ++ txt ".png")
  /\ List.length (firstn 8 (MD5.hexdigest (txt "same bytes"))) = 8
  /\ forallb is_hex_lower (firstn 8 (MD5.hexdigest (txt "same bytes"))) = true
  /\ fst (generate_image_filename (path_of (txt "a.png")) twin_world)
     = fst (generate_image_filename (path_of (txt "A.PNG")) twin_world).
Proof.
  apply (store_filename_by_content_and_extension
           twin_world twin_world (path_of (txt "a.png")) (path_of (txt "A.PNG"))
           (txt "same bytes")); reflexivity.
Defined.

(** C3, as stated, fails: two images with identical bytes and different
    extensions get different store names. *)
Lemma same_content_different_store_name :
  ~ (forall (w : world) (p q : path) (data : bytes),
       fst (read_bytes p w) = Ok data ->
       fst (read_bytes q w) = Ok data ->
       fst (generate_image_filename p w) = fst (generate_image_filename q w)).
Proof.
  intros H.
  specialize (H twin_world (path_of (txt "a.png")) (path_of (txt "b.jpg"))
                (txt "same bytes") eq_refl eq_refl).
  vm_compute in H. discriminate H.
Qed.

(** ** What a computation prints *)

Lemma quiet_prints {A} P (m : M A) : quiet m -> prints P m.
Proof. intros H w. exists []. rewrite app_nil_r. split; [apply H | constructor]. Qed.

Lemma prints_bind {A B} P (m : M A) (f : A -> M B) :
  prints P m -> (forall a, prints P (f a)) -> prints P (bind m f).
Proof.
  intros Hm Hf w. unfold bind. destruct (Hm w) as (e1 & H1 & P1).
  destruct (m w) as [[a|e] w1]; simpl in *.
  - destruct (Hf a w1) as (e2 & H2 & P2). exists (e1 ++ e2).
    rewrite H2, H1, app_assoc. split; [reflexivity | now apply Forall_app].
  - exists e1. now split.
Qed.

Lemma quiet_bind {A B} (m : M A) (f : A -> M B) :
  quiet m -> (forall a, quiet (f a)) -> quiet (bind m f).
Proof.
  intros Hm Hf w. unfold bind. specialize (Hm w).
  destruct (m w) as [[a|e] w1]; simpl in *; [|exact Hm].
  now rewrite Hf.
Qed.

Lemma quiet_ret {A} (a : A) : quiet (ret a).
Proof. intros w. reflexivity. Qed.

Lemma quiet_raise {A} e : quiet (@raise A e).
Proof. intros w. reflexivity. Qed.

Lemma quiet_get_world : quiet get_world.
Proof. intros w. reflexivity. Qed.

Lemma quiet_set_fs fs : quiet (set_fs fs).
Proof. intros w. reflexivity. Qed.

Lemma prints_print (P : event -> Prop) e : P e -> prints P (print e).
Proof. intros H w. exists [e]. split; [reflexivity | now constructor]. Qed.

Ltac quiet_step :=
  first
    [ apply quiet_ret | apply quiet_raise | apply quiet_get_world
    | apply quiet_set_fs
    | apply quiet_bind; [|intros ?]
    | match goal with
      | |- quiet (match ?x with _ => _ end) => destruct x
      | |- quiet (if ?b then _ else _) => destruct b
      | |- quiet (let _ := _ in _) => cbv zeta
      end ].

Lemma quiet_read_bytes p : quiet (read_bytes p).
Proof. unfold read_bytes. repeat quiet_step. Qed.

Lemma quiet_read_text p : quiet (read_text p).
Proof. unfold read_text. apply quiet_bind; [apply quiet_read_bytes|intros b].
  repeat quiet_step. Qed.

Lemma quiet_stat_mtime p : quiet (stat_mtime p).
Proof. unfold stat_mtime. repeat quiet_step. Qed.

Lemma quiet_write_node p data d : quiet (write_node p data d).
Proof. unfold write_node. repeat quiet_step. Qed.

Lemma quiet_write_text p s : quiet (write_text p s).
Proof. unfold write_text. apply quiet_bind; [apply quiet_get_world|intros w].
  apply quiet_write_node. Qed.

Lemma quiet_copy2 src dst : quiet (copy2 src dst).
Proof.
  unfold copy2. apply quiet_bind; [apply quiet_get_world|intros w]. cbv zeta.
  destruct (_ && _); [apply quiet_raise|].
  apply quiet_bind; [apply quiet_read_bytes|intros b].
  apply quiet_bind; [apply quiet_stat_mtime|intros m].
  apply quiet_write_node.
Qed.

Lemma quiet_generate_image_filename p : quiet (generate_image_filename p).
Proof.
  unfold generate_image_filename.
  apply quiet_bind; [apply quiet_read_bytes|intros b]. apply quiet_ret.
Qed.

Lemma quiet_foldM {A B} (f : B -> A -> M B) l :
  (forall b a, quiet (f b a)) -> forall b, quiet (foldM f l b).
Proof.
  intros Hf. induction l as [|a l IH]; intros b; simpl.
  - apply quiet_ret.
  - apply quiet_bind; [apply Hf | intros b'; apply IH].
Qed.

Lemma quiet_copy_match self dir copied m : quiet (copy_match self dir copied m).
Proof.
  unfold copy_match. cbv zeta.
  destruct (_ || _); [apply quiet_ret|].
  apply quiet_bind; [apply quiet_get_world|intros w].
  destruct (find_image_file _ _ _ _); [|apply quiet_ret].
  apply quiet_bind; [apply quiet_generate_image_filename|intros n].
  apply quiet_bind; [apply quiet_copy2|intros _]. apply quiet_ret.
Qed.

Lemma quiet_find_and_copy_images self content dir :
  quiet (find_and_copy_images self content dir).
Proof.
  unfold find_and_copy_images. apply quiet_foldM. intros b r.
  apply quiet_foldM. intros b' m. apply quiet_copy_match.
Qed.

Lemma quiet_extract_title self content :
  quiet (extract_title_from_content self content).
Proof. unfold extract_title_from_content. repeat quiet_step. Qed.

Lemma prints_process_body jb self f :
  prints is_created (process_body jb self f).
Proof.
  unfold process_body.
  apply prints_bind; [apply quiet_prints, quiet_read_text|intros content].
  apply prints_bind; [apply quiet_prints, quiet_extract_title|intros t].
  cbv zeta.
  apply prints_bind; [apply quiet_prints, quiet_stat_mtime|intros d].
  apply prints_bind; [apply quiet_prints, quiet_find_and_copy_images|intros im].
  apply prints_bind.
  { apply quiet_prints. unfold lift_re. repeat quiet_step. }
  intros content'.
  apply prints_bind; [apply quiet_prints, quiet_write_text|intros _].
  apply prints_bind; [apply prints_print; exact I|intros _].
  apply quiet_prints, quiet_ret.
Qed.

(** ** The batch *)

Lemma attempted_app a b : attempted (a ++ b) = attempted a ++ attempted b.
Proof. apply flat_map_app. Qed.

Lemma failed_app a b : failed (a ++ b) = failed a ++ failed b.
Proof. apply flat_map_app. Qed.

Lemma created_not_attempted evs : Forall is_created evs -> attempted evs = [].
Proof.
  induction 1 as [|e evs He _ IH]; [reflexivity|].
  destruct e; simpl in *; try contradiction. exact IH.
Qed.

Lemma created_not_failed evs : Forall is_created evs -> failed evs = [].
Proof.
  induction 1 as [|e evs He _ IH]; [reflexivity|].
  destruct e; simpl in *; try contradiction. exact IH.
Qed.

Lemma process_markdown_file_catches jb self f w :
  process_markdown_file jb self f w =
  match process_body jb self f (snd (print (PrintProcessing f) w)) with
  | (Ok b, w2) => (Ok b, w2)
  | (Raise e, w2) => (Ok false, snd (print (PrintError f e) w2))
  end.
Proof.
  unfold process_markdown_file, bind, try_except. simpl.
  destruct (process_body jb self f _) as [[b|e] w2]; reflexivity.
Qed.

Lemma returns_bind {A B} (P : B -> Prop) (m : M A) (f : A -> M B) :
  (forall a, returns P (f a)) -> returns P (bind m f).
Proof.
  intros Hf w b w'. unfold bind.
  destruct (m w) as [[a|e] w1]; [apply Hf | discriminate].
Qed.

Lemma process_body_true jb self f :
  returns (fun b => b = true) (process_body jb self f).
Proof.
  unfold process_body. cbv zeta.
  repeat (apply returns_bind; intros ?).
  intros w0 b0 w1 [= <- _]. reflexivity.
Qed.

Lemma process_markdown_file_console jb self f w :
  exists b w',
    process_markdown_file jb self f w = (Ok b, w')
    /\ attempted (w_console w') = attempted (w_console w) ++ [f]
    /\ failed (w_console w')
       = failed (w_console w) ++ (if b then [] else [f]).
Proof.
  rewrite process_markdown_file_catches.
  destruct (prints_process_body jb self f (snd (print (PrintProcessing f) w)))
    as (evs & Hc & Hp).
  destruct (process_body jb self f _) as [[b|e] w2] eqn:Hb; simpl in Hc.
  - apply process_body_true in Hb. subst b.
    exists true, w2. split; [reflexivity|].
    rewrite Hc, !attempted_app, !failed_app.
    rewrite (created_not_attempted evs Hp), (created_not_failed evs Hp).
    simpl. rewrite !app_nil_r.
    split; reflexivity.
  - exists false. eexists. split; [reflexivity|]. simpl.
    rewrite Hc, !attempted_app, !failed_app.
    rewrite (created_not_attempted evs Hp), (created_not_failed evs Hp).
    simpl. now rewrite !app_nil_r.
Qed.

Lemma process_files_console jb self files :
  forall n w, exists m w' fl,
    process_files jb self files n w = (Ok m, w')
    /\ attempted (w_console w') = attempted (w_console w) ++ files
    /\ failed (w_console w') = failed (w_console w) ++ fl
    /\ m + List.length fl = n + List.length files.
Proof.
  induction files as [|f files IH]; intros n w.
  - exists n, w, []. simpl. rewrite !app_nil_r. auto.
  - destruct (process_markdown_file_console jb self f w) as (b & w1 & H1 & A1 & F1).
    destruct (IH (if b then S n else n) w1) as (m & w' & fl & H2 & A2 & F2 & L2).
    exists m, w', ((if b then [] else [f]) ++ fl).
    cbn [process_files]. unfold bind. rewrite H1, H2.
    split; [reflexivity|]. rewrite A2, A1, F2, F1, <- !app_assoc.
    repeat split. destruct b; simpl in *; lia.
Qed.

(** C2. An exception raised while one document is processed is caught at
    that document: the call returns False after printing the error, the loop
    goes on to the remaining documents, and the count of successes plus the
    number of reported failures is the number of documents. A batch of one
    valid and one undecodable document reports 1/2 and writes the valid
    document's post. *)
Theorem batch_contains_document_failures
    (jb : str -> nat -> option (list str)) :
  (forall self f w,
     process_markdown_file jb self f w =
     match process_body jb self f (snd (print (PrintProcessing f) w)) with
     | (Ok b, w2) => (Ok b, w2)
     | (Raise e, w2) => (Ok false, snd (print (PrintError f e) w2))
     end)
  /\ (forall self files n w, exists m w' fl,
        process_files jb self files n w = (Ok m, w')
        /\ attempted (w_console w') = attempted (w_console w) ++ files
        /\ failed (w_console w') = failed (w_console w) ++ fl
        /\ m + List.length fl = n + List.length files)
  /\ (let w' := snd (main jb script_path (txt "/notes") batch_world) in
      last (w_console w') PrintNoFiles = PrintSummary 1 2
      /\ render_summary 1 2 = txt "Processed 1/2 files successfully."
      /\ attempted (w_console w')
         = [path_of (txt "/notes/good.md"); path_of (txt "/notes/bad.md")]
      /\ failed (w_console w') = [path_of (txt "/notes/bad.md")]
      /\ is_file w' (path_of (txt "/repo/_posts/2021-01-01-hello.md")) = true).
Proof.
  split; [intros; apply process_markdown_file_catches|].
  split; [intros; apply process_files_console|].
  vm_compute. repeat split.
Qed.

(** ** Tags *)

Lemma many_inv p (k : cont) s prev cs r :
  many p k prev s cs = Some r ->
  exists a b, s = a ++ b /\ forallb p a = true
              /\ k (prev_after prev a) b cs = Some r.
Proof.
  revert prev; induction s as [|c s IH]; intros prev; simpl.
  - intros H. exists [], []. auto.
  - destruct (p c) eqn:E.
    + destruct (many p k (Some c) s cs) as [r'|] eqn:M.
      * intros [= ->]. destruct (IH _ M) as (a & b & -> & Ha & Hk).
        exists (c :: a), b. simpl. rewrite E, Ha. auto.
      * intros H. exists [], (c :: s). auto.
    + intros H. exists [], (c :: s). auto.
Qed.

(** Every match reported by the scan is a match of the pattern somewhere,
    and its text is what that match read. *)
Lemma finditer_from_matches r s :
  forall skip prev,
    Forall (fun f => exists prev' s' rest,
                match_at r prev' s' = Some (rest, f_caps f)
                /\ f_text f = firstn (List.length s' - List.length rest) s')
           (finditer_from r skip prev s).
Proof.
  induction s as [|c s IH]; intros skip prev; simpl.
  - destruct skip; [|constructor].
    destruct (match_at r prev []) as [[rest cs]|] eqn:E; constructor;
      [|constructor].
    exists prev, [], rest. auto.
  - destruct skip as [|n]; [|apply IH].
    destruct (match_at r prev (c :: s)) as [[rest cs]|] eqn:E; [|apply IH].
    constructor; [|apply IH].
    exists prev, (c :: s), rest. auto.
Qed.

Lemma word_re_match prev s rest cs :
  match_at word_re prev s = Some (rest, cs) ->
  exists m, s = m ++ rest /\ 3 <= List.length m /\ forallb is_alpha m = true.
Proof.
  unfold match_at, word_re. cbn [seqs mtch].
  destruct (xorb _ _); [|discriminate].
  destruct s as [|c1 s]; [discriminate|].
  destruct (is_alpha c1) eqn:E1; [|discriminate].
  destruct s as [|c2 s]; [discriminate|].
  destruct (is_alpha c2) eqn:E2; [|discriminate].
  destruct s as [|c3 s]; [discriminate|].
  destruct (is_alpha c3) eqn:E3; [|discriminate].
  intros H. apply many_inv in H as (a & b & -> & Ha & Hk).
  cbn [mtch] in Hk. destruct (xorb _ _); [|discriminate].
  unfold accept in Hk. injection Hk as <- _.
  exists (c1 :: c2 :: c3 :: a). simpl. rewrite E1, E2, E3, Ha.
  repeat split. lia.
Qed.

Lemma firstn_app_length {A} (m rest : list A) :
  firstn (List.length (m ++ rest) - List.length rest) (m ++ rest) = m.
Proof.
  rewrite length_app.
  replace (List.length m + List.length rest - List.length rest)
    with (List.length m + 0) by lia.
  rewrite firstn_app_2. simpl. apply app_nil_r.
Qed.

(** The word tokens of a text: runs of at least three letters. *)
Lemma word_tokens s :
  Forall (fun t => 3 <= List.length t /\ forallb is_alpha t = true)
         (map item_str (re_findall word_re s)).
Proof.
  unfold re_findall. rewrite map_map. apply Forall_map.
  eapply Forall_impl; [|apply finditer_from_matches].
  intros f (prev' & s' & rest & Hm & Ht).
  unfold fa_of. change (group_count word_re) with 0. cbn [item_str].
  apply word_re_match in Hm as (m & -> & Hl & Ha).
  rewrite Ht, firstn_app_length. auto.
Qed.

Lemma str_eqb_sym a b : str_eqb a b = str_eqb b a.
Proof.
  unfold str_eqb.
  destruct (list_eq_dec ascii_dec a b), (list_eq_dec ascii_dec b a); congruence.
Qed.

Lemma count_of_add w x c :
  count_of w (count_add x c) = count_of w c + (if str_eqb x w then 1 else 0).
Proof.
  induction c as [|[k n] c IH]; simpl.
  - destruct (str_eqb x w); reflexivity.
  - destruct (str_eqb k x) eqn:Ekx; simpl.
    + apply str_eqb_eq in Ekx. subst k.
      destruct (str_eqb x w); lia.
    + destruct (str_eqb k w) eqn:Ekw; [|exact IH].
      apply str_eqb_eq in Ekw. subst k. rewrite str_eqb_sym, Ekx. lia.
Qed.

Lemma count_of_fold w ws :
  forall c,
    count_of w (fold_left (fun c x => count_add x c) ws c)
    = count_of w c + occurrences w ws.
Proof.
  unfold occurrences.
  induction ws as [|x ws IH]; intros c; simpl; [lia|].
  rewrite IH, count_of_add.
  destruct (list_eq_dec ascii_dec x w) as [->|Hn].
  - rewrite str_eqb_refl. lia.
  - rewrite (str_eqb_neq _ _ Hn). lia.
Qed.

Lemma count_add_keys x c :
  map fst (count_add x c)
  = if mem x (map fst c) then map fst c else map fst c ++ [x].
Proof.
  unfold mem. induction c as [|[k n] c IH]; simpl; [reflexivity|].
  destruct (str_eqb k x) eqn:E.
  - apply str_eqb_eq in E. subst k. now rewrite str_eqb_refl.
  - assert (E' : str_eqb x k = false).
    { apply str_eqb_neq. intros ->. now rewrite str_eqb_refl in E. }
    rewrite E'. simpl. rewrite IH. now destruct (existsb _ _).
Qed.

Lemma mem_In x l : mem x l = true <-> In x l.
Proof.
  unfold mem. rewrite existsb_exists. split.
  - intros (y & Hy & E). apply str_eqb_eq in E. now subst.
  - intros H. exists x. split; [exact H | apply str_eqb_refl].
Qed.

Lemma count_add_NoDup x c :
  NoDup (map fst c) -> NoDup (map fst (count_add x c)).
Proof.
  intros H. rewrite count_add_keys.
  destruct (mem x (map fst c)) eqn:E; [exact H|].
  apply NoDup_app; [exact H | repeat constructor; auto |].
  intros a Ha [<-|[]]. apply mem_In in Ha. congruence.
Qed.

Lemma counter_keys ws :
  forall c, NoDup (map fst c) ->
    let c' := fold_left (fun c x => count_add x c) ws c in
    NoDup (map fst c')
    /\ (forall k, In k (map fst c') <-> In k (map fst c) \/ In k ws).
Proof.
  induction ws as [|x ws IH]; intros c Hc; simpl.
  - split; [exact Hc | tauto].
  - destruct (IH (count_add x c) (count_add_NoDup x c Hc)) as [Hn Hk].
    split; [exact Hn|]. intros k. rewrite Hk, count_add_keys.
    destruct (mem x (map fst c)) eqn:E.
    + apply mem_In in E. split; [tauto|].
      intros [H|[<-|H]]; tauto.
    + rewrite in_app_iff. simpl. tauto.
Qed.

Lemma count_of_entry k n c :
  NoDup (map fst c) -> In (k, n) c -> count_of k c = n.
Proof.
  induction c as [|[k' n'] c IH]; simpl; [tauto|].
  intros Hn [H|H].
  - injection H as -> ->. now rewrite str_eqb_refl.
  - inversion Hn as [|? ? Hnot Hn']; subst.
    destruct (str_eqb k' k) eqn:E; [|now apply IH].
    apply str_eqb_eq in E. subst k'. exfalso. apply Hnot.
    apply in_map_iff. now exists (k, n).
Qed.

(** The counter holds each distinct word once, with its number of
    occurrences. *)
Lemma counter_entries ws k n :
  In (k, n) (counter ws) -> In k ws /\ n = occurrences k ws.
Proof.
  unfold counter. intros H.
  destruct (counter_keys ws [] (NoDup_nil _)) as [Hn Hk].
  split.
  - assert (Hin : In k (map fst (fold_left (fun c x => count_add x c) ws [])))
      by (apply in_map_iff; now exists (k, n)).
    apply Hk in Hin as [[]|Hin]. exact Hin.
  - rewrite <- (count_of_entry k n _ Hn H), count_of_fold. reflexivity.
Qed.

Lemma counter_complete ws k :
  In k ws -> In (k, occurrences k ws) (counter ws).
Proof.
  intros H.
  destruct (counter_keys ws [] (NoDup_nil _)) as [Hn Hk].
  assert (Hin : In k (map fst (counter ws))) by (apply Hk; now right).
  apply in_map_iff in Hin as ([k' n] & Hf & Hin). simpl in Hf. subst k'.
  destruct (counter_entries ws k n Hin) as [_ ->]. exact Hin.
Qed.

Lemma insert_desc_perm x l : Permutation (insert_desc x l) (x :: l).
Proof.
  induction l as [|y l IH]; simpl; [reflexivity|].
  destruct (snd x <? snd y); [|reflexivity].
  rewrite IH. apply perm_swap.
Qed.

Lemma sort_desc_perm l : Permutation (sort_desc l) l.
Proof.
  induction l as [|x l IH]; simpl; [reflexivity|].
  rewrite insert_desc_perm. now constructor.
Qed.

Lemma insert_desc_sorted x l :
  StronglySorted by_count_desc l ->
  StronglySorted by_count_desc (insert_desc x l).
Proof.
  induction 1 as [|y l Hs IH Hy]; simpl.
  - repeat constructor.
  - destruct (snd x <? snd y) eqn:E.
    + constructor; [exact IH|].
      apply Nat.ltb_lt in E.
      rewrite Forall_forall. intros z Hz.
      apply (Permutation_in _ (insert_desc_perm x l)) in Hz as [<-|Hz].
      * unfold by_count_desc. lia.
      * rewrite Forall_forall in Hy. now apply Hy.
    + apply Nat.ltb_ge in E.
      constructor; [now constructor|].
      constructor; [exact E|].
      eapply Forall_impl; [|exact Hy]. unfold by_count_desc. intros z Hz. lia.
Qed.

Lemma sort_desc_sorted l : StronglySorted by_count_desc (sort_desc l).
Proof.
  induction l as [|x l IH]; simpl; [constructor | now apply insert_desc_sorted].
Qed.

Lemma In_firstn {A} (a : A) n l : In a (firstn n l) -> In a l.
Proof.
  intros H. rewrite <- (firstn_skipn n l). apply in_or_app. now left.
Qed.

Lemma In_skipn {A} (a : A) n l : In a (skipn n l) -> In a l.
Proof.
  intros H. rewrite <- (firstn_skipn n l). apply in_or_app. now right.
Qed.

(** In a list sorted by decreasing count, the first [n] entries dominate the
    others. *)
Lemma sorted_firstn_dominates l :
  StronglySorted by_count_desc l ->
  forall n a b, In a (firstn n l) -> In b (skipn n l) -> snd b <= snd a.
Proof.
  induction 1 as [|x l Hs IH Hx]; intros [|n] a b Ha Hb;
    simpl in *; try contradiction.
  destruct Ha as [<-|Ha].
  - rewrite Forall_forall in Hx. apply Hx. eapply In_skipn. exact Hb.
  - now apply (IH n).
Qed.

Lemma most_common_dominates (ws : list str) (n : nat) (t w : str) :
  let tags := map fst (most_common n (counter ws)) in
  In t tags -> In w ws -> ~ In w tags ->
  occurrences w ws <= occurrences t ws.
Proof.
  intros tags Ht Hw Hnw. unfold tags, most_common in *.
  apply in_map_iff in Ht as ([t' nt] & Hf & Ht). simpl in Hf. subst t'.
  pose proof (counter_complete ws w Hw) as Hcw.
  apply (Permutation_in _ (Permutation_sym (sort_desc_perm _))) in Hcw.
  rewrite <- (firstn_skipn n (sort_desc (counter ws))) in Hcw.
  apply in_app_or in Hcw as [Hcw|Hcw].
  - exfalso. apply Hnw. apply in_map_iff. now exists (w, occurrences w ws).
  - pose proof (sorted_firstn_dominates _ (sort_desc_sorted (counter ws))
                  n _ _ Ht Hcw) as Hle.
    simpl in Hle.
    assert (Hin : In (t, nt) (counter ws)).
    { apply (Permutation_in _ (sort_desc_perm _)).
      eapply In_firstn. exact Ht. }
    destruct (counter_entries ws t nt Hin) as [_ ->]. exact Hle.
Qed.

Lemma most_common_tokens (ws : list str) (n : nat) :
  incl (map fst (most_common n (counter ws))) ws.
Proof.
  intros t Ht. unfold most_common in Ht.
  apply in_map_iff in Ht as ([t' nt] & Hf & Ht). simpl in Hf. subst t'.
  assert (Hin : In (t, nt) (counter ws)).
  { apply (Permutation_in _ (sort_desc_perm _)).
    eapply In_firstn. exact Ht. }
  now destruct (counter_entries ws t nt Hin).
Qed.

Lemma NoDup_firstn {A} n (l : list A) : NoDup l -> NoDup (firstn n l).
Proof.
  intros H. rewrite <- (firstn_skipn n l) in H.
  now apply NoDup_app_remove_r in H.
Qed.

Lemma counter_NoDup ws : NoDup (map fst (counter ws)).
Proof. exact (proj1 (counter_keys ws [] (NoDup_nil _))). Qed.

Lemma most_common_NoDup (ws : list str) (n : nat) :
  NoDup (map fst (most_common n (counter ws))).
Proof.
  unfold most_common. rewrite <- firstn_map. apply NoDup_firstn.
  apply (Permutation_NoDup
           (Permutation_sym (Permutation_map fst (sort_desc_perm (counter ws))))).
  apply counter_NoDup.
Qed.

(** The counter has one entry for each distinct word. *)
Lemma counter_length (ws : list str) :
  List.length (counter ws)
  = List.length (nodup (list_eq_dec ascii_dec) ws).
Proof.
  rewrite <- (length_map fst). apply Permutation_length.
  apply NoDup_Permutation;
    [apply counter_NoDup | apply NoDup_nodup |].
  intros k. rewrite nodup_In.
  destruct (counter_keys ws [] (NoDup_nil _)) as [_ H]. cbv zeta in H.
  unfold counter. rewrite H. cbn. tauto.
Qed.

Lemma most_common_length (ws : list str) (n : nat) :
  List.length (most_common n (counter ws))
  = Nat.min n (List.length (nodup (list_eq_dec ascii_dec) ws)).
Proof.
  unfold most_common. rewrite length_firstn.
  now rewrite (Permutation_length (sort_desc_perm (counter ws))), counter_length.
Qed.

(** C8. Tag extraction returns at most [max_tags] tags and no tag of one
    character, and it cannot raise. When the keyword extractor answers, the
    tags are its keywords of more than one character, cut at [max_tags].
    When it raises, the words of the cleaned, lower-cased text are counted,
    a word being a run of at least three letters found by the word pattern:
    the tags are pairwise distinct words, as many as [max_tags] allows (all
    the distinct words when there are fewer), and no word left out occurs
    more often than a tag: they are the most frequent ones. *)
Theorem tags_bounded_and_fallback
    (jb : str -> nat -> option (list str)) (content : str) (max_tags : nat) :
  let cleaned := strip_markup content in
  let tags := extract_tags_from_content jb content max_tags in
  List.length tags <= max_tags
  /\ Forall (fun t => List.length t <> 1) tags
  /\ match jb cleaned max_tags with
     | Some keywords =>
         tags = firstn max_tags
                  (filter (fun kw => 1 <? List.length kw) keywords)
     | None =>
         let words := map item_str (re_findall word_re (lower cleaned)) in
         NoDup tags
         /\ List.length tags
            = Nat.min max_tags
                (List.length (nodup (list_eq_dec ascii_dec) words))
         /\ Forall (fun t => In t words /\ 3 <= List.length t
                             /\ forallb is_alpha t = true) tags
         /\ (forall t w, In t tags -> In w words -> ~ In w tags ->
                         occurrences w words <= occurrences t words)
     end.
Proof.
  intros cleaned tags. unfold tags, extract_tags_from_content.
  fold cleaned. destruct (jb cleaned max_tags) as [keywords|].
  - split; [apply firstn_le_length|]. split; [|reflexivity].
    apply Forall_forall. intros t Ht. apply In_firstn in Ht.
    apply filter_In in Ht as [_ Ht]. apply Nat.ltb_lt in Ht. lia.
  - unfold fallback_tags. cbv zeta.
    set (words := map item_str (re_findall word_re (lower cleaned))).
    assert (Htok : Forall (fun t => In t words /\ 3 <= List.length t
                             /\ forallb is_alpha t = true)
                     (map fst (most_common max_tags (counter words)))).
    { apply Forall_forall. intros t Ht.
      pose proof (most_common_tokens words max_tags t Ht) as Hin.
      split; [exact Hin|].
      pose proof (word_tokens (lower cleaned)) as Hw.
      rewrite Forall_forall in Hw. now apply Hw. }
    split.
    { rewrite length_map. unfold most_common. apply firstn_le_length. }
    split.
    { eapply Forall_impl; [|exact Htok]. intros t (_ & Hl & _). lia. }
    split; [apply most_common_NoDup|].
    split; [rewrite length_map; apply most_common_length|].
    split; [exact Htok|].
    intros t w. apply most_common_dominates.
Qed.

(** ** Rewriting references *)

Lemma parse_template_plain_app n s rest :
  no_backslash s ->
  parse_template n (s ++ rest)
  = option_map (app (map lit1 s)) (parse_template n rest).
Proof.
  unfold no_backslash. induction s as [|c s IH]; simpl; intros H.
  - destruct (parse_template n rest); reflexivity.
  - apply andb_prop in H as [Hc Hs]. apply negb_true_iff in Hc. rewrite Hc.
    rewrite (IH Hs). destruct (parse_template n rest); reflexivity.
Qed.

Lemma expand_app t1 t2 cs : expand (t1 ++ t2) cs = expand t1 cs ++ expand t2 cs.
Proof. unfold expand. now rewrite map_app, concat_app. Qed.

Lemma expand_plain s cs : expand (map lit1 s) cs = s.
Proof.
  unfold expand. induction s as [|c s IH]; simpl; [reflexivity|]. now rewrite IH.
Qed.

(** The template of the markdown replacement. *)
Lemma md_repl_template new :
  no_backslash new ->
  exists t,
    parse_template 1 (md_repl new) = Some t
    /\ forall cs, expand t cs
                  = txt "![" ++ group 1 cs ++ txt "](" ++ new ++ txt ")".
Proof.
  intros Hn. unfold md_repl.
  exists ([TLit (txt "!"); TLit (txt "["); TRef 1; TLit (txt "]"); TLit (txt "(")]
            ++ map lit1 new ++ [TLit (txt ")")]).
  split.
  - cbn -[parse_template].
    change (parse_template 1
              ("!"%char :: "["%char :: backslash :: "1"%char :: "]"%char
                 :: "("%char :: new ++ txt ")")
            = Some (TLit (txt "!") :: TLit (txt "[") :: TRef 1 :: TLit (txt "]")
                      :: TLit (txt "(") :: map lit1 new ++ [TLit (txt ")")])).
    cbn [parse_template]. cbn -[parse_template].
    rewrite (parse_template_plain_app 1 new [")"%char] Hn). reflexivity.
  - intros cs. rewrite expand_app, expand_app, expand_plain.
    unfold expand. cbn. now rewrite <- app_assoc.
Qed.

Lemma is_refl c : is_ c c = true.
Proof. apply Ascii.eqb_refl. Qed.

Lemma md_ref_cons alt p rest :
  md_ref alt p ++ rest
  = "!"%char :: "["%char :: alt ++ "]"%char :: "("%char :: p ++ ")"%char :: rest.
Proof.
  unfold md_ref. cbn. rewrite <- !app_assoc. cbn. rewrite <- !app_assoc.
  reflexivity.
Qed.

Lemma md_ref_re_hit old prev alt rest :
  no_rbracket alt ->
  match_at (md_ref_re old) prev (md_ref alt old ++ rest)
  = Some (rest, [(1, alt)]).
Proof.
  intros Ha. unfold match_at, md_ref_re. cbn [seqs].
  rewrite md_ref_cons. cbn [mtch]. rewrite !is_refl.
  erewrite many_longest; [reflexivity | exact Ha | | reflexivity].
  cbv beta iota. rewrite firstn_app_length, !is_refl.
  rewrite mtch_lit, starts_with_app, skipn_length_app.
  cbn [mtch]. rewrite is_refl. reflexivity.
Qed.

Lemma md_ref_re_inv old prev s rest cs :
  match_at (md_ref_re old) prev s = Some (rest, cs) ->
  exists alt, no_rbracket alt /\ s = md_ref alt old ++ rest /\ cs = [(1, alt)].
Proof.
  unfold match_at, md_ref_re. cbn [seqs mtch].
  destruct s as [|c1 s]; [discriminate|].
  destruct (is_ "!" c1) eqn:E1; [|discriminate].
  destruct s as [|c2 s]; [discriminate|].
  destruct (is_ "[" c2) eqn:E2; [|discriminate].
  intros H. apply many_inv in H as (alt & b & -> & Ha & Hk).
  rewrite firstn_app_length in Hk.
  destruct b as [|c3 b]; [discriminate|].
  destruct (is_ "]" c3) eqn:E3; [|discriminate].
  destruct b as [|c4 b]; [discriminate|].
  destruct (is_ "(" c4) eqn:E4; [|discriminate].
  rewrite mtch_lit in Hk.
  destruct (starts_with old b) eqn:Es; [|discriminate].
  apply starts_with_inv in Es.
  destruct (skipn (List.length old) b) as [|c5 r]; [discriminate|].
  cbn [mtch] in Hk.
  destruct (is_ ")" c5) eqn:E5; [|discriminate].
  unfold accept in Hk. injection Hk as <- <-.
  unfold is_ in *.
  apply Ascii.eqb_eq in E1, E2, E3, E4, E5. subst c1 c2 c3 c4 c5.
  exists alt. split; [exact Ha|]. split; [|reflexivity].
  rewrite md_ref_cons, Es. reflexivity.
Qed.

Lemma sub_from_md_rewrite old new t :
  (forall cs, expand t cs = txt "![" ++ group 1 cs ++ txt "](" ++ new ++ txt ")") ->
  forall n s prev, List.length s <= n ->
    md_rewrite old new s (sub_from (md_ref_re old) t 0 prev s).
Proof.
  intros Ht. induction n as [|n IH]; intros s prev Hn.
  - destruct s; [constructor | simpl in Hn; lia].
  - destruct s as [|c s]; [constructor|].
    destruct (match_at (md_ref_re old) prev (c :: s)) as [[rest cs]|] eqn:E.
    + destruct (md_ref_re_inv _ _ _ _ _ E) as (alt & Ha & Hs & ->).
      rewrite Hs in E |- *.
      rewrite (sub_from_hit_app _ _ _ _ _ _ E), Ht
        by (unfold md_ref; discriminate).
      change (txt "![" ++ group 1 [(1, alt)] ++ txt "](" ++ new ++ txt ")")
        with (md_ref alt new).
      apply md_replace; [exact Ha|]. apply IH.
      apply (f_equal (@List.length ascii)) in Hs.
      rewrite md_ref_cons in Hs. simpl in Hs, Hn.
      rewrite !length_app in Hs. simpl in Hs. rewrite !length_app in Hs.
      simpl in Hs. lia.
    + rewrite (sub_from_miss _ _ _ _ _ E).
      apply md_keep; [|apply IH; simpl in Hn; lia].
      intros alt rest Ha Hs. rewrite Hs, md_ref_re_hit in E by exact Ha.
      discriminate.
Qed.

(** Backtracking: a greedy repetition that fails has no reading at all that
    the continuation accepts; one that succeeds took the longest such
    reading. *)
Lemma many_none p (k : cont) s :
  forall prev cs,
    many p k prev s cs = None ->
    forall a b, s = a ++ b -> forallb p a = true ->
                k (prev_after prev a) b cs = None.
Proof.
  induction s as [|c s IH]; intros prev cs H a b Hs Ha.
  - destruct a; [|discriminate]. simpl in Hs. subst b. exact H.
  - simpl in H. destruct (p c) eqn:E.
    + destruct (many p k (Some c) s cs) eqn:M; [discriminate|].
      destruct a as [|c' a]; simpl in Hs.
      * subst b. exact H.
      * injection Hs as <- ->. simpl in Ha. apply andb_prop in Ha as [_ Ha].
        now apply (IH _ _ M).
    + destruct a as [|c' a]; simpl in Hs.
      * subst b. exact H.
      * injection Hs as <- ->. simpl in Ha. rewrite E in Ha. discriminate.
Qed.

Lemma many_some_longest p (k : cont) s :
  forall prev cs r,
    many p k prev s cs = Some r ->
    exists a b,
      s = a ++ b /\ forallb p a = true
      /\ k (prev_after prev a) b cs = Some r
      /\ forall a' b', s = a' ++ b' -> forallb p a' = true ->
                       List.length a < List.length a' ->
                       k (prev_after prev a') b' cs = None.
Proof.
  induction s as [|c s IH]; intros prev cs r H.
  - exists [], []. repeat split; auto.
    intros a' b' Hs _ Hl. destruct a'; [simpl in Hl; lia | discriminate].
  - simpl in H. destruct (p c) eqn:E.
    + destruct (many p k (Some c) s cs) as [r'|] eqn:M.
      * injection H as ->.
        destruct (IH _ _ _ M) as (a & b & -> & Ha & Hk & Hmax).
        exists (c :: a), b. simpl. rewrite E, Ha. repeat split; auto.
        intros a' b' Hs Ha' Hl. destruct a' as [|c' a']; [simpl in Hl; lia|].
        simpl in Hs. injection Hs as <- Hs. simpl in Ha'.
        apply andb_prop in Ha' as [_ Ha']. simpl in Hl.
        apply (Hmax a' b' Hs Ha'). lia.
      * exists [], (c :: s). repeat split; auto.
        intros a' b' Hs Ha' Hl. destruct a' as [|c' a']; [simpl in Hl; lia|].
        simpl in Hs. injection Hs as <- ->. simpl in Ha'.
        apply andb_prop in Ha' as [_ Ha'].
        now apply (many_none p k _ _ _ M).
    + exists [], (c :: s). repeat split; auto.
      intros a' b' Hs Ha' Hl. destruct a' as [|c' a']; [simpl in Hl; lia|].
      simpl in Hs. injection Hs as <- ->. simpl in Ha'. rewrite E in Ha'.
      discriminate.
Qed.

Lemma html_tail_hit old prev q1 q2 b rest cs :
  quotes q1 = true -> quotes q2 = true -> no_gt b ->
  mtch (html_tail_re old) accept prev (html_tail q1 old q2 b ++ rest) cs
  = Some (rest, (2, b) :: cs).
Proof.
  intros H1 H2 Hb. unfold html_tail_re, html_tail. cbn [seqs].
  cbn [mtch]. rewrite mtch_lit.
  replace ((txt "src=" ++ q1 :: old ++ q2 :: b ++ [">"%char]) ++ rest)
    with (txt "src=" ++ q1 :: old ++ q2 :: b ++ ">"%char :: rest)
    by (cbn; rewrite <- !app_assoc; cbn; rewrite <- !app_assoc; reflexivity).
  rewrite starts_with_app, skipn_length_app. cbn [mtch]. rewrite H1.
  rewrite mtch_lit, starts_with_app, skipn_length_app. cbn [mtch]. rewrite H2.
  rewrite many_commit.
  - destruct (take_while_app (not_ ">") b (">"%char :: rest) Hb eq_refl)
      as [_ Hd].
    rewrite Hd. rewrite is_refl. unfold accept.
    now rewrite firstn_app_length.
  - intros prev' c s' cs' Hc. cbn [mtch].
    unfold not_, is_ in *. apply negb_true_iff in Hc. now rewrite Hc.
Qed.

Lemma html_tail_inv old prev s cs rest cs' :
  mtch (html_tail_re old) accept prev s cs = Some (rest, cs') ->
  exists q1 q2 b,
    quotes q1 = true /\ quotes q2 = true /\ no_gt b
    /\ s = html_tail q1 old q2 b ++ rest /\ cs' = (2, b) :: cs.
Proof.
  unfold html_tail_re. cbn [seqs mtch]. rewrite mtch_lit.
  destruct (starts_with (txt "src=") s) eqn:E0; [|discriminate].
  apply starts_with_inv in E0.
  set (s0 := skipn (List.length (txt "src=")) s) in *. clearbody s0. subst s.
  destruct s0 as [|q1 s1]; [discriminate|].
  cbn [mtch]. destruct (quotes q1) eqn:H1; [|discriminate].
  rewrite mtch_lit.
  destruct (starts_with old s1) eqn:E1; [|discriminate].
  apply starts_with_inv in E1.
  set (s2' := skipn (List.length old) s1) in *. clearbody s2'. subst s1.
  destruct s2' as [|q2 s2]; [discriminate|].
  cbn [mtch]. destruct (quotes q2) eqn:H2; [|discriminate].
  intros H. apply many_inv in H as (b & b' & -> & Hb & Hk).
  destruct b' as [|c r]; [discriminate|].
  destruct (is_ ">" c) eqn:Ec; [|discriminate].
  unfold is_ in Ec. apply Ascii.eqb_eq in Ec. subst c.
  unfold accept in Hk. rewrite firstn_app_length in Hk.
  injection Hk as <- <-.
  exists q1, q2, b. repeat split; auto.
  unfold html_tail. cbn. rewrite <- !app_assoc. cbn. rewrite <- !app_assoc.
  reflexivity.
Qed.

Lemma html_ref_re_unfold old :
  html_ref_re old
  = Seq (lit (txt "<img")) (Seq (Group 1 (Plus (not_ ">"))) (html_tail_re old)).
Proof. reflexivity. Qed.

Lemma html_ref_match old prev s1 :
  match_at (html_ref_re old) prev (txt "<img" ++ s1) =
  match s1 with
  | [] => None
  | c :: s1' =>
      if not_ ">" c then
        many (not_ ">")
          (fun prev' s' cs' =>
             mtch (html_tail_re old) accept prev' s'
               ((1, firstn (List.length s1 - List.length s') s1) :: cs'))
          (Some c) s1' []
      else None
  end.
Proof.
  unfold match_at. rewrite html_ref_re_unfold. cbn [mtch].
  rewrite mtch_lit, starts_with_app, skipn_length_app.
  unfold Plus. cbn [mtch]. destruct s1; reflexivity.
Qed.

Lemma html_ref_no_img old prev s :
  starts_with (txt "<img") s = false ->
  match_at (html_ref_re old) prev s = None.
Proof.
  intros H. unfold match_at. rewrite html_ref_re_unfold. cbn [mtch].
  now rewrite mtch_lit, H.
Qed.

Lemma html_tag_split a q1 p q2 b rest :
  html_tag a q1 p q2 b ++ rest = txt "<img" ++ a ++ html_tail q1 p q2 b ++ rest.
Proof. unfold html_tag. now rewrite <- !app_assoc. Qed.

Lemma html_ref_re_none old prev s :
  match_at (html_ref_re old) prev s = None ->
  forall a q1 q2 b rest,
    html_ok a q1 q2 b -> s <> html_tag a q1 old q2 b ++ rest.
Proof.
  intros H a q1 q2 b rest (Hne & Ha & H1 & H2 & Hb) Hs.
  rewrite Hs, html_tag_split, html_ref_match in H.
  destruct a as [|c a]; [now elim Hne|].
  cbn [app] in H. unfold no_gt in Ha. simpl in Ha.
  apply andb_prop in Ha as [Hc Ha]. rewrite Hc in H.
  pose proof (many_none _ _ _ _ _ H a _ eq_refl Ha) as K.
  cbv beta in K. rewrite html_tail_hit in K by assumption. discriminate.
Qed.

Lemma html_ref_re_inv old prev s rest cs :
  match_at (html_ref_re old) prev s = Some (rest, cs) ->
  exists a q1 q2 b,
    html_ok a q1 q2 b
    /\ s = html_tag a q1 old q2 b ++ rest
    /\ cs = [(2, b); (1, a)]
    /\ forall a' q1' q2' b' rest',
         html_ok a' q1' q2' b' ->
         s = html_tag a' q1' old q2' b' ++ rest' ->
         List.length a' <= List.length a.
Proof.
  intros H.
  destruct (starts_with (txt "<img") s) eqn:E0;
    [|now rewrite html_ref_no_img in H].
  apply starts_with_inv in E0. rewrite E0 in H |- *.
  set (s1 := skipn (List.length (txt "<img")) s) in *. clearbody s1. clear E0.
  rewrite html_ref_match in H.
  destruct s1 as [|c s1]; [discriminate|].
  destruct (not_ ">" c) eqn:Hc; [|discriminate].
  apply many_some_longest in H as (a0 & b0 & -> & Ha0 & Hk & Hmax).
  cbv beta in Hk.
  apply html_tail_inv in Hk as (q1 & q2 & b & H1 & H2 & Hb & -> & ->).
  change (c :: a0 ++ html_tail q1 old q2 b ++ rest)
    with ((c :: a0) ++ html_tail q1 old q2 b ++ rest).
  rewrite firstn_app_length.
  exists (c :: a0), q1, q2, b.
  assert (Hok : html_ok (c :: a0) q1 q2 b).
  { repeat split; auto; [discriminate|]. unfold no_gt. simpl. now rewrite Hc, Ha0. }
  split; [exact Hok|]. split; [now rewrite html_tag_split|].
  split; [reflexivity|].
  intros a' q1' q2' b' rest' (Hne' & Ha' & H1' & H2' & Hb') Hs.
  rewrite html_tag_split in Hs. apply app_inv_head in Hs.
  destruct a' as [|c' a']; [now elim Hne'|].
  cbn [app] in Hs.
  assert (Hs2 : a0 ++ html_tail q1 old q2 b ++ rest
                = a' ++ html_tail q1' old q2' b' ++ rest') by congruence.
  clear Hs. rename Hs2 into Hs.
  unfold no_gt in Ha'. simpl in Ha'. apply andb_prop in Ha' as [_ Ha'].
  destruct (Nat.le_gt_cases (List.length (c' :: a')) (List.length (c :: a0)))
    as [Hle|Hgt]; [exact Hle|].
  simpl in Hgt. exfalso.
  assert (Hl : List.length a0 < List.length a') by lia.
  pose proof (Hmax a' _ Hs Ha' Hl) as K. cbv beta in K.
  rewrite html_tail_hit in K by assumption. discriminate.
Qed.

(** The template of the img replacement. *)
Lemma html_repl_template new :
  no_backslash new ->
  exists t,
    parse_template 2 (html_repl new) = Some t
    /\ forall cs, expand t cs
                  = html_tag (group 1 cs) dquote new dquote (group 2 cs).
Proof.
  intros Hn. unfold html_repl.
  exists (map lit1 (txt "<img") ++ [TRef 1] ++ map lit1 (txt "src=" ++ [dquote])
            ++ map lit1 new ++ [lit1 dquote; TRef 2; lit1 ">"%char]).
  split.
  - change (parse_template 2
              ("<"%char :: "i"%char :: "m"%char :: "g"%char :: backslash
                 :: "1"%char :: "s"%char :: "r"%char :: "c"%char :: "="%char
                 :: dquote
                 :: new ++ dquote :: backslash :: "2"%char :: [">"%char])
            = Some (map lit1 (txt "<img") ++ [TRef 1]
                      ++ map lit1 (txt "src=" ++ [dquote])
                      ++ map lit1 new ++ [lit1 dquote; TRef 2; lit1 ">"%char])).
    cbn [parse_template]. cbn -[parse_template].
    rewrite (parse_template_plain_app 2 new _ Hn). reflexivity.
  - intros cs. rewrite !expand_app, !expand_plain.
    unfold html_tag, html_tail, expand. cbn. rewrite <- !app_assoc.
    cbn. reflexivity.
Qed.

Lemma html_tag_length a q1 p q2 b :
  List.length (html_tag a q1 p q2 b)
  = 11 + List.length a + List.length p + List.length b.
Proof.
  unfold html_tag, html_tail. cbn. rewrite !length_app. cbn.
  rewrite !length_app. cbn. rewrite !length_app. cbn. lia.
Qed.

Lemma sub_from_html_rewrite old new t :
  (forall cs, expand t cs
              = html_tag (group 1 cs) dquote new dquote (group 2 cs)) ->
  forall n s prev, List.length s <= n ->
    html_rewrite old new s (sub_from (html_ref_re old) t 0 prev s).
Proof.
  intros Ht. induction n as [|n IH]; intros s prev Hn.
  - destruct s; [constructor | simpl in Hn; lia].
  - destruct s as [|c s]; [constructor|].
    destruct (match_at (html_ref_re old) prev (c :: s)) as [[rest cs]|] eqn:E.
    + destruct (html_ref_re_inv _ _ _ _ _ E)
        as (a & q1 & q2 & b & Hok & Hs & -> & Hmax).
      rewrite Hs in E |- *.
      rewrite (sub_from_hit_app _ _ _ _ _ _ E), Ht
        by (unfold html_tag; discriminate).
      change (group 1 [(2, b); (1, a)]) with a.
      change (group 2 [(2, b); (1, a)]) with b.
      apply html_replace; [exact Hok | | ].
      * intros a' q1' q2' b' r' Hok' Hs'. apply (Hmax a' q1' q2' b' r' Hok').
        now rewrite Hs.
      * apply IH. apply (f_equal (@List.length ascii)) in Hs.
        rewrite length_app, html_tag_length in Hs. simpl in Hs, Hn. lia.
    + rewrite (sub_from_miss _ _ _ _ _ E).
      apply html_keep; [|apply IH; simpl in Hn; lia].
      now apply html_ref_re_none with (prev := prev).
Qed.

Lemma group_count_lit s : group_count (lit s) = 0.
Proof. induction s; simpl; auto. Qed.

Lemma group_count_html_ref old : group_count (html_ref_re old) = 2.
Proof.
  unfold html_ref_re. cbn [seqs group_count Plus].
  rewrite !group_count_lit. reflexivity.
Qed.

Lemma group_count_md_ref old : group_count (md_ref_re old) = 1.
Proof.
  unfold md_ref_re. cbn [seqs group_count]. rewrite group_count_lit. reflexivity.
Qed.

Lemma re_sub_repl_md old new content :
  no_backslash new ->
  exists out,
    re_sub_repl (md_ref_re old) (md_repl new) content = Some out
    /\ md_rewrite old new content out.
Proof.
  intros Hn. destruct (md_repl_template new Hn) as (t & Hp & Ht).
  unfold re_sub_repl. rewrite group_count_md_ref.
  rewrite Hp. eexists. split; [reflexivity|].
  apply (sub_from_md_rewrite old new t Ht (List.length content)). lia.
Qed.

Lemma re_sub_repl_html old new content :
  no_backslash new ->
  exists out,
    re_sub_repl (html_ref_re old) (html_repl new) content = Some out
    /\ html_rewrite old new content out.
Proof.
  intros Hn. destruct (html_repl_template new Hn) as (t & Hp & Ht).
  unfold re_sub_repl. rewrite group_count_html_ref.
  rewrite Hp. eexists. split; [reflexivity|].
  apply (sub_from_html_rewrite old new t Ht (List.length content)). lia.
Qed.

(** ** Headings and images inside code fences *)


Lemma title_re_needs_hash prev c s :
  is_ "#" c = false -> match_at title_re prev (c :: s) = None.
Proof.
  intros H. unfold match_at, title_re. cbn [seqs mtch].
  destruct (at_bol prev); [now rewrite H | reflexivity].
Qed.


Lemma prev_after_last prev m c : prev_after prev (m ++ [c]) = Some c.
Proof. revert prev; induction m as [|d m IH]; intros prev; simpl; auto. Qed.


Lemma search_from_unfold r prev s :
  search_from r prev s =
  match match_at r prev s with
  | Some (_, cs) => Some cs
  | None =>
      match s with
      | [] => None
      | c :: s' => search_from r (Some c) s'
      end
  end.
Proof. destruct s; reflexivity. Qed.














Lemma forallb_weaken (p q : ascii -> bool) s :
  (forall c, p c = true -> q c = true) ->
  forallb p s = true -> forallb q s = true.
Proof.
  intros H. induction s as [|c s IH]; simpl; [auto|].
  intros Hs. apply andb_prop in Hs as [Hc Hs]. now rewrite (H c Hc), IH.
Qed.










(** ** Where the script departs from its description *)

(** C1 (defect). A reference written with a percent escape resolves and its
    file is copied into the store, but the text keeps the reference as
    written: it does not come out as a path under /images/. *)
Theorem percent_encoded_reference_copied_not_rewritten :
  let r := find_and_copy_images sample_migrator encoded_text
             (path_of (txt "/notes")) encoded_world in
  find_image_file sample_migrator encoded_world (unquote (txt "my%20pic.png"))
    (path_of (txt "/notes"))
    = Some (path_of (txt "/notes/my pic.png"))
  /\ is_file encoded_world (path_of (txt "/repo/images/0b75926a.png")) = false
  /\ is_file (snd r) (path_of (txt "/repo/images/0b75926a.png")) = true
  /\ (exists m, fst r = Ok m /\ update_image_paths encoded_text m = Some encoded_text).
Proof.
  cbv zeta. split; [vm_compute; reflexivity|].
  split; [vm_compute; reflexivity|].
  split; [vm_compute; reflexivity|].
  eexists. split; vm_compute; reflexivity.
Qed.

(** C5 (defect). The mapping entry of a reference written with a percent
    escape is keyed by the decoded path, not by the reference as written. *)
Theorem mapping_keyed_by_decoded_path :
  fst (find_and_copy_images sample_migrator encoded_text
         (path_of (txt "/notes")) encoded_world)
    = Ok [(txt "my pic.png", txt "/images/0b75926a.png")]
  /\ re_findall md_image_re encoded_text
     = [FTuple [txt "shot"; txt "my%20pic.png"]]
  /\ txt "my pic.png" <> txt "my%20pic.png".
Proof.
  split; [vm_compute; reflexivity|].
  split; [vm_compute; reflexivity|]. discriminate.
Qed.

(** C6 (defect). The whitespace after the hash sign may run over line ends:
    a line holding only a hash sign makes the next non-blank line the title,
    before the first real heading line and instead of the file name. *)
Theorem bare_hash_line_takes_next_line_as_title (self : migrator) (w : world) :
  fst (extract_title_from_content self bare_hash_text w) = Ok (txt "foo")
  /\ fst (extract_title_from_content self (txt "#" ++ nl ++ txt "foo") w)
     = Ok (txt "foo").
Proof. split; reflexivity. Qed.

(** ** Further properties of the resolver and of the title *)

Lemma copy_match_remote self dir copied m w :
  is_remote (unquote (match_path m)) = true ->
  copy_match self dir copied m w = (Ok copied, w).
Proof.
  unfold is_remote, match_path, copy_match. intros H.
  destruct m; cbv zeta; rewrite H; reflexivity.
Qed.

Lemma foldM_copy_match_remote self dir items :
  Forall (fun m => is_remote (unquote (match_path m)) = true) items ->
  forall copied w,
    foldM (copy_match self dir) items copied w = (Ok copied, w).
Proof.
  induction 1 as [|m items Hm _ IH]; intros copied w; [reflexivity|].
  cbn [foldM]. unfold bind. rewrite (copy_match_remote _ _ _ _ _ Hm).
  apply IH.
Qed.

(** A document all of whose image references are remote (their decoded
    paths start with http:// or https://) is left alone by the resolver and
    by the rewriting: [find_and_copy_images] returns the empty mapping
    without looking up, reading or copying anything, the world is what it
    was, and [update_image_paths] with that mapping returns the text as it
    is. *)
Theorem remote_images_are_left_alone
    (self : migrator) (content : str) (source_dir : path) (w : world) :
  Forall (fun r => is_remote (unquote r) = true) (references content) ->
  find_and_copy_images self content source_dir w = (Ok [], w)
  /\ update_image_paths content [] = Some content.
Proof.
  intros H. split; [|reflexivity].
  unfold references, image_patterns in H. cbn [flat_map] in H.
  rewrite app_nil_r in H. apply Forall_app in H as [H1 H2].
  rewrite Forall_map in H1, H2.
  unfold find_and_copy_images, image_patterns. cbn [foldM]. unfold bind.
  rewrite (foldM_copy_match_remote _ _ _ H1).
  rewrite (foldM_copy_match_remote _ _ _ H2). reflexivity.
Qed.

Lemma remote_images_are_left_alone_witness :
  references remote_text
  = [txt "https://example.org/logo.png"; txt "http://example.org/b.png"]
  /\ find_and_copy_images sample_migrator remote_text (path_of (txt "/notes"))
       image_world
     = (Ok [], image_world)
  /\ update_image_paths remote_text [] = Some remote_text.
Proof.
  assert (R : references remote_text
              = [txt "https://example.org/logo.png";
                 txt "http://example.org/b.png"])
    by (vm_compute; reflexivity).
  split; [exact R|].
  apply (remote_images_are_left_alone sample_migrator remote_text
           (path_of (txt "/notes")) image_world).
  rewrite R. constructor; [reflexivity|]. constructor; [reflexivity|].
  constructor.
Defined.

Lemma dict_set_values (P : str -> Prop) d k v :
  P v -> Forall (fun kv => P (snd kv)) d ->
  Forall (fun kv => P (snd kv)) (dict_set d k v).
Proof.
  intros Hv. induction 1 as [|[k' v'] d Hd Hrest IH]; simpl.
  - repeat constructor. exact Hv.
  - destruct (str_eqb k' k); constructor; auto.
Qed.

Lemma returns_foldM {A B} (I : B -> Prop) (f : B -> A -> M B) l :
  (forall b a, I b -> returns I (f b a)) ->
  forall b, I b -> returns I (foldM f l b).
Proof.
  intros Hf. induction l as [|a l IH]; intros b Hb w r w'; simpl.
  - intros [= <- _]. exact Hb.
  - unfold bind. destruct (f b a w) as [[b'|e] w1] eqn:E; [|discriminate].
    apply IH. exact (Hf b a Hb w b' w1 E).
Qed.

Lemma hex_not_backslash c :
  is_hex_lower c = true -> negb (Ascii.eqb c backslash) = true.
Proof.
  destruct c as [[] [] [] [] [] [] [] []]; vm_compute; congruence.
Qed.

Lemma no_backslash_app a b : no_backslash a -> no_backslash b -> no_backslash (a ++ b).
Proof. unfold no_backslash. intros Ha Hb. now rewrite forallb_app, Ha, Hb. Qed.

Lemma generate_image_filename_shape p :
  returns (fun n => exists data,
               n = firstn 8 (MD5.hexdigest data) ++ lower (suffix p))
          (generate_image_filename p).
Proof.
  unfold generate_image_filename. intros w n w'. unfold bind.
  destruct (read_bytes p w) as [[data|e] w1]; [|discriminate].
  intros [= <- _]. now exists data.
Qed.

Lemma copy_match_store_paths self dir copied m :
  Forall no_backslash (supported_image_extensions self) ->
  Forall (fun kv => store_path (snd kv)) copied ->
  returns (Forall (fun kv => store_path (snd kv)))
          (copy_match self dir copied m).
Proof.
  intros Hext Hc w r w'. unfold copy_match. cbv zeta.
  destruct (_ || _); [intros [= <- _]; exact Hc|].
  unfold bind at 1. cbn [get_world].
  destruct (find_image_file self w _ dir) as [src|] eqn:F;
    [|intros [= <- _]; exact Hc].
  unfold bind.
  destruct (generate_image_filename src w) as [[n|e] w1] eqn:G; [|discriminate].
  destruct (copy2 src _ w1) as [[u|e] w2]; [|discriminate].
  intros [= <- _]. apply dict_set_values; [|exact Hc].
  destruct (generate_image_filename_shape src w n w1 G) as (data & ->).
  split; [reflexivity|].
  apply (no_backslash_app (txt "/images/")); [reflexivity|].
  apply no_backslash_app.
  - unfold no_backslash. eapply forallb_weaken; [apply hex_not_backslash|].
    apply forallb_firstn, hexdigest_hex.
  - unfold find_image_file in F. apply find_some in F as [_ F].
    apply andb_prop in F as [_ F]. apply mem_In in F.
    rewrite Forall_forall in Hext. now apply Hext.
Qed.

(** Every new path recorded by the resolver lies under /images/ and holds
    no backslash, whatever the document and the file system are. *)
Theorem resolver_records_store_paths
    (self : migrator) (content : str) (source_dir : path)
    (w w' : world) (m : list (str * str)) :
  Forall no_backslash (supported_image_extensions self) ->
  find_and_copy_images self content source_dir w = (Ok m, w') ->
  Forall (fun kv => store_path (snd kv)) m /\ plain_targets m.
Proof.
  intros Hext H.
  assert (Hs : Forall (fun kv => store_path (snd kv)) m).
  { revert H. unfold find_and_copy_images.
    apply (returns_foldM (Forall (fun kv => store_path (snd kv)))).
    - intros b r Hb. apply returns_foldM; [|exact Hb].
      intros b' a Hb'. now apply copy_match_store_paths.
    - constructor. }
  split; [exact Hs|].
  unfold plain_targets. eapply Forall_impl; [|exact Hs]. now intros kv [_ H'].
Qed.

Lemma resolver_records_store_paths_witness :
  Forall (fun kv => store_path (snd kv))
    [(txt "pic.png", txt "/images/0b75926a.png")]
  /\ plain_targets [(txt "pic.png", txt "/images/0b75926a.png")].
Proof.
  apply (resolver_records_store_paths sample_migrator
           (txt "![x](pic.png)") (path_of (txt "/notes")) image_world
           (snd (find_and_copy_images sample_migrator (txt "![x](pic.png)")
                   (path_of (txt "/notes")) image_world))).
  - repeat constructor.
  - vm_compute. reflexivity.
Defined.

Lemma sub_from_chr_replace p r prev s :
  sub_from (Chr p) [TLit [r]] 0 prev s = map (fun c => if p c then r else c) s.
Proof.
  revert prev; induction s as [|c s IH]; intros prev; [reflexivity|].
  destruct (p c) eqn:E.
  - pose proof (sub_from_hit (Chr p) [TLit [r]] prev c [] s []) as H.
    cbn [app prev_after] in H. rewrite H.
    + simpl. rewrite E. f_equal. apply IH.
    + unfold match_at; simpl. now rewrite E.
  - rewrite sub_from_miss.
    + simpl. rewrite E. f_equal. apply IH.
    + unfold match_at; simpl. now rewrite E.
Qed.

Lemma search_title_no_hash s :
  forallb (not_ "#") s = true ->
  forall prev, search_from title_re prev s = None.
Proof.
  induction s as [|c s IH]; intros H prev.
  - unfold search_from, match_at, title_re. cbn [seqs mtch].
    destruct (at_bol prev); reflexivity.
  - simpl in H. apply andb_prop in H as [Hc Hs].
    rewrite search_from_unfold, title_re_needs_hash.
    + now apply IH.
    + unfold not_, is_ in *. now apply negb_true_iff in Hc.
Qed.

(** A text without any hash sign has no heading: its title is derived from
    the input file name when the input is a single file, and is
    "Untitled Post" otherwise; extracting it changes nothing. *)
Theorem title_without_heading
    (self : migrator) (content : str) (w : world) :
  forallb (not_ "#") content = true ->
  extract_title_from_content self content w
  = (Ok (if is_file w (input_path self)
         then stem_title (input_path self)
         else txt "Untitled Post"), w).
Proof.
  intros H. unfold extract_title_from_content, re_search.
  rewrite (search_title_no_hash content H None).
  unfold bind, get_world, stem_title, re_sub, underscore_hyphen_re.
  change (txt " ") with [" "%char]. rewrite sub_from_chr_replace.
  destruct (is_file w (input_path self)); reflexivity.
Qed.

Lemma title_without_heading_witness :
  extract_title_from_content single_file_migrator (txt "Just some text.")
    single_file_world
  = (Ok (txt "My Note"), single_file_world)
  /\ extract_title_from_content sample_migrator (txt "Just some text.")
       image_world
     = (Ok (txt "Untitled Post"), image_world).
Proof.
  split.
  - apply (title_without_heading single_file_migrator (txt "Just some text.")
             single_file_world). reflexivity.
  - apply (title_without_heading sample_migrator (txt "Just some text.")
             image_world). reflexivity.
Defined.

(** ** No pattern of the script matches the empty string *)

Lemma many_shrinks p d k : shrinks d k -> shrinks d (many p k).
Proof.
  intros Hk prev s. revert prev.
  induction s as [|c s IH]; intros prev cs rest cs'; simpl.
  - apply Hk.
  - destruct (p c).
    + destruct (many p k (Some c) s cs) as [[r1 c1]|] eqn:E.
      * intros [= <- <-]. specialize (IH _ _ _ _ E). lia.
      * intros H. apply Hk in H. exact H.
    + intros H. apply Hk in H. exact H.
Qed.

Lemma few_shrinks p d k : shrinks d k -> shrinks d (few p k).
Proof.
  intros Hk prev s. revert prev.
  induction s as [|c s IH]; intros prev cs rest cs'; simpl.
  - destruct (k prev [] cs) as [[r1 c1]|] eqn:E; [|discriminate].
    intros [= <- <-]. now apply Hk in E.
  - destruct (k prev (c :: s) cs) as [[r1 c1]|] eqn:E.
    + intros [= <- <-]. now apply Hk in E.
    + destruct (p c); [|discriminate].
      intros H. specialize (IH _ _ _ _ H). lia.
Qed.

Lemma mtch_shrinks r :
  forall d k, shrinks d k ->
    shrinks (d + (if consumes r then 1 else 0)) (mtch r k).
Proof.
  induction r as [|p|r1 IH1 r2 IH2|p|p|n r1 IH1| | |]; intros d k Hk;
    cbn [consumes]; try rewrite Nat.add_0_r.
  - exact Hk.
  - intros prev s cs rest cs'. cbn [mtch].
    destruct s as [|c s]; [discriminate|]. destruct (p c); [|discriminate].
    intros H. apply Hk in H. simpl. lia.
  - intros prev s cs rest cs' H. cbn [mtch] in H.
    apply (IH1 _ _ (IH2 _ _ Hk)) in H.
    destruct (consumes r1), (consumes r2); simpl in *; lia.
  - now apply many_shrinks.
  - now apply few_shrinks.
  - intros prev s cs rest cs' H. cbn [mtch] in H.
    refine (IH1 d _ _ _ _ _ _ _ H).
    intros prev' s' cs0 rest' cs0' H'. now apply Hk in H'.
  - intros prev s cs rest cs'. cbn [mtch].
    destruct (at_bol prev); [apply Hk | discriminate].
  - intros prev s cs rest cs'. cbn [mtch].
    destruct (at_eol s); [apply Hk | discriminate].
  - intros prev s cs rest cs'. cbn [mtch].
    destruct (xorb _ _); [apply Hk | discriminate].
Qed.

(** A match of any pattern the script scans with reads at least one
    character, so that the scan never meets an empty match. *)
Theorem scanned_patterns_never_match_empty
    (old_path : str) (r : regex) (prev : option ascii) (s rest : str) (cs : caps) :
  In r (scanned_patterns old_path) ->
  match_at r prev s = Some (rest, cs) ->
  List.length rest < List.length s.
Proof.
  intros Hin H.
  assert (Hc : consumes r = true).
  { unfold scanned_patterns in Hin. simpl in Hin.
    repeat (destruct Hin as [<-|Hin]; [reflexivity|]). contradiction. }
  unfold match_at in H.
  assert (Ha : shrinks 0 accept).
  { intros p0 s0 c0 r0 c0' [= <- _]. lia. }
  pose proof (mtch_shrinks r 0 accept Ha prev s [] rest cs H) as Hl.
  rewrite Hc in Hl. simpl in Hl. lia.
Qed.

Lemma scanned_patterns_never_match_empty_witness :
  List.length (txt " tail") < List.length (txt "![a](b) tail").
Proof.
  apply (scanned_patterns_never_match_empty (txt "b") md_image_re None
           (txt "![a](b) tail") (txt " tail") [(2, txt "b"); (1, txt "a")]).
  - simpl. auto 10.
  - reflexivity.
Defined.

(** ** The rewriting relations determine the result *)

Lemma md_rewrite_sub old new t :
  (forall cs, expand t cs = txt "![" ++ group 1 cs ++ txt "](" ++ new ++ txt ")") ->
  forall s o, md_rewrite old new s o ->
  forall prev, sub_from (md_ref_re old) t 0 prev s = o.
Proof.
  intros Ht s o H. induction H as [|alt rest rest' Ha H IH|c s s' Hno H IH];
    intros prev.
  - reflexivity.
  - rewrite sub_from_hit_app with (cs := [(1, alt)]).
    + rewrite Ht, IH. reflexivity.
    + now apply md_ref_re_hit.
    + unfold md_ref. discriminate.
  - rewrite sub_from_miss; [now rewrite IH|].
    destruct (match_at (md_ref_re old) prev (c :: s)) as [[rest cs]|] eqn:E;
      [|reflexivity].
    destruct (md_ref_re_inv _ _ _ _ _ E) as (alt & Ha & Hs & _).
    now elim (Hno alt rest Ha).
Qed.

Lemma split_at_class_unique (p : ascii -> bool) (a a' b b' : str) :
  forallb p a = true -> forallb p a' = true ->
  match b with [] => True | c :: _ => p c = false end ->
  match b' with [] => True | c :: _ => p c = false end ->
  a ++ b = a' ++ b' -> a = a' /\ b = b'.
Proof.
  intros Ha Ha' Hb Hb' E.
  destruct (take_while_app p a b Ha Hb) as [T D].
  destruct (take_while_app p a' b' Ha' Hb') as [T' D'].
  rewrite E in T, D. split; congruence.
Qed.

Lemma same_length_prefix {A} (a a' b b' : list A) :
  a ++ b = a' ++ b' -> List.length a = List.length a' -> a = a' /\ b = b'.
Proof.
  revert a'; induction a as [|x a IH]; intros [|y a'] E L; simpl in *;
    try discriminate; [now split|].
  injection E as -> E. injection L as L. destruct (IH a' E L) as [-> ->].
  now split.
Qed.

Lemma html_rewrite_sub old new t :
  (forall cs, expand t cs
              = html_tag (group 1 cs) dquote new dquote (group 2 cs)) ->
  forall s o, html_rewrite old new s o ->
  forall prev, sub_from (html_ref_re old) t 0 prev s = o.
Proof.
  intros Ht s o H.
  induction H as [|a q1 q2 b rest rest' Hok Hmax H IH|c s s' Hno H IH];
    intros prev.
  - cbn [sub_from]. now rewrite html_ref_no_img.
  - destruct (match_at (html_ref_re old) prev (html_tag a q1 old q2 b ++ rest))
      as [[rest2 cs]|] eqn:E.
    + destruct (html_ref_re_inv _ _ _ _ _ E)
        as (a2 & p1 & p2 & b2 & Hok2 & Hs & -> & Hmax2).
      pose proof (Hmax a2 p1 p2 b2 rest2 Hok2 Hs) as L1.
      pose proof (Hmax2 a q1 q2 b rest Hok eq_refl) as L2.
      rewrite !html_tag_split in Hs. apply app_inv_head in Hs.
      destruct (same_length_prefix _ _ _ _ Hs) as [<- Hs']; [lia|].
      unfold html_tail in Hs'. rewrite <- !app_assoc in Hs'.
      apply app_inv_head in Hs'. cbn [app] in Hs'.
      injection Hs' as <- Hs'. rewrite <- !app_assoc in Hs'.
      apply app_inv_head in Hs'. cbn [app] in Hs'.
      injection Hs' as <- Hs'. rewrite <- !app_assoc in Hs'.
      destruct Hok as (_ & _ & _ & _ & Hb). destruct Hok2 as (_ & _ & _ & _ & Hb2).
      destruct (split_at_class_unique (not_ ">") b b2
                  (">"%char :: rest) (">"%char :: rest2)
                  Hb Hb2 eq_refl eq_refl Hs')
        as [<- Hr].
      injection Hr as <-.
      rewrite sub_from_hit_app with (cs := [(2, b); (1, a)]).
      * rewrite Ht, IH. reflexivity.
      * exact E.
      * unfold html_tag. discriminate.
    + now elim (html_ref_re_none _ _ _ E a q1 q2 b rest Hok).
  - rewrite sub_from_miss; [now rewrite IH|].
    destruct (match_at (html_ref_re old) prev (c :: s)) as [[rest cs]|] eqn:E;
      [|reflexivity].
    destruct (html_ref_re_inv _ _ _ _ _ E)
      as (a & q1 & q2 & b & Hok & Hs & _).
    now elim (Hno a q1 q2 b rest Hok).
Qed.

(** The description of the rewriting leaves no choice: two texts obtained
    from the same text by the same mapping are equal. *)
Lemma rewritten_unique
    (image_mapping : list (str * str)) (content out1 out2 : str) :
  rewritten image_mapping content out1 ->
  rewritten image_mapping content out2 ->
  out1 = out2.
Proof.
  intros H1. revert out2.
  induction H1 as [c|old new rest c c1 c2 c3 M1 H1 R1 IH]; intros out2 H2.
  - now inversion H2.
  - inversion H2 as [|old' new' rest' c' d1 d2 d3 M2 H2' R2]; subst.
    set (tm := [TLit (txt "!["); TRef 1; TLit (txt "]("); TLit new; TLit (txt ")")]).
    assert (Htm : forall cs, expand tm cs
                    = txt "![" ++ group 1 cs ++ txt "](" ++ new ++ txt ")").
    { intros cs. unfold tm, expand. cbn. reflexivity. }
    set (th := [TLit (txt "<img"); TRef 1; TLit (txt "src=" ++ [dquote]);
                TLit new; TLit [dquote]; TRef 2; TLit (txt ">")]).
    assert (Hth : forall cs, expand th cs
                    = html_tag (group 1 cs) dquote new dquote (group 2 cs)).
    { intros cs. unfold th, expand, html_tag, html_tail. cbn.
      repeat rewrite <- app_assoc. cbn. reflexivity. }
    assert (E1 : c1 = d1).
    { rewrite <- (md_rewrite_sub old new tm Htm c c1 M1 None).
      now rewrite <- (md_rewrite_sub old new tm Htm c d1 M2 None). }
    subst d1.
    assert (E2 : c2 = d2).
    { rewrite <- (html_rewrite_sub old new th Hth c1 c2 H1 None).
      now rewrite <- (html_rewrite_sub old new th Hth c1 d2 H2' None). }
    subst d2. now apply IH.
Qed.

(** What [update_image_paths] computes. For a mapping whose new paths hold
    no backslash (as every store path does) it does not raise, and returns
    the one text obtained pair after pair by giving every markdown reference
    with exactly the old path the new path, its alternative text kept, and
    then rewriting the img tags as [html_rewrite] describes: in every tag
    that holds src='old' or src="old" the last such text is replaced and the
    rest of the tag kept. All markdown references and all such tags are
    rewritten, not only the first. *)
Theorem update_image_paths_rewrites_all
    (content : str) (image_mapping : list (str * str)) :
  plain_targets image_mapping ->
  (exists out,
     update_image_paths content image_mapping = Some out
     /\ rewritten image_mapping content out
     /\ forall out', rewritten image_mapping content out' -> out' = out)
  /\ update_image_paths (txt "![caption](old.png)")
       [(txt "old.png", txt "/images/abcd1234.png")]
     = Some (txt "![caption](/images/abcd1234.png)")
  /\ update_image_paths twice_text
       [(txt "old.png", txt "/images/abcd1234.png")]
     = Some twice_rewritten.
Proof.
  intros Hm. split; [|split; vm_compute; reflexivity].
  assert (H : exists out,
             update_image_paths content image_mapping = Some out
             /\ rewritten image_mapping content out).
  { revert content.
    induction Hm as [|[old new] rest Hn Hrest IH]; intros content.
    - exists content. split; [reflexivity | constructor].
    - simpl in Hn.
      destruct (re_sub_repl_md old new content Hn) as (c1 & E1 & R1).
      destruct (re_sub_repl_html old new c1 Hn) as (c2 & E2 & R2).
      destruct (IH c2) as (c3 & E3 & R3).
      exists c3. cbn [update_image_paths]. rewrite E1, E2.
      split; [exact E3 | econstructor; eassumption]. }
  destruct H as (out & E & R). exists out. split; [exact E|].
  split; [exact R|]. intros out' R'.
  exact (rewritten_unique image_mapping content out' out R' R).
Qed.

Lemma update_image_paths_rewrites_all_witness :
  (exists out,
     update_image_paths twice_text [(txt "old.png", txt "/images/abcd1234.png")]
       = Some out
     /\ rewritten [(txt "old.png", txt "/images/abcd1234.png")] twice_text out
     /\ forall out',
          rewritten [(txt "old.png", txt "/images/abcd1234.png")] twice_text out'
          -> out' = out)
  /\ update_image_paths (txt "![caption](old.png)")
       [(txt "old.png", txt "/images/abcd1234.png")]
     = Some (txt "![caption](/images/abcd1234.png)")
  /\ update_image_paths twice_text
       [(txt "old.png", txt "/images/abcd1234.png")]
     = Some twice_rewritten.
Proof.
  apply (update_image_paths_rewrites_all twice_text
           [(txt "old.png", txt "/images/abcd1234.png")]).
  constructor; [reflexivity | constructor].
Defined.

(** C4. In an img tag that holds the old path in [src] and again in
    [data-src], rewriting leaves the [src] attribute with the old path and
    changes the other attribute: the reference of the tag is not replaced
    and an attribute that is not the source is not preserved. *)
Theorem img_src_kept_and_other_attribute_changed :
  update_image_paths lazy_img_text
    [(txt "old.png", txt "/images/abcd1234.png")]
  = Some lazy_img_rewritten
  /\ re_findall html_image_re lazy_img_text = [FStr (txt "old.png")].
Proof. split; vm_compute; reflexivity. Qed.

(** ** What the clean-up before tag extraction amounts to *)

(** A scan over a text on which the pattern can start nowhere copies it. *)
Lemma sub_from_pass_all r t (p : ascii -> bool) :
  (forall prev c s, forallb p (c :: s) = true -> match_at r prev (c :: s) = None) ->
  (forall prev, match_at r prev [] = None) ->
  forall s prev, forallb p s = true -> sub_from r t 0 prev s = s.
Proof.
  intros Hr He. induction s as [|c s IH]; intros prev Hp.
  - cbn [sub_from]. now rewrite He.
  - rewrite sub_from_miss by now apply Hr.
    simpl in Hp. apply andb_prop in Hp as [_ Hp]. now rewrite IH.
Qed.

Lemma blank_markup_clean content :
  forallb (fun c => negb (markup_char c)) (map blank_markup content) = true.
Proof.
  induction content as [|c s IH]; simpl; [reflexivity|]. rewrite IH.
  unfold blank_markup. destruct (markup_char c) eqn:E; [reflexivity|].
  now rewrite E.
Qed.

Lemma not_markup_neq d c :
  markup_char d = true -> negb (markup_char c) = true -> is_ d c = false.
Proof.
  intros Hd Hc. unfold is_. destruct (Ascii.eqb d c) eqn:E; [|reflexivity].
  apply Ascii.eqb_eq in E. subst d. rewrite Hd in Hc. discriminate.
Qed.

Lemma link_re_clean prev c s :
  forallb (fun c => negb (markup_char c)) (c :: s) = true ->
  match_at link_re prev (c :: s) = None.
Proof.
  simpl. intros H. apply andb_prop in H as [Hc _].
  unfold match_at, link_re. cbn [seqs mtch].
  now rewrite (not_markup_neq "[" c eq_refl Hc).
Qed.

Lemma image_strip_re_clean prev c s :
  forallb (fun c => negb (markup_char c)) (c :: s) = true ->
  match_at image_strip_re prev (c :: s) = None.
Proof.
  simpl. intros H. apply andb_prop in H as [_ Hs].
  unfold match_at, image_strip_re. cbn [seqs mtch].
  destruct (is_ "!" c); [|reflexivity].
  destruct s as [|d s]; [reflexivity|]. simpl in Hs.
  apply andb_prop in Hs as [Hd _].
  now rewrite (not_markup_neq "[" d eq_refl Hd).
Qed.

Lemma fence_re_clean prev c s :
  forallb (fun c => negb (markup_char c)) (c :: s) = true ->
  match_at fence_re prev (c :: s) = None.
Proof.
  simpl. intros H. apply andb_prop in H as [Hc _].
  unfold match_at, fence_re. cbn [seqs mtch]. rewrite mtch_lit.
  change (txt "```") with ("`"%char :: txt "``"). cbn [starts_with].
  pose proof (not_markup_neq "`" c eq_refl Hc) as E. unfold is_ in E.
  now rewrite E.
Qed.

Lemma code_span_re_clean prev c s :
  forallb (fun c => negb (markup_char c)) (c :: s) = true ->
  match_at code_span_re prev (c :: s) = None.
Proof.
  simpl. intros H. apply andb_prop in H as [Hc _].
  unfold match_at, code_span_re. cbn [seqs mtch].
  now rewrite (not_markup_neq "`" c eq_refl Hc).
Qed.

(** The five substitutions before tag extraction come down to the first one:
    each of the characters # * ` [ ] ( ) becomes a blank and everything else
    is kept. Once the brackets and backticks are blanks, the link, image,
    fence and code-span patterns match nowhere, so the text of links, of
    images and of code blocks all reaches the keyword extractor. *)
Theorem strip_markup_blanks_markup (content : str) :
  strip_markup content = map blank_markup content
  /\ List.length (strip_markup content) = List.length content.
Proof.
  assert (H : strip_markup content = map blank_markup content).
  { unfold strip_markup.
    assert (H1 : re_sub markup_re [TLit (txt " ")] content
                 = map blank_markup content).
    { unfold re_sub, markup_re. change (txt " ") with [" "%char].
      apply sub_from_chr_replace. }
    rewrite H1. pose proof (blank_markup_clean content) as Hc.
    unfold re_sub.
    rewrite (sub_from_pass_all link_re _ _ link_re_clean
               (fun _ => eq_refl) _ None Hc).
    rewrite (sub_from_pass_all image_strip_re _ _ image_strip_re_clean
               (fun _ => eq_refl) _ None Hc).
    rewrite (sub_from_pass_all fence_re _ _ fence_re_clean
               (fun _ => eq_refl) _ None Hc).
    now rewrite (sub_from_pass_all code_span_re _ _ code_span_re_clean
                   (fun _ => eq_refl) _ None Hc). }
  split; [exact H|]. rewrite H. apply length_map.
Qed.

(** ** The usual heading *)

Lemma search_title_skip_no_hash pre :
  forall prev s,
    forallb (not_ "#") pre = true ->
    search_from title_re prev (pre ++ s)
    = search_from title_re (prev_after prev pre) s.
Proof.
  induction pre as [|c pre IH]; intros prev s H; [reflexivity|].
  simpl in H. apply andb_prop in H as [Hc Hp].
  cbn [app prev_after]. rewrite search_from_unfold, title_re_needs_hash.
  - now apply IH.
  - unfold not_, is_ in *. now apply negb_true_iff in Hc.
Qed.

Lemma title_re_heading_at prev c t tail :
  at_bol prev = true -> is_space c = false -> one_line (c :: t) ->
  at_eol tail = true ->
  match_at title_re prev (txt "# " ++ (c :: t) ++ tail)
  = Some (tail, [(1, c :: t)]).
Proof.
  intros Hb Hc Ht He. unfold one_line in Ht. simpl in Ht.
  apply andb_prop in Ht as [Hd Ht].
  unfold match_at, title_re. cbn [seqs]. unfold Plus.
  change (txt "# " ++ (c :: t) ++ tail)
    with ("#"%char :: " "%char :: c :: t ++ tail).
  cbn [mtch]. rewrite Hb, is_refl. change (is_space " ") with true. cbv iota.
  cbn [many]. rewrite Hc. cbn [mtch]. rewrite Hd.
  erewrite many_longest; [reflexivity | exact Ht | | ].
  - cbv beta. cbn [mtch]. rewrite He. unfold accept.
    change (c :: t ++ tail) with ((c :: t) ++ tail).
    now rewrite firstn_app_length.
  - destruct tail as [|d tail]; [exact I|]. simpl in He.
    apply Ascii.eqb_eq in He. subst d. reflexivity.
Qed.

(** When no hash sign comes before it, a line made of a hash sign, a blank
    and a text that starts with a non-blank character gives the title: that
    text with the blanks at its end removed. Nothing is read from or changed
    in the file system. *)
Theorem heading_line_is_title
    (self : migrator) (w : world) (pre t tail : str) (c : ascii) :
  forallb (not_ "#") pre = true ->
  (pre = [] \/ exists pre', pre = pre' ++ nl) ->
  is_space c = false -> one_line (c :: t) ->
  (tail = [] \/ exists rest, tail = nl ++ rest) ->
  extract_title_from_content self (pre ++ txt "# " ++ (c :: t) ++ tail) w
  = (Ok (strip (c :: t)), w).
Proof.
  intros Hp Hl Hc Ht He. unfold extract_title_from_content, re_search.
  rewrite (search_title_skip_no_hash pre None _ Hp).
  rewrite search_from_unfold, title_re_heading_at; [reflexivity | | exact Hc | exact Ht | ].
  - destruct Hl as [->|[pre' ->]]; [reflexivity|].
    unfold nl. rewrite prev_after_last. reflexivity.
  - destruct He as [->|[rest ->]]; reflexivity.
Qed.

Lemma heading_line_is_title_witness :
  extract_title_from_content sample_migrator
    (txt "intro" ++ nl ++ txt "# My Title  " ++ nl ++ txt "body # not this")
    image_world
  = (Ok (txt "My Title"), image_world).
Proof.
  apply (heading_line_is_title sample_migrator image_world
           (txt "intro" ++ nl) (txt "y Title  ") (nl ++ txt "body # not this")
           "M"%char).
  - reflexivity.
  - right. exists (txt "intro"). reflexivity.
  - reflexivity.
  - reflexivity.
  - right. exists (txt "body # not this"). reflexivity.
Defined.

(** ** The fallback tags, as a list *)

Lemma firstn_sorted {A} (R : A -> A -> Prop) n l :
  StronglySorted R l -> StronglySorted R (firstn n l).
Proof.
  intros H. revert n. induction H as [|x l Hs IH Hx]; intros [|n]; simpl;
    try constructor.
  - apply IH.
  - rewrite Forall_forall in *. intros y Hy. apply Hx.
    eapply In_firstn. exact Hy.
Qed.

(** The fallback tags are pairwise distinct and come in order of decreasing
    number of occurrences in the cleaned, lower-cased text. *)
Theorem fallback_tags_distinct_and_ordered (content : str) (max_tags : nat) :
  let words := map item_str (re_findall word_re (lower content)) in
  NoDup (fallback_tags content max_tags)
  /\ StronglySorted
       (fun a b => occurrences b words <= occurrences a words)
       (fallback_tags content max_tags).
Proof.
  intros words. unfold fallback_tags. cbv zeta. fold words.
  unfold most_common.
  assert (Hperm : Permutation (sort_desc (counter words)) (counter words))
    by apply sort_desc_perm.
  split.
  - rewrite <- firstn_map. apply NoDup_firstn.
    apply (Permutation_NoDup (Permutation_sym (Permutation_map fst Hperm))).
    apply counter_NoDup.
  - pose proof (firstn_sorted _ max_tags _ (sort_desc_sorted (counter words)))
      as Hs.
    assert (Hin : forall e, In e (firstn max_tags (sort_desc (counter words)))
                            -> snd e = occurrences (fst e) words).
    { intros [k n] He. apply In_firstn in He.
      apply (Permutation_in _ Hperm) in He.
      now destruct (counter_entries words k n He). }
    revert Hin. induction Hs as [|x l Hs IH Hx]; intros Hin; simpl;
      constructor.
    + apply IH. intros e He. apply Hin. now right.
    + rewrite Forall_forall in *. intros k Hk.
      apply in_map_iff in Hk as (e & <- & He).
      specialize (Hx e He). unfold by_count_desc in Hx.
      rewrite (Hin e (or_intror He)) in Hx.
      rewrite (Hin x (or_introl eq_refl)) in Hx. exact Hx.
Qed.

(** ** Slugs and the path of the post *)

(** The characters of a slug are hyphens and word characters, none of them
    whitespace: the reasoning holds over any alphabet. *)
Lemma title_slug_chars s :
  Forall (fun c => c = "-"%char \/ (is_word c = true /\ is_space c = false))
         (title_slug s).
Proof. rewrite title_slug_is_slug_of. apply slug_of_chars. Qed.

(** The slash is neither a word character nor a digit. *)
Lemma word_not_slash c : is_word c = true -> not_ "/" c = true.
Proof.
  intros H. unfold not_. destruct (Ascii.eqb_spec "/" c) as [<-|_];
    [discriminate H | reflexivity].
Qed.

Lemma digit_not_slash c : is_digit c = true -> not_ "/" c = true.
Proof.
  intros H. unfold not_. destruct (Ascii.eqb_spec "/" c) as [<-|_];
    [discriminate H | reflexivity].
Qed.

Lemma squeezed_no_double p a b :
  p "-"%char = true -> squeezed p (a ++ "-"%char :: "-"%char :: b) = false.
Proof.
  intros Hp. induction a as [|c a IH]; simpl.
  - now rewrite Hp.
  - rewrite IH. apply andb_false_r.
Qed.

Lemma title_slug_no_double_hyphen s a b :
  title_slug s <> a ++ txt "--" ++ b.
Proof.
  intros E. rewrite title_slug_squeeze in E.
  pose proof (squeeze_squeezed hyphen_or_space eq_refl
                (filter slug_char (lower s))) as (H & _).
  rewrite E in H. change (txt "--" ++ b) with ("-"%char :: "-"%char :: b) in H.
  rewrite squeezed_no_double in H by reflexivity. discriminate.
Qed.

Lemma split_slash_plain s :
  forall cur, forallb (not_ "/") s = true ->
    split_slash cur s = [rev cur ++ s].
Proof.
  induction s as [|c s IH]; intros cur H; simpl.
  - now rewrite app_nil_r.
  - simpl in H. apply andb_prop in H as [Hc Hs].
    unfold not_ in Hc. apply negb_true_iff in Hc.
    rewrite Ascii.eqb_sym, Hc. rewrite IH by exact Hs. simpl.
    now rewrite <- app_assoc.
Qed.

Lemma digit_char_digit n : n < 10 -> is_digit (digit_char n) = true.
Proof.
  intros H. do 10 (destruct n as [|n]; [reflexivity|]). lia.
Qed.

Lemma dec_digits_digits fuel :
  forall n acc, forallb is_digit acc = true ->
    forallb is_digit (dec_digits fuel n acc) = true.
Proof.
  induction fuel as [|f IH]; intros n acc H; cbn [dec_digits]; [exact H|].
  assert (Hd : forallb is_digit (digit_char (n mod 10) :: acc) = true).
  { cbn [forallb]. rewrite H, digit_char_digit; [reflexivity|].
    apply Nat.mod_upper_bound. lia. }
  destruct (n <? 10); [exact Hd | now apply IH].
Qed.

Lemma zfill_digits w s :
  forallb is_digit s = true -> forallb is_digit (zfill w s) = true.
Proof.
  intros H. unfold zfill. rewrite forallb_app, H.
  induction (w - List.length s); simpl; auto.
Qed.

Lemma output_filename_plain d t :
  forallb (not_ "/") (output_filename d t) = true.
Proof.
  unfold output_filename, strftime_ymd.
  assert (Hn : forall w n, forallb (not_ "/") (zfill w (str_of_nat n)) = true).
  { intros w n. eapply forallb_weaken;
      [|apply zfill_digits, dec_digits_digits; reflexivity].
    apply digit_not_slash. }
  repeat rewrite forallb_app. rewrite !Hn.
  assert (Hs : forallb (not_ "/") (title_slug t) = true).
  { apply forallb_forall. intros c Hc.
    pose proof (title_slug_chars t) as H. rewrite Forall_forall in H.
    destruct (H c Hc) as [->|[Hw _]]; [reflexivity|].
    now apply word_not_slash. }
  rewrite Hs. reflexivity.
Qed.

(** The slug of any title is made of word characters and single hyphens
    only, with no whitespace; so it holds no slash, and the post is written
    under the file name date-slug.md directly in the output directory,
    whatever the title is. *)
Theorem post_path_is_in_output_dir (self : migrator) (d : date) (title_ : str) :
  Forall (fun c => c = "-"%char \/ (is_word c = true /\ is_space c = false))
         (title_slug title_)
  /\ (forall a b, title_slug title_ <> a ++ txt "--" ++ b)
  /\ join (output_dir self) (path_of (output_filename d title_))
     = Path (p_abs (output_dir self))
            (p_parts (output_dir self) ++ [output_filename d title_]).
Proof.
  split; [apply title_slug_chars|]. split; [apply title_slug_no_double_hyphen|].
  pose proof (output_filename_plain d title_) as Hp.
  unfold path_of. rewrite (split_slash_plain _ [] Hp). cbn [rev app filter].
  assert (Hk : keep_part (output_filename d title_) = true).
  { unfold keep_part. apply negb_true_iff. apply orb_false_iff.
    split; apply str_eqb_neq; intros E;
      apply (f_equal (@List.length ascii)) in E;
      unfold output_filename in E; rewrite !length_app in E;
      simpl in E; lia. }
  rewrite Hk.
  assert (Ha : starts_with (txt "/") (output_filename d title_) = false).
  { destruct (output_filename d title_) as [|c s] eqn:E; [reflexivity|].
    simpl in Hp. apply andb_prop in Hp as [Hc _].
    unfold not_ in Hc. apply negb_true_iff in Hc.
    change (txt "/") with ["/"%char]. cbn [starts_with]. now rewrite Hc. }
  rewrite Ha. reflexivity.
Qed.

(** ** The file system under the effects *)

Lemma parts_eqb_eq a b : parts_eqb a b = true <-> a = b.
Proof.
  unfold parts_eqb.
  destruct (list_eq_dec (list_eq_dec ascii_dec) a b); split; congruence.
Qed.

Lemma parts_eqb_refl a : parts_eqb a a = true.
Proof. now apply parts_eqb_eq. Qed.

Lemma parts_eqb_neq a b : a <> b -> parts_eqb a b = false.
Proof.
  unfold parts_eqb.
  destruct (list_eq_dec (list_eq_dec ascii_dec) a b); congruence.
Qed.

Lemma fs_lookup_store_same fs k n : fs_lookup (fs_store fs k n) k = Some n.
Proof.
  induction fs as [|[k' n'] fs IH]; simpl.
  - now rewrite parts_eqb_refl.
  - destruct (parts_eqb k' k) eqn:E; simpl.
    + now rewrite parts_eqb_refl.
    + now rewrite E.
Qed.

Lemma fs_lookup_store_other fs k n k' :
  k' <> k -> fs_lookup (fs_store fs k n) k' = fs_lookup fs k'.
Proof.
  intros Hne. induction fs as [|[k0 n0] fs IH]; simpl.
  - rewrite parts_eqb_neq; [reflexivity | congruence].
  - destruct (parts_eqb k0 k) eqn:E; simpl.
    + apply parts_eqb_eq in E. subst k0.
      rewrite !(parts_eqb_neq k k') by congruence. reflexivity.
    + destruct (parts_eqb k0 k'); [reflexivity | exact IH].
Qed.

Lemma fs_lookup_In fs k n : In (k, n) fs -> fs_lookup fs k <> None.
Proof.
  induction fs as [|[k' n'] fs IH]; simpl; [tauto|].
  intros [H|H].
  - injection H as -> ->. now rewrite parts_eqb_refl.
  - destruct (parts_eqb k' k); [discriminate | now apply IH].
Qed.

Lemma normalize_app acc ps qs :
  normalize acc (ps ++ qs) = normalize (rev (normalize acc ps)) qs.
Proof.
  revert acc; induction ps as [|x ps IH]; intros acc; cbn [app normalize].
  - now rewrite rev_involutive.
  - destruct (str_eqb x (txt "..")); apply IH.
Qed.

Lemma normalize_clean qs :
  Forall (fun x => x <> dotdot) qs ->
  forall acc, normalize acc qs = rev acc ++ qs.
Proof.
  induction 1 as [|x qs Hx Hq IH]; intros acc; cbn [normalize].
  - now rewrite app_nil_r.
  - unfold dotdot in Hx. rewrite (str_eqb_neq _ _ Hx), IH. simpl.
    now rewrite <- app_assoc.
Qed.

Lemma normalize_app_clean acc ps qs :
  Forall (fun x => x <> dotdot) qs ->
  normalize acc (ps ++ qs) = normalize acc ps ++ qs.
Proof.
  intros H. rewrite normalize_app, (normalize_clean qs H).
  now rewrite rev_involutive.
Qed.

(** The resolved components of [p / q] for a relative, dot-dot-free [q]. *)
Lemma resolve_join_clean w p qs :
  Forall (fun x => x <> dotdot) qs ->
  resolve w (join p (Path false qs)) = resolve w p ++ qs.
Proof.
  intros H. unfold resolve, join. cbn [p_abs p_parts].
  destruct (p_abs p).
  - now apply normalize_app_clean.
  - rewrite app_assoc. now apply normalize_app_clean.
Qed.

Lemma is_prefix_app a b : is_prefix a (a ++ b) = true.
Proof. induction a; simpl; [reflexivity|]. now rewrite str_eqb_refl. Qed.

Lemma is_prefix_inv a k : is_prefix a k = true -> k = a ++ skipn (List.length a) k.
Proof.
  revert k; induction a as [|x a IH]; intros [|y k]; simpl; try discriminate;
    try reflexivity.
  intros H. apply andb_prop in H as [E H]. apply str_eqb_eq in E. subst y.
  f_equal. now apply IH.
Qed.

Lemma reads_only_writes {A} S (m : M A) : reads_only m -> writes S m.
Proof.
  intros H w. destruct (H w) as (F & C & T). rewrite F. auto.
Qed.

Lemma writes_bind {A B} S (m : M A) (f : A -> M B) :
  writes S m -> (forall a, writes S (f a)) -> writes S (bind m f).
Proof.
  intros Hm Hf w. unfold bind. destruct (Hm w) as (C1 & T1 & F1).
  destruct (m w) as [[a|e] w1]; simpl in *; [|auto].
  destruct (Hf a w1) as (C2 & T2 & F2).
  rewrite C2, T2, C1, T1. repeat split; auto.
  intros k Hk. rewrite F2 by (now rewrite C1). now apply F1.
Qed.

Lemma reads_only_bind {A B} (m : M A) (f : A -> M B) :
  reads_only m -> (forall a, reads_only (f a)) -> reads_only (bind m f).
Proof.
  intros Hm Hf w. unfold bind. destruct (Hm w) as (F1 & C1 & T1).
  destruct (m w) as [[a|e] w1]; simpl in *; [|auto].
  destruct (Hf a w1) as (F2 & C2 & T2).
  rewrite F2, C2, T2. auto.
Qed.

Lemma reads_only_ret {A} (a : A) : reads_only (ret a).
Proof. intros w. simpl. auto. Qed.

Lemma reads_only_raise {A} e : reads_only (@raise A e).
Proof. intros w. simpl. auto. Qed.

Lemma reads_only_get_world : reads_only get_world.
Proof. intros w. simpl. auto. Qed.

Lemma reads_only_print e : reads_only (print e).
Proof. intros w. simpl. auto. Qed.

Ltac reads_step :=
  first
    [ apply reads_only_ret | apply reads_only_raise | apply reads_only_get_world
    | apply reads_only_print
    | apply reads_only_bind; [|intros ?]
    | match goal with
      | |- reads_only (match ?x with _ => _ end) => destruct x
      | |- reads_only (if ?b then _ else _) => destruct b
      end ].

Lemma reads_only_read_bytes p : reads_only (read_bytes p).
Proof. unfold read_bytes. repeat reads_step. Qed.

Lemma reads_only_read_text p : reads_only (read_text p).
Proof.
  unfold read_text. apply reads_only_bind; [apply reads_only_read_bytes|intros b].
  repeat reads_step.
Qed.

Lemma reads_only_stat_mtime p : reads_only (stat_mtime p).
Proof. unfold stat_mtime. repeat reads_step. Qed.

Lemma reads_only_extract_title self content :
  reads_only (extract_title_from_content self content).
Proof. unfold extract_title_from_content. repeat reads_step. Qed.

Lemma reads_only_generate_image_filename p :
  reads_only (generate_image_filename p).
Proof.
  unfold generate_image_filename.
  apply reads_only_bind; [apply reads_only_read_bytes|intros b].
  apply reads_only_ret.
Qed.

(** Writing a node touches the key of its path only. *)
Lemma write_node_writes p data d :
  writes (fun cwd k => k = normalize [] (if p_abs p then p_parts p
                                         else cwd ++ p_parts p))
         (write_node p data d).
Proof.
  intros w. unfold write_node, bind, get_world, set_fs, raise.
  destruct (lookup w p) as [[[|?] ? ?]|]; simpl; auto;
    destruct (is_dir w (parent p)); simpl; auto;
    repeat split; auto; intros k Hk;
    apply fs_lookup_store_other; exact Hk.
Qed.







Lemma writes_weaken {A} (S S' : list str -> list str -> Prop) (m : M A) :
  (forall cwd k, S cwd k -> S' cwd k) -> writes S m -> writes S' m.
Proof.
  intros H Hm w. destruct (Hm w) as (C & T & F). repeat split; auto.
Qed.


Lemma writes_foldM {A B} S (f : B -> A -> M B) l :
  (forall b a, writes S (f b a)) -> forall b, writes S (foldM f l b).
Proof.
  intros Hf. induction l as [|a l IH]; intros b; simpl.
  - apply reads_only_writes, reads_only_ret.
  - apply writes_bind; [apply Hf | intros b'; apply IH].
Qed.


Lemma copy2_writes src dst :
  writes (fun cwd k => k = base_of cwd dst
                       \/ k = base_of cwd (join dst (Path false [name src])))
         (copy2 src dst).
Proof.
  unfold copy2.
  apply writes_bind; [apply reads_only_writes, reads_only_get_world|intros w0].
  cbv zeta. destruct (exists_ w0 src && _);
    [apply reads_only_writes, reads_only_raise|].
  apply writes_bind;
    [apply reads_only_writes, reads_only_read_bytes|intros data].
  apply writes_bind;
    [apply reads_only_writes, reads_only_stat_mtime|intros mtime].
  eapply writes_weaken; [|apply write_node_writes].
  intros cwd k ->. unfold base_of. destruct (is_dir w0 dst); auto.
Qed.










Lemma init_with_returns ji script_file input :
  returns (fun s => s = migrator_of script_file input)
          (init_with ji script_file input).
Proof.
  unfold init_with. cbv zeta. repeat (apply returns_bind; intros ?).
  intros w0 s w1 [= <- _]. reflexivity.
Qed.


Lemma write_text_writes p data :
  writes (fun cwd k => k = base_of cwd p) (write_text p data).
Proof.
  unfold write_text.
  apply writes_bind; [apply reads_only_writes, reads_only_get_world|intros w0].
  apply write_node_writes.
Qed.





(** ** Setting up the stores *)

Lemma resolve_base_of w p : resolve w p = base_of (w_cwd w) p.
Proof. reflexivity. Qed.

Lemma is_dir_kept w w' p :
  w_cwd w' = w_cwd w ->
  (forall k n, fs_lookup (w_fs w) k = Some n -> fs_lookup (w_fs w') k = Some n) ->
  is_dir w p = true -> is_dir w' p = true.
Proof.
  intros C F. unfold is_dir, lookup. rewrite !resolve_base_of, C.
  destruct (base_of (w_cwd w) p) as [|x k]; [auto|].
  destruct (fs_lookup (w_fs w) (x :: k)) as [n|] eqn:E; [|discriminate].
  now rewrite (F _ _ E).
Qed.

Lemma is_dir_same w w' p :
  w_cwd w' = w_cwd w ->
  fs_lookup (w_fs w') (base_of (w_cwd w) p)
  = fs_lookup (w_fs w) (base_of (w_cwd w) p) ->
  is_dir w' p = is_dir w p.
Proof.
  intros C F. unfold is_dir, lookup. rewrite !resolve_base_of, C.
  destruct (base_of (w_cwd w) p) as [|x k]; [reflexivity|]. now rewrite F.
Qed.

Lemma mkdir_exist_ok_post p w w' :
  mkdir_exist_ok p w = (Ok tt, w') ->
  is_dir w' p = true
  /\ w_cwd w' = w_cwd w
  /\ (forall k n, fs_lookup (w_fs w) k = Some n ->
                  fs_lookup (w_fs w') k = Some n).
Proof.
  unfold mkdir_exist_ok, bind, get_world, set_fs, raise, ret.
  destruct (lookup w p) as [[[|data] t r]|] eqn:L; simpl.
  - intros [= <-]. unfold is_dir. rewrite L. auto.
  - discriminate.
  - destruct (is_dir w (parent p)); [|discriminate].
    intros [= <-]. unfold is_dir, lookup in *. unfold resolve in *.
    cbn [w_fs w_cwd].
    set (key := normalize [] (if p_abs p then p_parts p else w_cwd w ++ p_parts p))
      in *.
    destruct key as [|x k]; [discriminate|].
    rewrite fs_lookup_store_same. repeat split; auto.
    intros k' n Hk'. rewrite fs_lookup_store_other; [exact Hk'|].
    intros ->. rewrite L in Hk'. discriminate.
Qed.

(** When the constructor returns, both stores of the migrator are
    directories, the working directory has not moved, and every entry the
    file system had is still there unchanged, apart from what loading the
    keyword dictionary touches: [jieba.initialize()] is taken to touch only
    the entries of a set [T] that holds neither store. *)
Theorem init_sets_up_stores
    (jieba_initialize : M unit) (T : list str -> list str -> Prop)
    (script_file : path) (input : str) (w w' : world) (self : migrator) :
  writes T jieba_initialize ->
  ~ T (w_cwd w) (base_of (w_cwd w)
                   (output_dir (migrator_of script_file input))) ->
  ~ T (w_cwd w) (base_of (w_cwd w)
                   (images_dir (migrator_of script_file input))) ->
  init_with jieba_initialize script_file input w = (Ok self, w') ->
  is_dir w' (output_dir self) = true
  /\ is_dir w' (images_dir self) = true
  /\ w_cwd w' = w_cwd w
  /\ (forall k n, ~ T (w_cwd w) k -> fs_lookup (w_fs w) k = Some n ->
                  fs_lookup (w_fs w') k = Some n).
Proof.
  intros Hji To Ti H.
  pose proof (init_with_returns jieba_initialize script_file input w self w' H)
    as ->.
  revert H. unfold init_with. cbv zeta. unfold bind.
  destruct (mkdir_exist_ok _ w) as [[[]|e] w1] eqn:E1; [|discriminate].
  destruct (mkdir_exist_ok _ w1) as [[[]|e] w2] eqn:E2; [|discriminate].
  pose proof (Hji w2) as (C3 & _ & F3).
  destruct (jieba_initialize w2) as [[[]|e] w3]; [|discriminate].
  cbn [snd] in C3, F3. intros [= <-].
  destruct (mkdir_exist_ok_post _ _ _ E1) as (D1 & C1 & F1).
  destruct (mkdir_exist_ok_post _ _ _ E2) as (D2 & C2 & F2).
  assert (C : w_cwd w2 = w_cwd w) by congruence.
  pose proof (is_dir_kept w1 w2 _ C2 F2 D1) as D1'.
  split.
  { rewrite <- D1'. apply is_dir_same; [exact C3|].
    apply F3. now rewrite C. }
  split.
  { rewrite <- D2. apply is_dir_same; [exact C3|].
    apply F3. now rewrite C. }
  split; [congruence|].
  intros k n Hk Hl. rewrite F3 by (now rewrite C). apply F2, F1, Hl.
Qed.

Lemma init_sets_up_stores_witness :
  let r := init_with write_cache script_path (txt "a.md") cache_world in
  is_dir (snd r) (path_of (txt "/repo/_posts")) = true
  /\ is_dir (snd r) (path_of (txt "/repo/images")) = true
  /\ is_dir cache_world (path_of (txt "/repo/_posts")) = false.
Proof.
  cbv zeta.
  destruct (init_sets_up_stores write_cache
              (fun cwd k => k = base_of cwd cache_path)
              script_path (txt "a.md") cache_world
              (snd (init_with write_cache script_path (txt "a.md") cache_world))
              (migrator_of script_path (txt "a.md")))
    as (H1 & H2 & _).
  - apply write_text_writes.
  - vm_compute. discriminate.
  - vm_compute. discriminate.
  - vm_compute. reflexivity.
  - split; [exact H1|]. split; [exact H2 | vm_compute; reflexivity].
Defined.

(** ** Discovery *)

Lemma Forall_skipn_keep {A} (P : A -> Prop) n l :
  Forall P l -> Forall P (skipn n l).
Proof.
  intros H. rewrite Forall_forall in *. intros x Hx. apply H.
  eapply In_skipn. exact Hx.
Qed.

Lemma last_app_nonempty {A} (a b : list A) d :
  b <> [] -> last (a ++ b) d = last b d.
Proof.
  intros Hb. induction a as [|x a IH]; [reflexivity|].
  cbn [app]. destruct (a ++ b) eqn:E.
  - apply app_eq_nil in E as [_ E]. contradiction.
  - rewrite <- E in *. cbn [last]. rewrite E. rewrite <- E. exact IH.
Qed.

Lemma rglob_found w dir ext :
  clean_keys (w_fs w) ->
  Forall (fun p => exists_ w p = true
                   /\ ends_with ext (name p) = true
                   /\ exists rest, rest <> []
                        /\ p = Path (p_abs dir) (p_parts dir ++ rest))
         (rglob w dir ext).
Proof.
  intros Hc. unfold rglob. apply Forall_forall. intros p Hp.
  apply in_flat_map in Hp as ([k n] & Hin & Hp). cbn [fst] in Hp.
  destruct (is_prefix (resolve w dir) k && _ && _) eqn:E; [|contradiction].
  destruct Hp as [<-|[]].
  apply andb_prop in E as [E He]. apply andb_prop in E as [Hpre Hlen].
  apply Nat.ltb_lt in Hlen.
  pose proof (is_prefix_inv _ _ Hpre) as Hk.
  set (rest := skipn (List.length (resolve w dir)) k) in *.
  assert (Hrest : rest <> []).
  { intros E0. rewrite E0, app_nil_r in Hk.
    apply (f_equal (@List.length str)) in Hk. lia. }
  assert (Hclean : Forall (fun x => x <> dotdot) rest).
  { apply Forall_skipn_keep. unfold clean_keys in Hc.
    rewrite Forall_forall in Hc. exact (Hc (k, n) Hin). }
  assert (Hres : resolve w (Path (p_abs dir) (p_parts dir ++ rest)) = k).
  { change (Path (p_abs dir) (p_parts dir ++ rest))
      with (join dir (Path false rest)) at 1.
    - rewrite resolve_join_clean by exact Hclean. now rewrite <- Hk.
  }
  split; [|split].
  - unfold exists_, lookup. rewrite Hres.
    destruct k as [|x k']; [simpl in Hlen; lia|].
    destruct (fs_lookup (w_fs w) (x :: k')) eqn:L; [reflexivity|].
    now elim (fs_lookup_In _ _ _ Hin).
  - unfold name. cbn [p_parts]. rewrite last_app_nonempty by exact Hrest.
    rewrite Hk in He. now rewrite last_app_nonempty in He by exact Hrest.
  - exists rest. now split.
Qed.

(** The walk finds exactly the entries strictly below the directory whose
    name ends with the extension as written. *)
Lemma rglob_iff w dir ext p :
  In p (rglob w dir ext) <->
  exists rest n,
    rest <> []
    /\ In (resolve w dir ++ rest, n) (w_fs w)
    /\ ends_with ext (last rest []) = true
    /\ p = Path (p_abs dir) (p_parts dir ++ rest).
Proof.
  unfold rglob. rewrite in_flat_map. split.
  - intros ([k n] & Hin & Hp). cbn [fst] in Hp.
    destruct (is_prefix (resolve w dir) k && _ && _) eqn:E; [|contradiction].
    destruct Hp as [<-|[]].
    apply andb_prop in E as [E He]. apply andb_prop in E as [Hpre Hlen].
    apply Nat.ltb_lt in Hlen.
    pose proof (is_prefix_inv _ _ Hpre) as Hk.
    set (rest := skipn (List.length (resolve w dir)) k) in *.
    assert (Hrest : rest <> []).
    { intros E0. rewrite E0, app_nil_r in Hk.
      apply (f_equal (@List.length str)) in Hk. lia. }
    exists rest, n. split; [exact Hrest|]. rewrite <- Hk.
    split; [exact Hin|]. split; [|reflexivity].
    rewrite Hk in He. now rewrite last_app_nonempty in He by exact Hrest.
  - intros (rest & n & Hrest & Hin & He & ->).
    exists (resolve w dir ++ rest, n). split; [exact Hin|]. cbn [fst].
    rewrite is_prefix_app, last_app_nonempty, He by exact Hrest.
    assert (Hlen : (List.length (resolve w dir)
                    <? List.length (resolve w dir ++ rest)) = true).
    { apply Nat.ltb_lt. rewrite length_app.
      destruct rest; [contradiction | simpl; lia]. }
    rewrite Hlen. cbn [andb].
    rewrite skipn_app, skipn_all, Nat.sub_diag. cbn [skipn app]. now left.
Qed.

(** Under an input directory, the discovered documents are exactly the
    entries strictly below it, at any depth, whose name ends with .md or
    .markdown as written (the walk compares names as a POSIX file system
    does, so UPPER.MD is not one of them); in a file system whose keys hold
    no dot-dot component each of them exists under its path. *)
Theorem directory_walk_finds_markdown_entries (self : migrator) (w : world) :
  clean_keys (w_fs w) ->
  is_file w (input_path self) = false ->
  is_dir w (input_path self) = true ->
  (forall p,
     In p (discover self w) <->
     exists rest n,
       rest <> []
       /\ In (resolve w (input_path self) ++ rest, n) (w_fs w)
       /\ markdown_name (last rest []) = true
       /\ p = Path (p_abs (input_path self))
                (p_parts (input_path self) ++ rest))
  /\ Forall (fun p => exists_ w p = true) (discover self w).
Proof.
  intros Hc F D. unfold discover. rewrite F, D. split.
  - intros p. rewrite in_app_iff, !rglob_iff. unfold markdown_name. split.
    + intros [(rest & n & H1 & H2 & H3 & H4)|(rest & n & H1 & H2 & H3 & H4)];
        exists rest, n; rewrite H3; repeat split; auto using orb_true_r.
    + intros (rest & n & H1 & H2 & H3 & H4).
      apply orb_prop in H3 as [H3|H3]; [left|right]; exists rest, n; auto.
  - pose proof (rglob_found w (input_path self) (txt ".md") Hc) as H1.
    pose proof (rglob_found w (input_path self) (txt ".markdown") Hc) as H2.
    apply Forall_app; split.
    + eapply Forall_impl; [|exact H1]. now intros p (H & _).
    + eapply Forall_impl; [|exact H2]. now intros p (H & _).
Qed.

Lemma directory_walk_finds_markdown_entries_witness :
  discover (migrator_for (txt "/notes")) mixed_case_world
    = [path_of (txt "/notes/sub/lower.md")]
  /\ (forall p,
       In p (discover (migrator_for (txt "/notes")) mixed_case_world) <->
       exists rest n,
         rest <> []
         /\ In (resolve mixed_case_world
                  (input_path (migrator_for (txt "/notes"))) ++ rest, n)
               (w_fs mixed_case_world)
         /\ markdown_name (last rest []) = true
         /\ p = Path (p_abs (input_path (migrator_for (txt "/notes"))))
                  (p_parts (input_path (migrator_for (txt "/notes"))) ++ rest))
  /\ Forall (fun p => exists_ mixed_case_world p = true)
       (discover (migrator_for (txt "/notes")) mixed_case_world).
Proof.
  split; [reflexivity|].
  apply (directory_walk_finds_markdown_entries
           (migrator_for (txt "/notes")) mixed_case_world).
  - repeat constructor; discriminate.
  - reflexivity.
  - reflexivity.
Defined.


(** ** What a successful run leaves behind *)

Lemma world_ext (w w' : world) :
  w_fs w' = w_fs w -> w_cwd w' = w_cwd w -> w_clock w' = w_clock w ->
  w_console w' = w_console w -> w' = w.
Proof.
  destruct w, w'. cbn. intros; subst. reflexivity.
Qed.

Lemma read_leaves_world {A} (m : M A) w :
  reads_only m -> quiet m -> snd (m w) = w.
Proof.
  intros R Q. destruct (R w) as (F & C & T). now apply world_ext.
Qed.

Lemma bind_ok {A B} (m : M A) (f : A -> M B) w b w' :
  bind m f w = (Ok b, w') ->
  exists a w1, m w = (Ok a, w1) /\ f a w1 = (Ok b, w').
Proof.
  unfold bind. destruct (m w) as [[a|e] w1]; [eauto | discriminate].
Qed.

Lemma write_node_post p data d w w' :
  write_node p data d w = (Ok tt, w') ->
  w_fs w' = fs_store (w_fs w) (resolve w p) (Node (Reg data) d true)
  /\ w_cwd w' = w_cwd w /\ w_clock w' = w_clock w
  /\ w_console w' = w_console w.
Proof.
  unfold write_node, bind. cbn [get_world].
  assert (Hs : set_fs (fs_store (w_fs w) (resolve w p) (Node (Reg data) d true)) w
               = (Ok tt, w') ->
               w_fs w' = fs_store (w_fs w) (resolve w p) (Node (Reg data) d true)
               /\ w_cwd w' = w_cwd w /\ w_clock w' = w_clock w
               /\ w_console w' = w_console w).
  { unfold set_fs. intros E. injection E as <-. cbn. auto. }
  destruct (lookup w p) as [[[|?] ? ?]|]; [discriminate| |];
    (destruct (is_dir w (parent p)); [exact Hs | discriminate]).
Qed.

Lemma find_and_copy_images_keeps self content dir :
  writes (fun _ _ => True) (find_and_copy_images self content dir).
Proof.
  unfold find_and_copy_images. apply writes_foldM. intros b r.
  apply writes_foldM. intros b' m. unfold copy_match. cbv zeta.
  destruct (_ || _); [apply reads_only_writes, reads_only_ret|].
  apply writes_bind; [apply reads_only_writes, reads_only_get_world|intros u].
  destruct (find_image_file self u _ dir) as [src|];
    [|apply reads_only_writes, reads_only_ret].
  apply writes_bind;
    [apply reads_only_writes, reads_only_generate_image_filename|intros n].
  apply writes_bind; [|intros _; apply reads_only_writes, reads_only_ret].
  eapply writes_weaken; [|apply copy2_writes]. auto.
Qed.

Lemma read_text_ascii f w data d r content w1 :
  lookup w f = Some (Node (Reg data) d r) ->
  forallb (fun c => code c <? 128) data = true ->
  read_text f w = (Ok content, w1) ->
  content = universal_newlines data.
Proof.
  intros L A. unfold read_text, read_bytes, bind. cbn [get_world].
  rewrite L. destruct r; [|discriminate]. unfold ret, decode_utf8.
  rewrite A. now intros [= <- _].
Qed.

Lemma stat_mtime_of f w n d w1 :
  lookup w f = Some n -> stat_mtime f w = (Ok d, w1) -> d = n_mtime n.
Proof.
  intros L. unfold stat_mtime, bind. cbn [get_world]. rewrite L.
  now intros [= <- _].
Qed.

(** For a document of ASCII text: when [process_markdown_file] returns
    True, the text is the file's content with its line ends read as "\n",
    and the post stored at [output_dir / (date-slug.md)] is the front matter
    followed by that text with its image references rewritten through the
    mapping of the copied images. The date is the modification time of the
    document, the title the one extracted from the text, the tags those of
    the text before rewriting; the post is stamped with the clock, no other
    entry changes once the images are copied, and the console gains the
    announcement and the report of that post. *)
Theorem successful_document_is_written
    (jb : str -> nat -> option (list str))
    (self : migrator) (f : path) (w w' : world)
    (data : bytes) (d : date) (r : bool) :
  lookup w f = Some (Node (Reg data) d r) ->
  forallb (fun c => code c <? 128) data = true ->
  process_markdown_file jb self f w = (Ok true, w') ->
  let w0 := snd (print (PrintProcessing f) w) in
  let content := universal_newlines data in
  exists title_ mapping w1 body,
    extract_title_from_content self content w0 = (Ok title_, w0)
    /\ find_and_copy_images self content (parent f) w0 = (Ok mapping, w1)
    /\ update_image_paths content mapping = Some body
    /\ let post := join (output_dir self) (path_of (output_filename d title_)) in
       let tags := extract_tags_from_content jb content 5 in
       fs_lookup (w_fs w') (resolve w post)
       = Some (Node (Reg (generate_jekyll_front_matter title_ d tags ++ body))
                    (w_clock w) true)
       /\ (forall k, k <> resolve w post ->
                     fs_lookup (w_fs w') k = fs_lookup (w_fs w1) k)
       /\ w_console w'
          = w_console w ++
            [PrintProcessing f;
             PrintCreated post title_ d tags
               (match mapping with
                | [] => None
                | _ => Some (List.length mapping)
                end)].
Proof.
  intros L A H w0 content0.
  rewrite process_markdown_file_catches in H. fold w0 in H.
  assert (L0 : lookup w0 f = Some (Node (Reg data) d r)) by exact L.
  destruct (process_body jb self f w0) as [[b|e] w2] eqn:P;
    [|discriminate]. injection H as -> ->.
  unfold process_body in P.
  apply bind_ok in P. destruct P as (content & u1 & E1 & P).
  assert (U1 : u1 = w0).
  { pose proof (read_leaves_world (read_text f) w0
                  (reads_only_read_text f) (quiet_read_text f)) as R.
    now rewrite E1 in R. }
  subst u1.
  assert (Hc : content = content0) by exact (read_text_ascii _ _ _ _ _ _ _ L0 A E1).
  subst content.
  apply bind_ok in P. destruct P as (title_ & u2 & E2 & P).
  assert (U2 : u2 = w0).
  { pose proof (read_leaves_world (extract_title_from_content self content0) w0
                  (reads_only_extract_title self content0)
                  (quiet_extract_title self content0)) as R.
    now rewrite E2 in R. }
  subst u2.
  apply bind_ok in P. destruct P as (d' & u3 & E3 & P).
  assert (U3 : u3 = w0).
  { pose proof (read_leaves_world (stat_mtime f) w0
                  (reads_only_stat_mtime f) (quiet_stat_mtime f)) as R.
    now rewrite E3 in R. }
  subst u3.
  assert (Hd : d' = d) by exact (stat_mtime_of _ _ _ _ _ L0 E3).
  subst d'.
  apply bind_ok in P. destruct P as (mapping & w1 & E4 & P).
  apply bind_ok in P. destruct P as (body & u5 & E5 & P).
  assert (U5 : update_image_paths content0 mapping = Some body /\ u5 = w1).
  { unfold lift_re in E5.
    destruct (update_image_paths content0 mapping);
      [|discriminate]. injection E5 as -> ->. auto. }
  destruct U5 as (U5 & ->).
  apply bind_ok in P. destruct P as ([] & w2 & E6 & P).
  apply bind_ok in P. destruct P as ([] & w3 & E7 & P).
  injection P as <-.
  unfold print in E7. injection E7 as <-.
  unfold write_text, bind in E6. cbn [get_world] in E6.
  apply write_node_post in E6. destruct E6 as (F6 & C6 & T6 & K6).
  (* the copies keep the working directory, the clock and the console *)
  pose proof (find_and_copy_images_keeps self content0 (parent f) w0) as Wr.
  rewrite E4 in Wr. cbn [snd] in Wr. destruct Wr as (C4 & T4 & _).
  pose proof (quiet_find_and_copy_images self content0 (parent f) w0) as Q4.
  rewrite E4 in Q4. cbn [snd] in Q4.
  assert (Hres : forall p, resolve w1 p = resolve w p).
  { intros p. unfold resolve. rewrite C4. reflexivity. }
  exists title_, mapping, w1, body.
  repeat (split; [assumption|]).
  cbv zeta. fold (output_filename d title_) in *.
  cbn [w_fs w_console]. rewrite F6, K6, Q4, T4, Hres.
  split; [apply fs_lookup_store_same|]. split.
  - intros k Hk. apply fs_lookup_store_other. congruence.
  - unfold w0. cbn [print snd w_console w_clock]. rewrite <- app_assoc.
    reflexivity.
Qed.

Lemma successful_document_is_written_witness :
  let jb : str -> nat -> option (list str) := fun _ _ => None in
  let self := migrator_for (txt "/notes") in
  let w := crlf_world in
  let w' := snd (process_markdown_file jb self good_note w) in
  let w0 := snd (print (PrintProcessing good_note) w) in
  let content := txt "# Hello" ++ nl ++ txt "Some text." in
  process_markdown_file jb self good_note w = (Ok true, w')
  /\ exists title_ mapping w1 body,
       extract_title_from_content self content w0 = (Ok title_, w0)
       /\ find_and_copy_images self content (parent good_note) w0
          = (Ok mapping, w1)
       /\ update_image_paths content mapping = Some body
       /\ fs_lookup (w_fs w')
            (resolve w (join (output_dir self)
                          (path_of (output_filename sample_date title_))))
          = Some (Node (Reg (generate_jekyll_front_matter title_ sample_date
                               (extract_tags_from_content jb content 5)
                             ++ body))
                       (w_clock w) true).
Proof.
  cbv zeta.
  assert (H : process_markdown_file (fun _ _ => None)
                (migrator_for (txt "/notes")) good_note crlf_world
              = (Ok true,
                 snd (process_markdown_file (fun _ _ => None)
                        (migrator_for (txt "/notes")) good_note crlf_world)))
    by (vm_compute; reflexivity).
  split; [exact H|].
  destruct (successful_document_is_written (fun _ _ => None)
              (migrator_for (txt "/notes")) good_note crlf_world _
              (txt "# Hello" ++ [carriage_return] ++ nl ++ txt "Some text.")
              sample_date true eq_refl eq_refl H)
    as (title_ & mapping & w1 & body & H2 & H4 & H5 & H6 & _).
  exists title_, mapping, w1, body. auto 10.
Defined.

(** ** The keys of the image mapping *)

Lemma unquote_plain s : forallb (not_ "%") s = true -> unquote s = s.
Proof.
  induction s as [|c s IH]; [reflexivity|]. intros H.
  cbn [forallb] in H. apply andb_prop in H as [Hc Hs].
  cbn [unquote]. unfold not_ in Hc. apply negb_true_iff in Hc.
  rewrite Ascii.eqb_sym in Hc. rewrite Hc. f_equal. now apply IH.
Qed.

Lemma dict_set_keys d k v :
  NoDup (map fst d) ->
  NoDup (map fst (dict_set d k v))
  /\ forall x, In x (map fst (dict_set d k v)) <-> x = k \/ In x (map fst d).
Proof.
  induction d as [|[k' v'] d IH]; intros Hn.
  - cbn. split; [repeat constructor; intros []|]. intros x. intuition.
  - cbn [dict_set]. inversion Hn as [|? ? Hk' Hd]; subst.
    destruct (str_eqb k' k) eqn:E.
    + apply str_eqb_eq in E. subst k'. cbn [map fst]. split; [exact Hn|].
      intros x. cbn [In]. intuition.
    + destruct (IH Hd) as (N & I). cbn [map fst]. split.
      * constructor; [|exact N]. rewrite I. intros [->|H]; [|now apply Hk'].
        now rewrite str_eqb_refl in E.
      * intros x. cbn [In]. rewrite I. intuition.
Qed.

Lemma copy_match_keys self dir refs copied m :
  In (match_path m) refs -> keys_from refs copied ->
  returns (keys_from refs) (copy_match self dir copied m).
Proof.
  intros Hin Hc w r w'. unfold copy_match. cbv zeta.
  fold (match_path m). fold (is_remote (unquote (match_path m))).
  destruct (is_remote (unquote (match_path m))) eqn:R;
    [intros [= <- _]; exact Hc|].
  unfold bind at 1. cbn [get_world].
  destruct (find_image_file self w _ dir) as [src|];
    [|intros [= <- _]; exact Hc].
  unfold bind.
  destruct (generate_image_filename src w) as [[n|e] w1]; [|discriminate].
  destruct (copy2 src _ w1) as [[u|e] w2]; [|discriminate].
  intros [= <- _]. destruct Hc as (N & F).
  destruct (dict_set_keys copied (unquote (match_path m))
              (txt "/images/" ++ n) N) as (N' & I).
  split; [exact N'|]. apply Forall_forall. intros k Hk. apply I in Hk.
  destruct Hk as [->|Hk]; [eauto|].
  rewrite Forall_forall in F. now apply F.
Qed.

Lemma foldM_copy_match_keys self dir refs items :
  incl (map match_path items) refs ->
  forall copied, keys_from refs copied ->
  returns (keys_from refs) (foldM (copy_match self dir) items copied).
Proof.
  induction items as [|m items IH]; intros Hi copied Hc w r w'; cbn [foldM].
  - intros [= <- _]. exact Hc.
  - unfold bind.
    destruct (copy_match self dir copied m w) as [[b|e] w1] eqn:E;
      [|discriminate].
    apply IH.
    + intros x Hx. apply Hi. now right.
    + eapply copy_match_keys; [| exact Hc | exact E].
      apply Hi. now left.
Qed.

(** The mapping returned by [find_and_copy_images] has no two entries with
    the same key; every key is the percent-decoded form of a reference string
    found in the text by one of the two image patterns and does not start with
    http:// or https://. A reference written without a percent sign is
    therefore recorded as written. *)
Theorem mapping_keys_are_decoded_references
    (self : migrator) (content : str) (source_dir : path)
    (w w' : world) (m : list (str * str)) :
  find_and_copy_images self content source_dir w = (Ok m, w') ->
  NoDup (map fst m)
  /\ Forall (fun k =>
               is_remote k = false
               /\ exists r, In r (references content)
                            /\ k = unquote r
                            /\ (forallb (not_ "%") r = true -> k = r))
            (map fst m).
Proof.
  intros H.
  assert (K : keys_from (references content) m).
  { revert H. unfold find_and_copy_images, image_patterns.
    cbn [foldM]. unfold bind.
    destruct (foldM (copy_match self source_dir)
                (re_findall md_image_re content) [] w) as [[m1|e] w1] eqn:E1;
      [|discriminate].
    destruct (foldM (copy_match self source_dir)
                (re_findall html_image_re content) m1 w1) as [[m2|e] w2] eqn:E2;
      [|discriminate].
    intros [= <- _].
    assert (I1 : incl (map match_path (re_findall md_image_re content))
                      (references content)).
    { intros x Hx. unfold references, image_patterns. cbn [flat_map].
      apply in_or_app. now left. }
    assert (I2 : incl (map match_path (re_findall html_image_re content))
                      (references content)).
    { intros x Hx. unfold references, image_patterns. cbn [flat_map].
      apply in_or_app. right. now rewrite app_nil_r. }
    eapply foldM_copy_match_keys; [exact I2 | | exact E2].
    eapply foldM_copy_match_keys; [exact I1 | | exact E1].
    split; constructor. }
  destruct K as (N & F). split; [exact N|].
  eapply Forall_impl; [|exact F].
  intros k (R & r & Hin & ->). split; [exact R|]. exists r.
  repeat split; auto. intros Hp. now apply unquote_plain.
Qed.

Lemma mapping_keys_are_decoded_references_witness :
  let m := [(txt "pic.png", txt "/images/0b75926a.png")] in
  NoDup (map fst m)
  /\ Forall (fun k =>
               is_remote k = false
               /\ exists r, In r (references (txt "![x](pic.png)"))
                            /\ k = unquote r
                            /\ (forallb (not_ "%") r = true -> k = r))
            (map fst m).
Proof.
  cbv zeta.
  apply (mapping_keys_are_decoded_references sample_migrator
           (txt "![x](pic.png)") (path_of (txt "/notes")) image_world
           (snd (find_and_copy_images sample_migrator (txt "![x](pic.png)")
                   (path_of (txt "/notes")) image_world))).
  vm_compute. reflexivity.
Defined.
